(** * Tractatus-Eval: generator / solver / validator pipeline

    A shallow embedding of the grid-navigation, key-lock and container
    generators ([scripts/generate_spatial_eval.py],
    [scripts/generate_keylock_eval.py], [scripts/generate_container_eval.py])
    and the properties of their solvers, validators and assembly loops.

    Python integers are [Z]; [Set[Coord]] is [gset (Z * Z)]; dictionaries are
    [gmap]; strings are [string]; lists are [list]. *)

From Stdlib Require Import ZArith Lia.
From stdpp Require Import gmap strings list sets pretty sorting.

Local Open Scope Z_scope.

Abbreviation Coord := (Z * Z)%type.

(** ** Definitions shared by the two grid generators *)

(** [DIRECTIONS = [(-1, 0), (1, 0), (0, -1), (0, 1)]]: up, down, left, right. *)
Definition DIRECTIONS : list Coord := [(-1, 0); (1, 0); (0, -1); (0, 1)].

(** [DIR_NAMES]: the dictionary from a direction vector to its name. *)
Definition DIR_NAMES (d : Coord) : option string :=
  if decide (d = (-1, 0)) then Some "up"
  else if decide (d = (1, 0)) then Some "down"
  else if decide (d = (0, -1)) then Some "left"
  else if decide (d = (0, 1)) then Some "right"
  else None.

(** [DIR_VECTORS]: the dictionary from a direction name to its vector. *)
Definition DIR_VECTORS (d : string) : option Coord :=
  if decide (d = "up") then Some (-1, 0)
  else if decide (d = "down") then Some (1, 0)
  else if decide (d = "left") then Some (0, -1)
  else if decide (d = "right") then Some (0, 1)
  else None.

Definition GRID_SIZE : Z := 5.

(** [0 <= p[0] < grid_size and 0 <= p[1] < grid_size] *)
Definition in_bounds (grid_size : Z) (p : Coord) : bool :=
  (0 <=? p.1) && (p.1 <? grid_size) && (0 <=? p.2) && (p.2 <? grid_size).

Definition move (p d : Coord) : Coord := (p.1 + d.1, p.2 + d.2).

(** [", ".join(l)] *)
Fixpoint join (sep : string) (l : list string) : string :=
  match l with
  | [] => ""
  | [s] => s
  | s :: l' => s +:+ sep +:+ join sep l'
  end.

(** ** The random source

    [random.Random] is a deterministic generator: a state and a transition
    that yields a raw draw and the next state.  Each library call consumes
    draws and satisfies the contract of the Python method; the theorems below
    hold for every generator, hence for every seed. *)
Module Rng.

Record t := mk { state : nat; step : nat -> nat * nat }.

Definition M (A : Type) : Type := t -> A * t.

#[global] Instance M_ret : MRet M := fun A a r => (a, r).
#[global] Instance M_bind : MBind M :=
  fun A B f m r => let '(a, r') := m r in f a r'.

(** One integer below [n]. *)
Definition randbelow (n : nat) : M nat :=
  fun r => let '(d, s) := step r (state r) in ((d mod n)%nat, mk s (step r)).

(** [rng.choice(l)]; the callers never pass an empty list. *)
Definition choice {A} (dflt : A) (l : list A) : M A :=
  j ← randbelow (length l); mret (nth j l dflt).

(** [rng.randint(a, b)], both ends included. *)
Definition randint (a b : Z) : M Z :=
  j ← randbelow (Z.to_nat (b - a + 1)); mret (a + Z.of_nat j).

(** [rng.random() < percent / 100]. *)
Definition random_lt (percent : nat) : M bool :=
  j ← randbelow 100; mret (bool_decide (j < percent)%nat).

(** [x[i], x[j] = x[j], x[i]] *)
Definition swap {A} (l : list A) (i j : nat) : list A :=
  match l !! i, l !! j with
  | Some a, Some b => <[j:=a]> (<[i:=b]> l)
  | _, _ => l
  end.

(** [rng.shuffle(x)]:
    [for i in reversed(range(1, len(x))): j = randbelow(i + 1); swap i, j]. *)
Fixpoint shuffle_from {A} (i : nat) (l : list A) : M (list A) :=
  match i with
  | O => mret l
  | S i' => j ← randbelow (S i); shuffle_from i' (swap l i j)
  end.

Definition shuffle {A} (l : list A) : M (list A) :=
  shuffle_from (length l - 1) l.

(** [rng.sample(population, k)]: [k] elements taken at pairwise different
    positions, here the first [k] of a shuffle. *)
Definition sample {A} (population : list A) (k : nat) : M (list A) :=
  l ← shuffle population; mret (take k l).

(** [[f() for _ in range(n)]] *)
Fixpoint replicateM {A} (n : nat) (m : M A) : M (list A) :=
  match n with
  | O => mret []
  | S n' => a ← m; l ← replicateM n' m; mret (a :: l)
  end.

End Rng.

(** The generator whose raw draws are [l] repeated forever. *)
Definition cyclic_draws (l : list nat) : Rng.t :=
  Rng.mk 0 (fun i => (nth i l 0%nat, (S i mod length l)%nat)).

(** The generator whose raw draws are [f 0], [f 1], ... *)
Definition draws_of (f : nat -> nat) : Rng.t :=
  Rng.mk 0 (fun i => (f i, S i)).

(** Outcome of a search loop run with a bound on its iterations. *)
Inductive search_result (A : Type) :=
  | Found (a : A)
  | Exhausted
  | OutOfFuel.
Arguments Found {A} a.
Arguments Exhausted {A}.
Arguments OutOfFuel {A}.

(** All cells of the grid, [(r, c) for r in range(n) for c in range(n)]. *)
Definition all_coords (grid_size : Z) : list Coord :=
  r ← seqZ 0 grid_size; c ← seqZ 0 grid_size; [(r, c)].

(** [coord_label]: row 0-4 is A-E, column 0-4 is 1-5. *)
Definition coord_label (c : Coord) : string :=
  String (Ascii.ascii_of_nat (65 + Z.to_nat c.1)) (pretty (c.2 + 1)).

(** The line feed character as a string. *)
Definition newline : string := String (Ascii.ascii_of_nat 10) "".

(** [sorted] on strings. *)
Definition sorted_strings (l : list string) : list string :=
  merge_sort (fun a b => Is_true (String.leb a b)) l.

(** ** Grid navigation ([generate_spatial_eval.py]) *)
Module Spatial.

Definition NUM_OBSTACLES : nat := 3.

Record GridScenario := mkGridScenario {
  grid_size : Z;
  start : Coord;
  end_ : Coord;
  obstacles : gset Coord;
  shortest_path : option (list Coord);
  path_directions : option (list string)
}.

(** *** A* pathfinding *)

(** [heuristic]: Manhattan distance. *)
Definition heuristic (a b : Coord) : Z := Z.abs (a.1 - b.1) + Z.abs (a.2 - b.2).

(** An element of [open_set]: the tuple [(f_score, counter, current_node, path)]. *)
Record Entry := mkEntry {
  e_f : Z;
  e_counter : Z;
  e_node : Coord;
  e_path : list Coord
}.

(** Python compares the tuples lexicographically; the counters are pairwise
    different, so the comparison is decided by [(f_score, counter)]. *)
Definition entry_lt (a b : Entry) : bool :=
  (e_f a <? e_f b) || ((e_f a =? e_f b) && (e_counter a <? e_counter b)).

(** [heapq] as a priority queue: [heappush] adds an entry, [heappop] removes
    and returns the least one. *)
Definition heappush (h : list Entry) (e : Entry) : list Entry := e :: h.

Fixpoint heappop (h : list Entry) : option (Entry * list Entry) :=
  match h with
  | [] => None
  | e :: h' =>
      match heappop h' with
      | None => Some (e, [])
      | Some (m, r) => if entry_lt m e then Some (m, e :: r) else Some (e, h')
      end
  end.

(** The body of [for dr, dc in DIRECTIONS], threading [open_set] and [counter]. *)
Definition push_neighbor (end_ : Coord) (obstacles visited : gset Coord)
    (grid_size : Z) (current : Coord) (path : list Coord)
    (st : list Entry * Z) (d : Coord) : list Entry * Z :=
  let neighbor := move current d in
  if in_bounds grid_size neighbor
     && bool_decide (neighbor ∉ obstacles)
     && bool_decide (neighbor ∉ visited)
  then
    let g := Z.of_nat (length path) in
    let f_new := g + heuristic neighbor end_ in
    let counter := st.2 + 1 in
    (heappush st.1 (mkEntry f_new counter neighbor (path ++ [neighbor])), counter)
  else st.

(** The [while open_set] loop; [fuel] bounds the number of iterations. *)
Fixpoint a_star_loop (fuel : nat) (end_ : Coord) (obstacles : gset Coord)
    (grid_size : Z) (open_set : list Entry) (counter : Z)
    (visited : gset Coord) : search_result (list Coord) :=
  match fuel with
  | O => OutOfFuel
  | S fuel' =>
      match heappop open_set with
      | None => Exhausted
      | Some (e, open_set') =>
          let current := e_node e in
          let path := e_path e in
          if decide (current = end_) then Found path
          else if decide (current ∈ visited) then
            a_star_loop fuel' end_ obstacles grid_size open_set' counter visited
          else
            let visited' := {[current]} ∪ visited in
            let st := fold_left
                        (push_neighbor end_ obstacles visited' grid_size current path)
                        DIRECTIONS (open_set', counter) in
            a_star_loop fuel' end_ obstacles grid_size st.1 st.2 visited'
      end
  end.

(** The cells that can ever be expanded: the grid and the start cell. *)
Definition search_space (start : Coord) (grid_size : Z) : gset Coord :=
  {[start]} ∪ list_to_set (all_coords grid_size).

(** Every expansion pushes at most four entries, so the loop body runs at
    most [4 * cells + 1] times before the heap is empty. *)
Definition a_star_fuel (start : Coord) (grid_size : Z) : nat :=
  (4 * size (search_space start grid_size) + 2)%nat.

Definition a_star (start end_ : Coord) (obstacles : gset Coord)
    (grid_size : Z) : option (list Coord) :=
  let open_set := heappush [] (mkEntry (heuristic start end_) 0 start [start]) in
  match a_star_loop (a_star_fuel start grid_size) end_ obstacles grid_size
          open_set 0 ∅ with
  | Found path => Some path
  | _ => None
  end.

(** [path_to_directions]; [DIR_NAMES[(dr, dc)]] raises on a step that is not
    a unit move, which is [None] here. *)
Fixpoint path_to_directions (path : list Coord) : option (list string) :=
  match path with
  | [] | [_] => Some []
  | p :: (q :: _) as path' =>
      d ← DIR_NAMES (q.1 - p.1, q.2 - p.2);
      l ← path_to_directions path';
      Some (d :: l)
  end.

(** *** Scenario generation *)

Definition generate_scenario : Rng.M (option GridScenario) :=
  chosen ← Rng.sample (all_coords GRID_SIZE) (2 + NUM_OBSTACLES);
  match chosen with
  | start :: end_ :: rest =>
      let obstacles : gset Coord := list_to_set rest in
      match a_star start end_ obstacles GRID_SIZE with
      | None => mret None
      | Some path =>
          mret (Some (mkGridScenario GRID_SIZE start end_ obstacles
                        (Some path) (path_to_directions path)))
      end
  | _ => mret None
  end.

(** *** Prompt rendering *)

Definition render_cell (sc : GridScenario) (pos : Coord) : string :=
  if decide (pos = start sc) then "S"
  else if decide (pos = end_ sc) then "E"
  else if decide (pos ∈ obstacles sc) then "#"
  else ".".

Definition render_grid_ascii (sc : GridScenario) : string :=
  let header := "  " +:+ join " " ((fun c => pretty (c + 1)) <$> seqZ 0 GRID_SIZE) in
  let row r :=
    String (Ascii.ascii_of_nat (65 + Z.to_nat r)) " "
    +:+ join " " ((fun c => render_cell sc (r, c)) <$> seqZ 0 GRID_SIZE) in
  join newline (header :: (row <$> seqZ 0 GRID_SIZE)).

Definition obstacle_labels (sc : GridScenario) : list string :=
  sorted_strings (coord_label <$> elements (obstacles sc)).

Definition render_prompt (sc : GridScenario) : string :=
  let nl := newline in
  "You are navigating a " +:+ pretty GRID_SIZE +:+ "×" +:+ pretty GRID_SIZE
  +:+ " grid. Rows are labeled A–E (top to bottom), columns 1–5 (left to right). "
  +:+ "You can move one step at a time: up, down, left, or right. "
  +:+ "You CANNOT move diagonally, move outside the grid boundaries, "
  +:+ "or pass through obstacle cells." +:+ nl +:+ nl
  +:+ "Grid map:" +:+ nl +:+ render_grid_ascii sc +:+ nl +:+ nl
  +:+ "Start: " +:+ coord_label (start sc) +:+ "  |  "
  +:+ "Goal: " +:+ coord_label (end_ sc) +:+ "  |  "
  +:+ "Obstacles (impassable): " +:+ join ", " (obstacle_labels sc) +:+ nl +:+ nl
  +:+ "What is the shortest valid path from "
  +:+ coord_label (start sc) +:+ " to " +:+ coord_label (end_ sc) +:+ "? "
  +:+ "Give your answer as a comma-separated list of directions "
  +:+ "(up/down/left/right).".

(** *** Physics-engine playback validator *)

Record SimulationResult := mkSimulationResult {
  reached_goal : bool;
  hit_wall : bool;
  out_of_bounds : bool;
  final_position : Coord
}.

(** The [for d in directions] loop of [simulate_path] on the variables
    [(pos, hit_wall, out_of_bounds)]; a [break] returns at once. *)
Fixpoint simulate_loop (obstacles : gset Coord) (grid_size : Z)
    (directions : list string) (pos : Coord) : Coord * bool * bool :=
  match directions with
  | [] => (pos, false, false)
  | d :: directions' =>
      match DIR_VECTORS d with
      | None => (pos, false, true)
      | Some vec =>
          let next_pos := move pos vec in
          if negb (in_bounds grid_size next_pos) then (pos, false, true)
          else if decide (next_pos ∈ obstacles) then (pos, true, false)
          else simulate_loop obstacles grid_size directions' next_pos
      end
  end.

Definition simulate_path (start end_ : Coord) (obstacles : gset Coord)
    (directions : list string) (grid_size : Z) : SimulationResult :=
  let '(pos, hit_wall, out_of_bounds) :=
    simulate_loop obstacles grid_size directions start in
  mkSimulationResult (bool_decide (pos = end_)) hit_wall out_of_bounds pos.

Definition is_path_physically_invalid (start end_ : Coord)
    (obstacles : gset Coord) (directions : list string) (grid_size : Z) : bool :=
  let result := simulate_path start end_ obstacles directions grid_size in
  if hit_wall result || out_of_bounds result then true
  else if negb (reached_goal result) then true
  else false.

(** *** Distractor generation *)

(** The variables [distractors] and [used] of [generate_distractors]. *)
Abbreviation pool := (list string * gset string)%type.

(** [_try_add]; its Boolean result is ignored by every caller. *)
Definition try_add (sc : GridScenario) (st : pool)
    (candidate_dirs : list string) : pool :=
  let candidate_str := join ", " candidate_dirs in
  if decide (candidate_str ∈ st.2) then st
  else if negb (is_path_physically_invalid (start sc) (end_ sc) (obstacles sc)
                  candidate_dirs GRID_SIZE)
  then st
  else (st.1 ++ [candidate_str], {[candidate_str]} ∪ st.2).

Definition all_dir_names : list string := ["up"; "down"; "left"; "right"].

(** Strategy 1: the two [while] loops walk the row, then the column, one
    cell at a time towards the goal. *)
Definition naive_dirs (sc : GridScenario) : list string :=
  let '(sr, sc_) := start sc in
  let '(er, ec) := end_ sc in
  replicate (Z.to_nat (Z.abs (er - sr))) (if bool_decide (er > sr) then "down" else "up")
  ++ replicate (Z.to_nat (Z.abs (ec - sc_)))
       (if bool_decide (ec > sc_) then "right" else "left").

(** Strategy 2: [for _ in range(n)] random walks of the length of [correct]. *)
Fixpoint random_walks (n : nat) (sc : GridScenario) (num_distractors : nat)
    (correct : list string) (st : pool) : Rng.M pool :=
  match n with
  | O => mret st
  | S n' =>
      if bool_decide (num_distractors ≤ length st.1)%nat then mret st
      else
        rand_path ← Rng.replicateM (length correct) (Rng.choice "" all_dir_names);
        random_walks n' sc num_distractors correct (try_add sc st rand_path)
  end.

Definition opposite (d : string) : string :=
  if decide (d = "up") then "down"
  else if decide (d = "down") then "up"
  else if decide (d = "left") then "right"
  else if decide (d = "right") then "left"
  else d.

(** Strategy 4: [for _ in range(n)] one position of [correct] redrawn. *)
Fixpoint mutations (n : nat) (sc : GridScenario) (num_distractors : nat)
    (correct : list string) (st : pool) : Rng.M pool :=
  match n with
  | O => mret st
  | S n' =>
      if bool_decide (num_distractors ≤ length st.1)%nat then mret st
      else
        idx ← Rng.randint 0 (Z.of_nat (length correct) - 1);
        d ← Rng.choice "" all_dir_names;
        let mutated := <[Z.to_nat idx := d]> correct in
        mutations n' sc num_distractors correct (try_add sc st mutated)
  end.

Definition generate_distractors (sc : GridScenario) (num_distractors : nat)
    : Rng.M (list string) :=
  match path_directions sc with
  | None | Some [] => mret []
  | Some correct =>
      let st0 : pool := ([], {[join ", " correct]}) in
      let st1 := try_add sc st0 (naive_dirs sc) in
      st2 ← random_walks 50 sc num_distractors correct st1;
      let st3 :=
        if bool_decide (length st2.1 < num_distractors)%nat
        then try_add sc st2 (opposite <$> reverse correct)
        else st2 in
      st4 ← (if bool_decide (length st3.1 < num_distractors)%nat
                && bool_decide (2 ≤ length correct)%nat
             then mutations 20 sc num_distractors correct st3
             else mret st3);
      mret (take num_distractors st4.1)
  end.

(** *** Assembly of one evaluation document *)

Record Metadata := mkMetadata {
  md_grid_size : Z;
  md_start : string;
  md_end : string;
  md_obstacles : list string;
  md_shortest_path_length : Z;
  md_fingerprint : string
}.

Record EvalDoc := mkEvalDoc {
  doc_id : nat;
  query : string;
  choices : list string;
  gold : nat;
  metadata : Metadata
}.

Section Assembly.

(** [hashlib.sha256(s.encode()).hexdigest()] *)
Variable sha256_hex : string -> string.

(** [", ".join(scenario.path_directions)] *)
Definition correct_answer (sc : GridScenario) : string :=
  join ", " (default [] (path_directions sc)).

Definition scenario_to_eval_doc (sc : GridScenario) (doc_id : nat)
    : Rng.M EvalDoc :=
  let prompt := render_prompt sc in
  distractors ← generate_distractors sc 3;
  let choices := correct_answer sc :: distractors in
  answer_pairs ← Rng.shuffle (imap (fun i c => (i, c)) choices);
  let gold_idx :=
    from_option fst 0%nat (list_find (fun p => p.1 = 0%nat) answer_pairs) in
  let shuffled_choices := snd <$> answer_pairs in
  let fingerprint := String.substring 0 12 (sha256_hex prompt) in
  mret (mkEvalDoc doc_id prompt shuffled_choices gold_idx
          (mkMetadata (grid_size sc) (coord_label (start sc))
             (coord_label (end_ sc)) (obstacle_labels sc)
             (Z.of_nat (length (default [] (shortest_path sc))) - 1)
             fingerprint)).

(** *** Main driver *)

(** The variables of the generation loop of [main]. *)
Record run := mkRun {
  samples : list EvalDoc;
  seen_fingerprints : gset string;
  attempts : Z
}.

(** One pass through the body of the [while] loop. *)
Definition main_body (st : run) : Rng.M run :=
  let attempts' := attempts st + 1 in
  scenario ← generate_scenario;
  match scenario with
  | None => mret (mkRun (samples st) (seen_fingerprints st) attempts')
  | Some sc =>
      doc ← scenario_to_eval_doc sc (length (samples st));
      let fp := md_fingerprint (metadata doc) in
      if decide (fp ∈ seen_fingerprints st)
      then mret (mkRun (samples st) (seen_fingerprints st) attempts')
      else mret (mkRun (samples st ++ [doc]) ({[fp]} ∪ seen_fingerprints st)
                   attempts')
  end.

(** [while len(samples) < num_samples and attempts < max_attempts]; the
    result is [None] when [fuel] passes do not reach the exit. *)
Fixpoint main_loop (fuel : nat) (num_samples max_attempts : Z) (st : run)
    : Rng.M (option run) :=
  if bool_decide (Z.of_nat (length (samples st)) < num_samples)
     && bool_decide (attempts st < max_attempts)
  then
    match fuel with
    | O => mret None
    | S fuel' =>
        st' ← main_body st;
        main_loop fuel' num_samples max_attempts st'
    end
  else mret (Some st).

(** The generation part of [main]. *)
Definition main (num_samples : Z) : Rng.M (option run) :=
  let max_attempts := num_samples * 20 in
  main_loop (Z.to_nat max_attempts) num_samples max_attempts (mkRun [] ∅ 0).

End Assembly.

End Spatial.

(** ** Key-lock puzzles ([generate_keylock_eval.py]) *)
Module KeyLock.

Definition NUM_OBSTACLES : nat := 2.
Definition COLORS : list string := ["red"; "blue"].

Record KeyLockScenario := mkKeyLockScenario {
  grid_size : Z;
  start : Coord;
  end_ : Coord;
  obstacles : gset Coord;
  keys : gmap Coord string;
  doors : gmap Coord string;
  solution_actions : option (list string);
  solution_path : option (list Coord)
}.

(** *** State-aware BFS *)

(** [State = (position, frozenset of keys held)] *)
Abbreviation State := (Coord * gset string)%type.

(** An element of [queue]: [(state, path, actions)]. *)
Abbreviation Item := (State * list Coord * list string)%type.

(** The variables [visited] and [queue] of the search. *)
Abbreviation frontier := (gset State * list Item)%type.

(** [if new_state not in visited: visited.add(new_state); queue.append(...)] *)
Definition enqueue (fr : frontier) (new_state : State) (path : list Coord)
    (actions : list string) : frontier :=
  if decide (new_state ∈ fr.1) then fr
  else ({[new_state]} ∪ fr.1, fr.2 ++ [(new_state, path, actions)]).

(** "Try picking up a key at current position". *)
Definition try_pickup (keys : gmap Coord string) (it : Item) (fr : frontier)
    : frontier :=
  let '((pos, inv), path, actions) := it in
  match keys !! pos with
  | Some color =>
      if decide (color ∈ inv) then fr
      else enqueue fr (pos, inv ∪ {[color]}) (path ++ [pos])
             (actions ++ ["pick_up_" +:+ color])
  | None => fr
  end.

(** The body of [for d in DIRECTIONS]. *)
Definition try_move (obstacles : gset Coord) (doors : gmap Coord string)
    (grid_size : Z) (it : Item) (fr : frontier) (d : Coord) : frontier :=
  let '((pos, inv), path, actions) := it in
  let new_pos := move pos d in
  if negb (in_bounds grid_size new_pos) then fr
  else if decide (new_pos ∈ obstacles) then fr
  else
    match DIR_NAMES d with
    | None => fr
    | Some dir_name =>
        match doors !! new_pos with
        | Some door_color =>
            if decide (door_color ∈ inv)
            then enqueue fr (new_pos, inv) (path ++ [new_pos])
                   (actions ++ ["unlock_" +:+ door_color; dir_name])
            else fr
        | None =>
            enqueue fr (new_pos, inv) (path ++ [new_pos]) (actions ++ [dir_name])
        end
    end.

(** The [while queue] loop; [fuel] bounds the number of iterations.  The goal
    test comes after the expansion of the popped state, as in the source. *)
Fixpoint bfs_loop (fuel : nat) (end_ : Coord) (obstacles : gset Coord)
    (keys doors : gmap Coord string) (grid_size : Z) (fr : frontier)
    : search_result (list Coord * list string) :=
  match fuel with
  | O => OutOfFuel
  | S fuel' =>
      match fr.2 with
      | [] => Exhausted
      | it :: queue' =>
          let fr1 := try_pickup keys it (fr.1, queue') in
          let fr2 := fold_left (try_move obstacles doors grid_size it)
                       DIRECTIONS fr1 in
          if decide (it.1.1.1 = end_) then Found (it.1.2, it.2)
          else bfs_loop fuel' end_ obstacles keys doors grid_size fr2
      end
  end.

(** All inventories built from the colours of the keys on the grid. *)
Fixpoint inventories (colors : list string) : list (gset string) :=
  match colors with
  | [] => [∅]
  | c :: colors' =>
      inventories colors' ++ ((fun s => s ∪ {[c]}) <$> inventories colors')
  end.

(** The states that the search can ever visit. *)
Definition state_space (start : Coord) (keys : gmap Coord string)
    (grid_size : Z) : gset State :=
  list_to_set (cprod (start :: all_coords grid_size)
                 (inventories (snd <$> map_to_list keys))).

(** A state is put in the queue at most once, so the loop body runs at most
    once per state. *)
Definition bfs_fuel (start : Coord) (keys : gmap Coord string)
    (grid_size : Z) : nat :=
  S (size (state_space start keys grid_size)).

Definition bfs_with_keys (start end_ : Coord) (obstacles : gset Coord)
    (keys doors : gmap Coord string) (grid_size : Z)
    : option (list Coord * list string) :=
  let initial_state : State := (start, ∅) in
  match bfs_loop (bfs_fuel start keys grid_size) end_ obstacles keys doors
          grid_size ({[initial_state]}, [(initial_state, [start], [])]) with
  | Found r => Some r
  | _ => None
  end.

(** *** Scenario generation *)

(** [all_cells[idx]] *)
Definition cell (all_cells : list Coord) (idx : nat) : Coord :=
  nth idx all_cells (0, 0).

(** [for i in range(num_pairs)]: a key and a door of colour [COLORS[i]] on the
    next two cells. *)
Fixpoint place_pairs (colors : list string) (all_cells : list Coord)
    (idx : nat) (keys doors : gmap Coord string)
    : gmap Coord string * gmap Coord string * nat :=
  match colors with
  | [] => (keys, doors, idx)
  | color :: colors' =>
      place_pairs colors' all_cells (idx + 2)
        (<[cell all_cells idx := color]> keys)
        (<[cell all_cells (idx + 1) := color]> doors)
  end.

(** The part of [generate_scenario] that follows the layout: the solvability
    test and the non-triviality test. *)
Definition check_scenario (start end_ : Coord) (obstacles : gset Coord)
    (keys doors : gmap Coord string) : option KeyLockScenario :=
  match bfs_with_keys start end_ obstacles keys doors GRID_SIZE with
  | None => None
  | Some (path, actions) =>
      let accepted :=
        Some (mkKeyLockScenario GRID_SIZE start end_ obstacles keys doors
                (Some actions) (Some path)) in
      match bfs_with_keys start end_ obstacles ∅ ∅ GRID_SIZE with
      | Some (no_key_path, _) =>
          if bool_decide (length no_key_path ≤ length path)%nat then
            if bool_decide (∃ d, d ∈ dom doors ∧ d ∈ no_key_path)
            then accepted
            else None
          else accepted
      | None => accepted
      end
  end.

Definition generate_scenario : Rng.M (option KeyLockScenario) :=
  all_cells ← Rng.shuffle (all_coords GRID_SIZE);
  if bool_decide (length all_cells < 10)%nat then mret None
  else
    let start := cell all_cells 0 in
    let end_ := cell all_cells 1 in
    num_pairs ← Rng.choice 1%nat [1%nat; 2%nat];
    let '(keys, doors, idx) :=
      place_pairs (take num_pairs COLORS) all_cells 2 ∅ ∅ in
    let obstacles : gset Coord :=
      list_to_set (cell all_cells <$> seq idx NUM_OBSTACLES) in
    mret (check_scenario start end_ obstacles keys doors).

(** *** Physics-engine playback validator *)

Record KeyLockSimResult := mkKeyLockSimResult {
  reached_goal : bool;
  hit_wall : bool;
  out_of_bounds : bool;
  locked_door_blocked : bool;
  invalid_pickup : bool;
  invalid_unlock : bool;
  final_position : Coord;
  inventory : gset string
}.

(** [action[len(prefix):]] *)
Definition strip (prefix action : string) : string :=
  String.substring (String.length prefix)
    (String.length action - String.length prefix) action.

(** The [for action in actions] loop of [simulate_actions]: the result is
    built from the variables at the [break] or at the end of the list, with
    [reached_goal] still to be filled in. *)
Fixpoint simulate_loop (obstacles : gset Coord) (keys doors : gmap Coord string)
    (grid_size : Z) (actions : list string) (pos : Coord) (inv : gset string)
    : KeyLockSimResult :=
  let stop hit_wall out_of_bounds locked_door_blocked invalid_pickup
        invalid_unlock :=
    mkKeyLockSimResult false hit_wall out_of_bounds locked_door_blocked
      invalid_pickup invalid_unlock pos inv in
  match actions with
  | [] => stop false false false false false
  | action :: actions' =>
      if String.prefix "pick_up_" action then
        let color := strip "pick_up_" action in
        if bool_decide (keys !! pos = Some color) && bool_decide (color ∉ inv)
        then simulate_loop obstacles keys doors grid_size actions' pos
               (inv ∪ {[color]})
        else stop false false false true false
      else if String.prefix "unlock_" action then
        let color := strip "unlock_" action in
        if decide (color ∈ inv)
        then simulate_loop obstacles keys doors grid_size actions' pos inv
        else stop false false false false true
      else
        match DIR_VECTORS action with
        | Some d =>
            let new_pos := move pos d in
            if negb (in_bounds grid_size new_pos)
            then stop false true false false false
            else if decide (new_pos ∈ obstacles)
            then stop true false false false false
            else
              match doors !! new_pos with
              | Some door_color =>
                  if decide (door_color ∈ inv)
                  then simulate_loop obstacles keys doors grid_size actions'
                         new_pos inv
                  else stop false false true false false
              | None =>
                  simulate_loop obstacles keys doors grid_size actions'
                    new_pos inv
              end
        | None => simulate_loop obstacles keys doors grid_size actions' pos inv
        end
  end.

Definition simulate_actions (start end_ : Coord) (obstacles : gset Coord)
    (keys doors : gmap Coord string) (actions : list string) (grid_size : Z)
    : KeyLockSimResult :=
  let r := simulate_loop obstacles keys doors grid_size actions start ∅ in
  mkKeyLockSimResult (bool_decide (final_position r = end_)) (hit_wall r)
    (out_of_bounds r) (locked_door_blocked r) (invalid_pickup r)
    (invalid_unlock r) (final_position r) (inventory r).

Definition is_action_seq_invalid (start end_ : Coord) (obstacles : gset Coord)
    (keys doors : gmap Coord string) (actions : list string) (grid_size : Z)
    : bool :=
  let result :=
    simulate_actions start end_ obstacles keys doors actions grid_size in
  if hit_wall result || out_of_bounds result then true
  else if locked_door_blocked result then true
  else if invalid_pickup result || invalid_unlock result then true
  else if negb (reached_goal result) then true
  else false.

(** *** Distractor generation *)

(** The variables [distractors] and [used] of [generate_distractors]. *)
Abbreviation pool := (list string * gset string)%type.

(** [_try_add]; its Boolean result is ignored by every caller. *)
Definition try_add (sc : KeyLockScenario) (st : pool)
    (candidate_actions : list string) : pool :=
  let s := join ", " candidate_actions in
  if decide (s ∈ st.2) then st
  else if negb (is_action_seq_invalid (start sc) (end_ sc) (obstacles sc)
                  (keys sc) (doors sc) candidate_actions GRID_SIZE)
  then st
  else (st.1 ++ [s], {[s]} ∪ st.2).

Definition MAX_ATTEMPTS : nat := 100.

Definition other_color (color : string) : string :=
  if decide (color = "red") then "blue" else "red".

(** Strategy 3: every colour in a pick-up or unlock action is swapped. *)
Definition swap_color (a : string) : string :=
  if String.prefix "pick_up_" a
  then "pick_up_" +:+ other_color (strip "pick_up_" a)
  else if String.prefix "unlock_" a
  then "unlock_" +:+ other_color (strip "unlock_" a)
  else a.

(** [[i for i, a in enumerate(mutated) if a in DIR_VECTORS]] *)
Definition move_indices (l : list string) : list nat :=
  fst <$> filter (fun p => is_Some (DIR_VECTORS p.2)) (imap (fun i a => (i, a)) l).

(** [directions.remove(x)]: the first occurrence is dropped. *)
Fixpoint remove_first (x : string) (l : list string) : list string :=
  match l with
  | [] => []
  | y :: l' => if decide (y = x) then l' else y :: remove_first x l'
  end.

(** Strategy 4: one movement action of [correct] redrawn. *)
Fixpoint mutations (n : nat) (sc : KeyLockScenario) (num_distractors : nat)
    (correct : list string) (st : pool) : Rng.M pool :=
  match n with
  | O => mret st
  | S n' =>
      if bool_decide (num_distractors ≤ length st.1)%nat then mret st
      else
        match move_indices correct with
        | [] => mutations n' sc num_distractors correct st
        | indices =>
            idx ← Rng.choice 0%nat indices;
            let directions :=
              remove_first (nth idx correct "") ["up"; "down"; "left"; "right"] in
            d ← Rng.choice "" directions;
            mutations n' sc num_distractors correct
              (try_add sc st (<[idx := d]> correct))
        end
  end.

(** One action of a random walk of strategy 5. *)
Definition random_action (sc : KeyLockScenario) : Rng.M string :=
  b1 ← Rng.random_lt 15;
  if b1 && bool_decide (keys sc ≠ ∅) then
    color ← Rng.choice "" (snd <$> map_to_list (keys sc));
    mret ("pick_up_" +:+ color)
  else
    b2 ← Rng.random_lt 10;
    if b2 && bool_decide (doors sc ≠ ∅) then
      color ← Rng.choice "" (snd <$> map_to_list (doors sc));
      mret ("unlock_" +:+ color)
    else Rng.choice "" ["up"; "down"; "left"; "right"].

(** Strategy 5: random walks with key actions sprinkled in. *)
Fixpoint random_walks (n : nat) (sc : KeyLockScenario) (num_distractors : nat)
    (correct : list string) (st : pool) : Rng.M pool :=
  match n with
  | O => mret st
  | S n' =>
      if bool_decide (num_distractors ≤ length st.1)%nat then mret st
      else
        delta ← Rng.randint (-2) 2;
        let len := Z.max 3 (Z.of_nat (length correct) - 1 + delta) in
        random_actions ← Rng.replicateM (Z.to_nat len) (random_action sc);
        random_walks n' sc num_distractors correct (try_add sc st random_actions)
  end.

Definition generate_distractors (sc : KeyLockScenario) (num_distractors : nat)
    : Rng.M (list string) :=
  match solution_actions sc with
  | None | Some [] => mret []
  | Some correct =>
      let st0 : pool := ([], {[join ", " correct]}) in
      let no_pickup :=
        filter (fun a => ¬ Is_true (String.prefix "pick_up_" a)) correct in
      let st1 := try_add sc st0 no_pickup in
      let no_unlock :=
        filter (fun a => ¬ Is_true (String.prefix "unlock_" a)) correct in
      let st2 := try_add sc st1 no_unlock in
      let st3 :=
        if bool_decide (keys sc ≠ ∅)
        then try_add sc st2 (swap_color <$> correct)
        else st2 in
      st4 ← mutations MAX_ATTEMPTS sc num_distractors correct st3;
      st5 ← random_walks MAX_ATTEMPTS sc num_distractors correct st4;
      mret (take num_distractors st5.1)
  end.

(** *** Assembly of one evaluation document *)

Record EvalDoc := mkEvalDoc {
  doc_id : nat;
  query : string;
  choices : list string;
  gold : nat
}.

(** [", ".join(scenario.solution_actions)] *)
Definition correct_str (sc : KeyLockScenario) : string :=
  join ", " (default [] (solution_actions sc)).

Section Assembly.

(** [render_prompt]: the text shown to the model; it plays no part in the
    replay, the ledger or the choice list. *)
Variable render_prompt : KeyLockScenario -> string.

(** [hashlib.sha256(fp_data.encode()).hexdigest()], applied to the rendering
    of the start, the end and the sorted obstacles, keys and doors. *)
Variable fingerprint : Coord * Coord * gset Coord * gmap Coord string
                       * gmap Coord string -> string.

Definition scenario_to_eval_doc (sc : KeyLockScenario) (doc_id : nat)
    : Rng.M (option EvalDoc) :=
  distractors ← generate_distractors sc 3;
  if bool_decide (length distractors < 3)%nat then mret None
  else
    let choices := take 3 distractors ++ [correct_str sc] in
    let gold_idx := 3%nat in
    order ← Rng.shuffle (seq 0 4);
    let shuffled_choices := (fun i => nth i choices "") <$> order in
    let shuffled_gold :=
      from_option fst 0%nat (list_find (fun i => i = gold_idx) order) in
    mret (Some (mkEvalDoc doc_id (render_prompt sc) shuffled_choices
                  shuffled_gold)).

(** *** Main driver *)

(** The variables of the generation loop of [main]. *)
Record run := mkRun {
  docs : list EvalDoc;
  fingerprints : gset string;
  attempts : Z
}.

(** One pass through the body of the [while] loop. *)
Definition main_body (st : run) : Rng.M run :=
  let attempts' := attempts st + 1 in
  scenario ← generate_scenario;
  match scenario with
  | None => mret (mkRun (docs st) (fingerprints st) attempts')
  | Some sc =>
      let fp := fingerprint (start sc, end_ sc, obstacles sc, keys sc, doors sc) in
      if decide (fp ∈ fingerprints st)
      then mret (mkRun (docs st) (fingerprints st) attempts')
      else
        let fingerprints' := {[fp]} ∪ fingerprints st in
        doc ← scenario_to_eval_doc sc (length (docs st));
        match doc with
        | None => mret (mkRun (docs st) fingerprints' attempts')
        | Some doc => mret (mkRun (docs st ++ [doc]) fingerprints' attempts')
        end
  end.

(** [while len(docs) < num_samples]; the result is [None] when [fuel] passes
    do not reach the exit. *)
Fixpoint main_loop (fuel : nat) (num_samples : Z) (st : run)
    : Rng.M (option run) :=
  if bool_decide (Z.of_nat (length (docs st)) < num_samples) then
    match fuel with
    | O => mret None
    | S fuel' => st' ← main_body st; main_loop fuel' num_samples st'
    end
  else mret (Some st).

(** The generation part of [main].  The loop has no bound of its own: [fuel]
    is the number of passes that are observed. *)
Definition main (fuel : nat) (num_samples : Z) : Rng.M (option run) :=
  main_loop fuel num_samples (mkRun [] ∅ 0).

End Assembly.

End KeyLock.

(** ** Container pouring ([generate_container_eval.py]) *)
Module Container.

Definition NUM_SAMPLES : Z := 1000.

Record Container := mkContainer {
  name : string;
  capacity : Z;
  current : Z
}.

Record Scenario := mkScenario {
  containers : gmap string Container;
  actions : list string;
  final_state : gmap string Z
}.

(** [c.current = v] on the object stored under [k]. *)
Definition set_current (k : string) (v : Z) (containers : gmap string Container)
    : gmap string Container :=
  alter (fun c => mkContainer (name c) (capacity c) v) k containers.

(** [simulate_step] mutates [containers] in place; the embedding returns the
    store after the call, or [None] where Python raises ([IndexError] for a
    missing word, [KeyError] for an unknown container).  The two containers of
    a pour are read again after the first write, because [src_c] and [dst_c]
    may be the same object. *)
Definition simulate_step (containers : gmap string Container) (action : string)
    : option (gmap string Container) :=
  let parts := String.words action in
  p0 ← parts !! 0%nat;
  if decide (p0 = "Pour") then
    p2 ← parts !! 2%nat;
    if decide (p2 = "into") then
      src ← parts !! 1%nat;
      dst ← parts !! 3%nat;
      src_c ← containers !! src;
      dst_c ← containers !! dst;
      let amount_to_pour := Z.min (current src_c) (capacity dst_c - current dst_c) in
      let containers1 := set_current src (current src_c - amount_to_pour) containers in
      dst_c1 ← containers1 !! dst;
      Some (set_current dst (current dst_c1 + amount_to_pour) containers1)
    else Some containers
  else if decide (p0 = "Fill") then
    tgt ← parts !! 1%nat;
    c ← containers !! tgt;
    Some (set_current tgt (capacity c) containers)
  else if decide (p0 = "Empty") then
    tgt ← parts !! 1%nat;
    _ ← containers !! tgt;
    Some (set_current tgt 0 containers)
  else Some containers.

(** [for name in names]: capacity in 2..10, start level in 0..capacity. *)
Fixpoint fill_containers (names : list string) (containers : gmap string Container)
    : Rng.M (gmap string Container) :=
  match names with
  | [] => mret containers
  | name :: names' =>
      cap ← Rng.randint 2 10;
      start ← Rng.randint 0 cap;
      fill_containers names' (<[name := mkContainer name cap start]> containers)
  end.

(** [for _ in range(num_actions)]: draw an action, record it and apply it.
    The drawn actions name existing containers, so the step never raises. *)
Fixpoint draw_actions (n : nat) (names : list string) (num_containers : nat)
    (containers : gmap string Container) (actions : list string)
    : Rng.M (gmap string Container * list string) :=
  match n with
  | O => mret (containers, actions)
  | S n' =>
      action_type ← Rng.choice "" ["Pour"; "Fill"; "Empty"];
      action ←
        (if bool_decide (action_type = "Pour") && bool_decide (2 ≤ num_containers)%nat
         then
           pair ← Rng.sample names 2;
           mret ("Pour " +:+ nth 0 pair "" +:+ " into " +:+ nth 1 pair "")
         else
           tgt ← Rng.choice "" names;
           mret (action_type +:+ " " +:+ tgt));
      draw_actions n' names num_containers
        (default containers (simulate_step containers action))
        (actions ++ [action])
  end.

Definition generate_scenario : Rng.M Scenario :=
  num_containers ← Rng.choice 2%nat [2%nat; 3%nat];
  let names := take num_containers ["A"; "B"; "C"] in
  containers ← fill_containers names ∅;
  let initial_containers := containers in
  num_actions ← Rng.randint 3 5;
  '(containers', actions) ←
     draw_actions (Z.to_nat num_actions) names num_containers containers [];
  mret (mkScenario initial_containers actions (current <$> containers')).

(** The keys of a dictionary.  Every dictionary of this generator is filled
    in the order A, B, C, which is also the sorted order of its keys. *)
Definition dict_keys {V} (m : gmap string V) : list string :=
  sorted_strings (fst <$> map_to_list m).

(** [dict_to_str]: ["k=vL"] for the keys in sorted order. *)
Definition dict_to_str (state : gmap string Z) : string :=
  join ", " ((fun k => k +:+ "=" +:+ pretty (default 0 (state !! k)) +:+ "L")
               <$> dict_keys state).

(** Strategy 1, one action: pour everything, overflow allowed. *)
Definition naive_step (sc : Scenario) (state1 : gmap string Z) (action : string)
    : gmap string Z :=
  let parts := String.words action in
  let part i := nth i parts "" in
  if decide (part 0%nat = "Pour") then
    let src := part 1%nat in
    let dst := part 3%nat in
    let amount := default 0 (state1 !! src) in
    let state1' := <[src := default 0 (state1 !! src) - amount]> state1 in
    <[dst := default 0 (state1' !! dst) + amount]> state1'
  else if decide (part 0%nat = "Fill") then
    <[part 1%nat := from_option capacity 0 (containers sc !! part 1%nat)]> state1
  else if decide (part 0%nat = "Empty") then
    <[part 1%nat := 0]> state1
  else state1.

(** The variables [distractors] and [used] of [generate_distractors]. *)
Abbreviation pool := (list (gmap string Z) * gset string)%type.

(** [if s not in used: distractors.append(state); used.add(s)] *)
Definition add_if_new (st : pool) (state : gmap string Z) : pool :=
  let s := dict_to_str state in
  if decide (s ∈ st.2) then st else (st.1 ++ [state], {[s]} ∪ st.2).

(** [{k: rng.randint(0, capacity[k]) for k in names}] *)
Fixpoint random_state (sc : Scenario) (names : list string)
    : Rng.M (gmap string Z) :=
  match names with
  | [] => mret ∅
  | k :: names' =>
      v ← Rng.randint 0 (from_option capacity 0 (containers sc !! k));
      m ← random_state sc names';
      mret (<[k := v]> m)
  end.

(** Strategy 3: [for _ in range(n)] random levels up to the capacities. *)
Fixpoint random_states (n : nat) (sc : Scenario) (names : list string)
    (st : pool) : Rng.M pool :=
  match n with
  | O => mret st
  | S n' =>
      if bool_decide (3 ≤ length st.1)%nat then mret st
      else
        state3 ← random_state sc names;
        random_states n' sc names (add_if_new st state3)
  end.

Definition generate_distractors (sc : Scenario) : Rng.M (list (gmap string Z)) :=
  let names := dict_keys (containers sc) in
  let correct_str := dict_to_str (final_state sc) in
  let st0 : pool := ([], {[correct_str]}) in
  let state1 := fold_left (naive_step sc) (actions sc) (current <$> containers sc) in
  let st1 := add_if_new st0 state1 in
  shuffled_vals ←
    Rng.shuffle ((fun k => default 0 (final_state sc !! k))
                   <$> dict_keys (final_state sc));
  let state2 : gmap string Z := list_to_map (zip names shuffled_vals) in
  let st2 := add_if_new st1 state2 in
  st3 ← random_states 20 sc names st2;
  mret (take 3 st3.1).

Definition render_prompt (sc : Scenario) : string :=
  let part (k : string) :=
    "Container " +:+ k +:+ " (capacity "
    +:+ pretty (from_option capacity 0 (containers sc !! k))
    +:+ "L, currently "
    +:+ pretty (from_option current 0 (containers sc !! k)) +:+ "L)" in
  let init_desc := join ", " (part <$> dict_keys (containers sc)) +:+ "." in
  let step (i : nat) (a : string) :=
    "Step " +:+ pretty (S i) +:+ ": " +:+ a +:+ "." in
  let steps_str := join newline (imap step (actions sc)) in
  init_desc +:+ newline +:+ newline +:+ steps_str +:+ newline +:+ newline
  +:+ "What is the final state of all containers? "
  +:+ "Give your answer as a comma-separated list of volumes.".

Record Sample := mkSample {
  query : string;
  choices : list string;
  gold : nat
}.

(** [l.index(x)] *)
Definition index (x : string) (l : list string) : nat :=
  from_option fst 0%nat (list_find (fun y => y = x) l).

(** One pass through the body of the [while] loop of [main]: the sample that
    is written, if any, together with the scenario it was built from. *)
Definition main_body : Rng.M (option (Scenario * Sample)) :=
  scenario ← generate_scenario;
  distractors ← generate_distractors scenario;
  if bool_decide (length distractors < 3)%nat then mret None
  else
    let prompt := render_prompt scenario in
    let choices_dicts := final_state scenario :: distractors in
    let choices_strs := dict_to_str <$> choices_dicts in
    choices_shuffled ← Rng.shuffle choices_strs;
    let gold_idx := index (nth 0 choices_strs "") choices_shuffled in
    mret (Some (scenario, mkSample prompt choices_shuffled gold_idx)).

(** [while valid_count < NUM_SAMPLES]; the written records are listed in
    order, [valid_count] is their number.  The result is [None] when [fuel]
    passes do not reach the exit. *)
Fixpoint main_loop (fuel : nat) (num_samples : Z)
    (written : list (Scenario * Sample)) : Rng.M (option (list (Scenario * Sample))) :=
  if bool_decide (Z.of_nat (length written) < num_samples) then
    match fuel with
    | O => mret None
    | S fuel' =>
        r ← main_body;
        match r with
        | None => main_loop fuel' num_samples written
        | Some w => main_loop fuel' num_samples (written ++ [w])
        end
    end
  else mret (Some written).

(** The generation part of [main].  The loop has no bound of its own: [fuel]
    is the number of passes that are observed. *)
Definition main (fuel : nat) : Rng.M (option (list (Scenario * Sample))) :=
  main_loop fuel NUM_SAMPLES [].

End Container.

(** * Vocabulary of the properties *)

(** A cell on which an agent may stand: inside the grid and not an obstacle. *)
Definition legal_cell (grid_size : Z) (obstacles : gset Coord) (p : Coord) : Prop :=
  in_bounds grid_size p = true ∧ p ∉ obstacles.

(** ** Paths on the grid *)
Module Paths.

(** [q] is one move away from [p]. *)
Definition adjacent (p q : Coord) : Prop := q ∈ (move p <$> DIRECTIONS).

#[global] Instance adjacent_dec p q : Decision (adjacent p q).
Proof. unfold adjacent. apply _. Defined.

#[global] Instance legal_cell_dec grid_size obstacles p :
  Decision (legal_cell grid_size obstacles p).
Proof. unfold legal_cell. apply _. Defined.

(** Consecutive cells are one move apart. *)
Fixpoint chain (path : list Coord) : bool :=
  match path with
  | p :: (q :: _) as path' => bool_decide (adjacent p q) && chain path'
  | _ => true
  end.

(** A path from [start] to [end_] that stays in bounds and avoids every
    obstacle. *)
Definition valid_path (grid_size : Z) (obstacles : gset Coord)
    (start end_ : Coord) (path : list Coord) : bool :=
  bool_decide (head path = Some start)
  && bool_decide (last path = Some end_)
  && forallb (fun p => bool_decide (legal_cell grid_size obstacles p)) path
  && chain path.

End Paths.

(** ** Action tokens and choices *)

(** The tokens that change the state of the agent: pick-ups and moves. *)
Definition is_transition (a : string) : bool :=
  String.prefix "pick_up_" a || bool_decide (is_Some (DIR_VECTORS a)).

(** The number of pick-ups and moves of an action sequence. *)
Definition transitions (actions : list string) : nat :=
  length (filter (fun a => Is_true (is_transition a)) actions).

(** The number of positions of a list that hold [x]. *)
Definition occurrences (x : string) (l : list string) : nat :=
  length (filter (fun y => y = x) l).

(** The level and the capacity of container [k], as [containers[k].current]
    and [containers[k].capacity]. *)
Definition level_of (containers : gmap string Container.Container) (k : string)
    : option Z :=
  Container.current <$> containers !! k.

Definition capacity_of (containers : gmap string Container.Container)
    (k : string) : option Z :=
  Container.capacity <$> containers !! k.

(** ** Example instances *)
Module Examples.

(** The navigation example of the specification: a 5×5 grid, start A1,
    goal E5, one obstacle at C3. *)
Definition nav_obstacles : gset Coord := {[ (2, 2) ]}.

Definition nav_path : list Coord :=
  [(0, 0); (1, 0); (2, 0); (3, 0); (4, 0); (4, 1); (4, 2); (4, 3); (4, 4)].

Definition nav_scenario : Spatial.GridScenario :=
  Spatial.mkGridScenario 5 (0, 0) (4, 4) nav_obstacles (Some nav_path)
    (Spatial.path_to_directions nav_path).

(** A key-lock layout: start A1, goal E2, the red and the blue key at B1 and
    C1, the red and the blue door at D1 and E1, obstacles at D2 and A5. *)
Definition kl_obstacles : gset Coord := {[ (3, 1); (0, 4) ]}.
Definition kl_keys : gmap Coord string := {[ (1, 0) := "red"; (2, 0) := "blue" ]}.
Definition kl_doors : gmap Coord string := {[ (3, 0) := "red"; (4, 0) := "blue" ]}.

(** The solution that the search returns on this layout. *)
Definition kl_path : list Coord :=
  [(0, 0); (1, 0); (1, 0); (2, 0); (2, 0); (3, 0); (4, 0); (4, 1)].
Definition kl_actions : list string :=
  ["down"; "pick_up_red"; "down"; "pick_up_blue"; "unlock_red"; "down";
   "unlock_blue"; "down"; "right"].

(** A way round the doors, with no key. *)
Definition kl_detour : list string :=
  ["right"; "down"; "down"; "right"; "down"; "down"; "left"].

Definition kl_scenario : KeyLock.KeyLockScenario :=
  KeyLock.mkKeyLockScenario 5 (0, 0) (4, 1) kl_obstacles kl_keys kl_doors
    (Some kl_actions) (Some kl_path).

(** Raw draws with which the shuffle of the sampler puts the start, the goal,
    the keys, the doors and the obstacles of this layout on the first eight
    cells, and with which two key-door pairs are placed. *)
Definition kl_draws : Rng.t :=
  draws_of (fun i => nth i [24; 23; 22; 19; 18; 17; 14; 13; 12; 11; 9; 8; 7;
                            6; 3; 2; 1; 4; 4; 2; 3; 3; 2; 1; 1]%nat 0%nat).

(** A layout with one door on the straight line from the start A1 to the
    goal A4: the red key at A2, the red door at A3, obstacles at E5 and E4. *)
Definition line_obstacles : gset Coord := {[ (4, 4); (4, 3) ]}.
Definition line_keys : gmap Coord string := {[ (0, 1) := "red" ]}.
Definition line_doors : gmap Coord string := {[ (0, 2) := "red" ]}.

(** The solution path found on it, and a longer way round the door. *)
Definition line_path : list Coord := [(0, 0); (0, 1); (0, 1); (0, 2); (0, 3)].
Definition line_detour : list Coord :=
  [(0, 0); (1, 0); (1, 1); (1, 2); (1, 3); (0, 3)].

(** A generator with a short cycle of raw draws. *)
Definition some_draws : Rng.t := cyclic_draws [1; 2; 3; 0; 2; 1; 3]%nat.

(** The container example of the specification: A (capacity 10, level 0) and
    B (capacity 5, level 5). *)
Definition example_containers : gmap string Container.Container :=
  {[ "A" := Container.mkContainer "A" 10 0;
     "B" := Container.mkContainer "B" 5 5 ]}.

(** A generator whose raw draws are all zero. *)
Definition zero_draws : Rng.t := cyclic_draws [0%nat].

(** The generator whose raw draws are 0, 1, ..., 23, repeated. *)
Definition counting_draws : Rng.t := cyclic_draws (seq 0 24).

(** The scenario that the container generator draws with [counting_draws]. *)
Definition counting_scenario : Container.Scenario :=
  Container.mkScenario
    {[ "A" := Container.mkContainer "A" 3 2;
       "B" := Container.mkContainer "B" 5 4 ]}
    ["Pour A into B"; "Empty B"; "Fill B"; "Pour A into B"; "Empty B"]
    {[ "A" := 1; "B" := 0 ]}.

End Examples.


(** ** Vocabulary of the further properties *)

(** The cells visited when the directions are followed from [pos] with no
    regard to walls or bounds; [None] when a token is not a direction. *)
Fixpoint follow (pos : Coord) (dirs : list string) : option (list Coord) :=
  match dirs with
  | [] => Some [pos]
  | d :: dirs' =>
      vec ← DIR_VECTORS d;
      cells ← follow (move pos vec) dirs';
      Some (pos :: cells)
  end.

(** The tokens that the key-lock replay acts on: pick-ups, unlocks and the
    four directions. *)
Definition known_action (a : string) : bool :=
  String.prefix "pick_up_" a || String.prefix "unlock_" a
  || bool_decide (is_Some (DIR_VECTORS a)).

(** The tokens that name a key: pick-ups and unlocks. *)
Definition key_action (a : string) : bool :=
  String.prefix "pick_up_" a || String.prefix "unlock_" a.

(** The number of violation flags that a key-lock replay has set. *)
Definition violations (r : KeyLock.KeyLockSimResult) : nat :=
  (Nat.b2n (KeyLock.hit_wall r) + Nat.b2n (KeyLock.out_of_bounds r)
   + Nat.b2n (KeyLock.locked_door_blocked r) + Nat.b2n (KeyLock.invalid_pickup r)
   + Nat.b2n (KeyLock.invalid_unlock r))%nat.

(** Every level lies between zero and the capacity of its container. *)
Definition within_capacity (containers : gmap string Container.Container) : Prop :=
  map_Forall (fun _ c => 0 ≤ Container.current c ≤ Container.capacity c)
    containers.

(** The forward simulation of an action list: one [simulate_step] after the
    other, [None] as soon as a step raises. *)
Fixpoint replay_actions (actions : list string)
    (containers : gmap string Container.Container)
    : option (gmap string Container.Container) :=
  match actions with
  | [] => Some containers
  | action :: actions' =>
      containers' ← Container.simulate_step containers action;
      replay_actions actions' containers'
  end.

(** Raw draws with which the navigation sampler puts the start at A1 and
    obstacles at A2 and B1, so that no path leaves the start; the cycle has
    the length of one shuffle, so every attempt draws the same layout. *)
Definition blocked_draws : Rng.t :=
  cyclic_draws [24; 23; 22; 21; 20; 19; 18; 17; 16; 15; 14; 13; 12; 11; 10; 9;
                8; 7; 6; 3; 4; 3; 1; 1]%nat.

(** A token of a rendered answer: a non-empty string without a comma.  The
    rendering [", ".join(tokens)] of a list of tokens determines the list. *)
Fixpoint comma_free (s : string) : bool :=
  match s with
  | EmptyString => true
  | String a s' => negb (Ascii.eqb a (Ascii.ascii_of_nat 44)) && comma_free s'
  end.

Definition token (t : string) : Prop := t ≠ "" ∧ comma_free t = true.

(** The stored answer of a navigation scenario is a list of tokens. *)
Definition spatial_tokens (sc : Spatial.GridScenario) : Prop :=
  ∀ correct, Spatial.path_directions sc = Some correct -> Forall token correct.

(** The stored answer of a key-lock scenario is a list of tokens, and no
    colour of a key or of a door holds a comma. *)
Definition keylock_tokens (sc : KeyLock.KeyLockScenario) : Prop :=
  (∀ correct, KeyLock.solution_actions sc = Some correct -> Forall token correct)
  ∧ (∀ p color, KeyLock.keys sc !! p = Some color -> comma_free color = true)
  ∧ (∀ p color, KeyLock.doors sc !! p = Some color -> comma_free color = true).

(** The rules of the key-lock puzzle, apart from the replay: [performs
    actions s s'] when the actions, carried out one after the other from the
    state [s], are all permitted and lead to the state [s'].  A key is picked
    up where it lies and only once; a door is unlocked, and entered, with its
    key in the inventory; a move leads to a cell of the grid that is no
    obstacle; any other token has no effect. *)
Inductive performs (obstacles : gset Coord) (keys doors : gmap Coord string)
    (grid_size : Z) : list string -> KeyLock.State -> KeyLock.State -> Prop :=
  | performs_nil s : performs obstacles keys doors grid_size [] s s
  | performs_pick_up color actions pos inv s' :
      keys !! pos = Some color -> color ∉ inv ->
      performs obstacles keys doors grid_size actions (pos, inv ∪ {[color]}) s' ->
      performs obstacles keys doors grid_size
        (("pick_up_" +:+ color) :: actions) (pos, inv) s'
  | performs_unlock color actions pos inv s' :
      color ∈ inv ->
      performs obstacles keys doors grid_size actions (pos, inv) s' ->
      performs obstacles keys doors grid_size
        (("unlock_" +:+ color) :: actions) (pos, inv) s'
  | performs_move a d actions pos inv s' :
      DIR_VECTORS a = Some d ->
      legal_cell grid_size obstacles (move pos d) ->
      (∀ color, doors !! move pos d = Some color -> color ∈ inv) ->
      performs obstacles keys doors grid_size actions (move pos d, inv) s' ->
      performs obstacles keys doors grid_size (a :: actions) (pos, inv) s'
  | performs_skip a actions s s' :
      known_action a = false ->
      performs obstacles keys doors grid_size actions s s' ->
      performs obstacles keys doors grid_size (a :: actions) s s'.

(** * Properties *)

(** ** The random source *)

(** Unfolds the binds of the random-source monad. *)
Ltac rng_unfold :=
  unfold mbind, mret, Rng.M_bind, Rng.M_ret in *.

Module RngFacts.

Lemma bind_run {A B} (m : Rng.M A) (f : A -> Rng.M B) r :
  (m ≫= f) r = f (m r).1 (m r).2.
Proof. rng_unfold. by destruct (m r). Qed.

Lemma ret_run {A} (a : A) r : (mret a : Rng.M A) r = (a, r).
Proof. done. Qed.

Lemma swap_perm {A} (l : list A) i j : Rng.swap l i j ≡ₚ l.
Proof.
  unfold Rng.swap.
  destruct (l !! i) as [a|] eqn:Hi; [|done].
  destruct (l !! j) as [b|] eqn:Hj; [|done].
  by apply Permutation_insert_swap.
Qed.

Lemma shuffle_from_perm {A} i (l : list A) r :
  (Rng.shuffle_from i l r).1 ≡ₚ l.
Proof.
  revert l r. induction i as [|i IH]; intros l r; [done|].
  cbn [Rng.shuffle_from]. rewrite bind_run, IH. apply swap_perm.
Qed.

Lemma shuffle_perm {A} (l : list A) r : (Rng.shuffle l r).1 ≡ₚ l.
Proof. apply shuffle_from_perm. Qed.

End RngFacts.
(** ** Container simulation *)

Module ContainerFacts.
Import Container.

Lemma level_set_current_eq containers k v :
  is_Some (containers !! k) -> level_of (set_current k v containers) k = Some v.
Proof.
  intros [c Hc]. unfold level_of, set_current. rewrite lookup_alter_eq, Hc. done.
Qed.

Lemma lookup_set_current_eq containers k v c :
  containers !! k = Some c ->
  set_current k v containers !! k = Some (mkContainer (name c) (capacity c) v).
Proof. intros Hc. unfold set_current. by rewrite lookup_alter_eq, Hc. Qed.

Lemma lookup_set_current_ne containers k k' v :
  k ≠ k' -> set_current k v containers !! k' = containers !! k'.
Proof. intros ?. unfold set_current. by rewrite lookup_alter_ne. Qed.

Lemma cap_set_current containers k k' v :
  capacity_of (set_current k v containers) k' = capacity_of containers k'.
Proof.
  unfold capacity_of, set_current. destruct (decide (k = k')) as [->|?].
  - rewrite lookup_alter_eq. by destruct (containers !! k').
  - by rewrite lookup_alter_ne.
Qed.

Lemma simulate_step_pour containers action src dst rest src_c dst_c :
  String.words action = "Pour" :: src :: "into" :: dst :: rest ->
  containers !! src = Some src_c ->
  containers !! dst = Some dst_c ->
  let amount := Z.min (current src_c) (capacity dst_c - current dst_c) in
  ∃ containers',
    simulate_step containers action = Some containers'
    ∧ (src ≠ dst ->
       level_of containers' src = Some (current src_c - amount)
       ∧ level_of containers' dst = Some (current dst_c + amount))
    ∧ (src = dst -> level_of containers' src = Some (current src_c))
    ∧ (∀ k, k ≠ src -> k ≠ dst -> containers' !! k = containers !! k)
    ∧ (∀ k, capacity_of containers' k = capacity_of containers k).
Proof.
  intros Hw Hs Hd amount. unfold simulate_step. rewrite Hw. simpl.
  rewrite Hs. simpl. rewrite Hd. simpl.
  fold amount.
  destruct (decide (src = dst)) as [->|Hne].
  - assert (src_c = dst_c) as -> by congruence.
    rewrite (lookup_set_current_eq _ _ _ _ Hd). simpl.
    eexists. split; [done|]. split; [done|]. split.
    + intros _. rewrite level_set_current_eq.
      * f_equal. lia.
      * rewrite (lookup_set_current_eq _ _ _ _ Hd). by eexists.
    + split.
      * intros k ? ?. by rewrite !lookup_set_current_ne.
      * intros k. by rewrite !cap_set_current.
  - rewrite lookup_set_current_ne, Hd by done. simpl.
    eexists. split; [done|]. split; [|split; [done|split]].
    + intros _. split.
      * unfold level_of. rewrite lookup_set_current_ne by done.
        apply level_set_current_eq. by eexists.
      * apply level_set_current_eq. rewrite lookup_set_current_ne by done.
        by eexists.
    + intros k ? ?. by rewrite !lookup_set_current_ne.
    + intros k. by rewrite !cap_set_current.
Qed.

Lemma simulate_step_fill containers action tgt rest c :
  String.words action = "Fill" :: tgt :: rest ->
  containers !! tgt = Some c ->
  ∃ containers',
    simulate_step containers action = Some containers'
    ∧ level_of containers' tgt = Some (capacity c)
    ∧ (∀ k, k ≠ tgt -> containers' !! k = containers !! k)
    ∧ (∀ k, capacity_of containers' k = capacity_of containers k).
Proof.
  intros Hw Hc. unfold simulate_step. rewrite Hw. simpl. rewrite Hc. simpl.
  eexists. split; [done|]. split; [|split].
  - apply level_set_current_eq. by eexists.
  - intros k ?. by rewrite lookup_set_current_ne.
  - intros k. by rewrite cap_set_current.
Qed.

Lemma simulate_step_empty containers action tgt rest c :
  String.words action = "Empty" :: tgt :: rest ->
  containers !! tgt = Some c ->
  ∃ containers',
    simulate_step containers action = Some containers'
    ∧ level_of containers' tgt = Some 0
    ∧ (∀ k, k ≠ tgt -> containers' !! k = containers !! k)
    ∧ (∀ k, capacity_of containers' k = capacity_of containers k).
Proof.
  intros Hw Hc. unfold simulate_step. rewrite Hw. simpl. rewrite Hc. simpl.
  eexists. split; [done|]. split; [|split].
  - apply level_set_current_eq. by eexists.
  - intros k ?. by rewrite lookup_set_current_ne.
  - intros k. by rewrite cap_set_current.
Qed.

Lemma example_pour :
  (fun m => (level_of m "A", level_of m "B"))
    <$> simulate_step Examples.example_containers "Pour B into A"
  = Some (Some 5, Some 0).
Proof. vm_compute. reflexivity. Qed.

End ContainerFacts.
(** ** Replay of candidate answers *)

Module ReplayFacts.

(** *** Grid navigation *)
Section Spatial.
Import Spatial.
Variables (obstacles : gset Coord) (grid_size : Z).

(** The replay ran through all its directions without a [break]. *)
Definition completes (directions : list string) (pos pos' : Coord) : Prop :=
  simulate_loop obstacles grid_size directions pos = (pos', false, false).

Lemma simulate_loop_legal directions pos :
  legal_cell grid_size obstacles pos ->
  legal_cell grid_size obstacles
    (simulate_loop obstacles grid_size directions pos).1.1.
Proof.
  revert pos. induction directions as [|d directions IH]; intros pos Hpos; simpl.
  - done.
  - destruct (DIR_VECTORS d) as [vec|]; [|done].
    destruct (in_bounds grid_size (move pos vec)) eqn:Hin; simpl; [|done].
    destruct (decide (move pos vec ∈ obstacles)); [done|].
    apply IH. by split.
Qed.

Lemma simulate_loop_app pre rest pos pos' :
  completes pre pos pos' ->
  simulate_loop obstacles grid_size (pre ++ rest) pos
  = simulate_loop obstacles grid_size rest pos'.
Proof.
  unfold completes. revert pos.
  induction pre as [|d pre IH]; intros pos; simpl.
  - by intros [= ->].
  - destruct (DIR_VECTORS d) as [vec|]; [|done].
    destruct (in_bounds grid_size (move pos vec)); simpl; [|done].
    destruct (decide (move pos vec ∈ obstacles)); [done|].
    apply IH.
Qed.

(** What the first offending direction does to the replay. *)
Lemma simulate_loop_stops pre d post pos pos' :
  completes pre pos pos' ->
  simulate_loop obstacles grid_size (pre ++ d :: post) pos
  = match DIR_VECTORS d with
    | None => (pos', false, true)
    | Some vec =>
        if negb (in_bounds grid_size (move pos' vec)) then (pos', false, true)
        else if decide (move pos' vec ∈ obstacles) then (pos', true, false)
        else simulate_loop obstacles grid_size post (move pos' vec)
    end.
Proof. intros H. by rewrite (simulate_loop_app _ _ _ _ H). Qed.

Lemma simulate_path_final start end_ directions :
  final_position (simulate_path start end_ obstacles directions grid_size)
  = (simulate_loop obstacles grid_size directions start).1.1.
Proof.
  unfold simulate_path.
  by destruct (simulate_loop obstacles grid_size directions start) as [[? ?] ?].
Qed.

Lemma simulate_path_flags start end_ directions :
  hit_wall (simulate_path start end_ obstacles directions grid_size)
  = (simulate_loop obstacles grid_size directions start).1.2
  ∧ out_of_bounds (simulate_path start end_ obstacles directions grid_size)
  = (simulate_loop obstacles grid_size directions start).2.
Proof.
  unfold simulate_path.
  by destruct (simulate_loop obstacles grid_size directions start) as [[? ?] ?].
Qed.

End Spatial.

(** *** Key-lock *)
Section KeyLock.
Import KeyLock.
Variables (obstacles : gset Coord) (keys doors : gmap Coord string)
          (grid_size : Z).

(** A legal cell for an agent holding [inv]: a legal cell that is not a door
    whose colour is missing from [inv]. *)
Definition legal_state (pos : Coord) (inv : gset string) : Prop :=
  legal_cell grid_size obstacles pos
  ∧ ∀ color, doors !! pos = Some color -> color ∈ inv.

(** No flag of the result is set. *)
Definition clean (r : KeyLockSimResult) : Prop :=
  hit_wall r = false ∧ out_of_bounds r = false
  ∧ locked_door_blocked r = false ∧ invalid_pickup r = false
  ∧ invalid_unlock r = false.

Definition kl_completes (actions : list string) (pos : Coord) (inv : gset string)
    (pos' : Coord) (inv' : gset string) : Prop :=
  let r := simulate_loop obstacles keys doors grid_size actions pos inv in
  clean r ∧ final_position r = pos' ∧ inventory r = inv'.

Lemma legal_state_more pos inv color :
  legal_state pos inv -> legal_state pos (inv ∪ {[color]}).
Proof. intros [? H]. split; [done|]. intros c Hc. set_solver. Qed.

Lemma kl_simulate_loop_legal actions pos inv :
  legal_state pos inv ->
  let r := simulate_loop obstacles keys doors grid_size actions pos inv in
  legal_state (final_position r) (inventory r).
Proof.
  revert pos inv.
  induction actions as [|a actions IH]; intros pos inv Hpos; simpl; [done|].
  destruct (String.prefix "pick_up_" a).
  { destruct (_ && _); [|done]. apply IH. by apply legal_state_more. }
  destruct (String.prefix "unlock_" a).
  { destruct (decide _); [|done]. by apply IH. }
  destruct (DIR_VECTORS a) as [d|]; [|by apply IH].
  destruct (in_bounds grid_size (move pos d)) eqn:Hin; simpl; [|done].
  destruct (decide (move pos d ∈ obstacles)); [done|].
  destruct (doors !! move pos d) as [door_color|] eqn:Hdoor.
  - destruct (decide (door_color ∈ inv)); [|done].
    apply IH. split; [by split|]. intros c Hc. congruence.
  - apply IH. split; [by split|]. intros c Hc. congruence.
Qed.

Lemma kl_simulate_loop_app pre rest pos inv pos' inv' :
  kl_completes pre pos inv pos' inv' ->
  simulate_loop obstacles keys doors grid_size (pre ++ rest) pos inv
  = simulate_loop obstacles keys doors grid_size rest pos' inv'.
Proof.
  unfold kl_completes, clean. revert pos inv.
  induction pre as [|a pre IH]; intros pos inv; simpl.
  - by intros (_ & -> & ->).
  - destruct (String.prefix "pick_up_" a).
    { destruct (_ && _); [apply IH|]. by intros [(?&?&?&?&?) _]. }
    destruct (String.prefix "unlock_" a).
    { destruct (decide _); [apply IH|]. by intros [(?&?&?&?&?) _]. }
    destruct (DIR_VECTORS a) as [d|]; [|apply IH].
    destruct (in_bounds grid_size (move pos d)); simpl; [|by intros [(?&?&?&?&?) _]].
    destruct (decide (move pos d ∈ obstacles)); [by intros [(?&?&?&?&?) _]|].
    destruct (doors !! move pos d) as [door_color|].
    + destruct (decide (door_color ∈ inv)); [apply IH|]. by intros [(?&?&?&?&?) _].
    + apply IH.
Qed.

(** What a move does to the replay once the actions before it have been
    replayed without a [break]. *)
Lemma kl_simulate_loop_move pre a d post pos inv pos' inv' :
  kl_completes pre pos inv pos' inv' ->
  DIR_VECTORS a = Some d ->
  simulate_loop obstacles keys doors grid_size (pre ++ a :: post) pos inv
  = if negb (in_bounds grid_size (move pos' d))
    then mkKeyLockSimResult false false true false false false pos' inv'
    else if decide (move pos' d ∈ obstacles)
    then mkKeyLockSimResult false true false false false false pos' inv'
    else match doors !! move pos' d with
         | Some door_color =>
             if decide (door_color ∈ inv')
             then simulate_loop obstacles keys doors grid_size post
                    (move pos' d) inv'
             else mkKeyLockSimResult false false false true false false pos' inv'
         | None =>
             simulate_loop obstacles keys doors grid_size post (move pos' d) inv'
         end.
Proof.
  intros H Hd. rewrite (kl_simulate_loop_app _ _ _ _ _ _ H). simpl.
  assert (String.prefix "pick_up_" a = false) as ->.
  { unfold DIR_VECTORS in Hd. repeat case_decide; simplify_eq; done. }
  assert (String.prefix "unlock_" a = false) as ->.
  { unfold DIR_VECTORS in Hd. repeat case_decide; simplify_eq; done. }
  rewrite Hd. done.
Qed.

End KeyLock.
End ReplayFacts.
(** ** Lists of choices *)

Module ListFacts.

Lemma occurrences_perm x l1 l2 : l1 ≡ₚ l2 -> occurrences x l1 = occurrences x l2.
Proof. intros H. unfold occurrences. by rewrite H. Qed.

Lemma occurrences_absent x l :
  Forall (fun y => y ≠ x) l -> occurrences x l = 0%nat.
Proof.
  unfold occurrences. induction 1 as [|y l Hy _ IH]; [done|].
  rewrite filter_cons_False by done. done.
Qed.

Lemma imap_pair_fst_from {A} (l : list A) n :
  (imap (fun i c => ((n + i)%nat, c)) l).*1 = seq n (length l).
Proof.
  revert n. induction l as [|a l IH]; intros n; [done|].
  simpl. rewrite Nat.add_0_r. f_equal. rewrite <-IH. f_equal.
  apply imap_ext. intros i x _. simpl. f_equal. lia.
Qed.

Lemma imap_pair_fst {A} (l : list A) :
  (imap (fun i c => (i, c)) l).*1 = seq 0 (length l).
Proof. apply (imap_pair_fst_from l 0). Qed.

Lemma imap_pair_snd {A} (l : list A) :
  (imap (fun i c => (i, c)) l).*2 = l.
Proof.
  rewrite fmap_imap. induction l as [|a l IH]; [done|].
  simpl. f_equal. rewrite <-IH at 2. by apply imap_ext.
Qed.

Lemma occurrences_app x l1 l2 :
  occurrences x (l1 ++ l2) = (occurrences x l1 + occurrences x l2)%nat.
Proof. unfold occurrences. by rewrite filter_app, length_app. Qed.

Lemma occurrences_here x : occurrences x [x] = 1%nat.
Proof. unfold occurrences. by rewrite filter_cons_True. Qed.

Lemma numbered_lookup {A} (l : list A) (ps : list (nat * A)) i j c :
  ps ≡ₚ imap (fun i c => (i, c)) l ->
  ps !! i = Some (j, c) -> l !! j = Some c.
Proof.
  intros Hp Hi.
  assert ((j, c) ∈ imap (fun i c => (i, c)) l) as Hin.
  { rewrite <-Hp. by eapply list_elem_of_lookup_2. }
  apply elem_of_lookup_imap in Hin as (k & y & [= -> ->] & Hk). done.
Qed.

Lemma numbered_index_unique {A} (l : list A) (ps : list (nat * A)) i i' j c c' :
  ps ≡ₚ imap (fun i c => (i, c)) l ->
  ps !! i = Some (j, c) -> ps !! i' = Some (j, c') -> i = i'.
Proof.
  intros Hp Hi Hi'.
  assert (NoDup ps.*1) as Hnd.
  { rewrite Hp, imap_pair_fst. apply NoDup_seq. }
  eapply NoDup_lookup; [exact Hnd| |].
  - rewrite list_lookup_fmap, Hi. done.
  - rewrite list_lookup_fmap, Hi'. done.
Qed.

Lemma gold_position {A} (l : list A) (ps : list (nat * A)) x :
  ps ≡ₚ imap (fun i c => (i, c)) (x :: l) ->
  ∃ g, list_find (fun p => p.1 = 0%nat) ps = Some (g, (0%nat, x))
       ∧ ps !! g = Some (0%nat, x).
Proof.
  intros Hp.
  assert ((0%nat, x) ∈ ps) as Hin.
  { rewrite Hp. simpl. left. }
  destruct (list_find_elem_of (fun p => p.1 = 0%nat) ps _ Hin eq_refl)
    as [[g [j c]] Hg].
  pose proof Hg as Hg'.
  apply list_find_Some in Hg' as (Hlk & Hj & _). simpl in Hj. subst j.
  pose proof (numbered_lookup _ _ _ _ _ Hp Hlk) as Hc. simpl in Hc.
  injection Hc as ->. eauto.
Qed.

(** Visiting a new element of a finite space leaves one element fewer. *)
Lemma size_visit `{Countable A} (space visited : gset A) v :
  v ∈ space -> v ∉ visited ->
  size (space ∖ visited) = S (size (space ∖ ({[v]} ∪ visited))).
Proof.
  intros Hs Hv.
  assert (space ∖ visited = {[v]} ∪ space ∖ ({[v]} ∪ visited)) as ->.
  { apply set_eq. intros x. rewrite elem_of_union, !elem_of_difference,
      elem_of_union, elem_of_singleton.
    destruct (decide (x = v)) as [->|]; tauto. }
  rewrite size_union, size_singleton; [done|].
  apply disjoint_singleton_l. rewrite elem_of_difference, elem_of_union,
    elem_of_singleton. tauto.
Qed.

End ListFacts.

(** ** Assembly of grid-navigation documents *)

Module SpatialAssembly.
Import Spatial RngFacts ListFacts.

Section Filter.
Variable sc : GridScenario.

(** A choice string that is the rendering of a direction sequence which the
    validator rejects on the instance of [sc]. *)
Definition rejected (s : string) : Prop :=
  ∃ dirs, s = join ", " dirs
          ∧ is_path_physically_invalid (start sc) (end_ sc) (obstacles sc)
              dirs GRID_SIZE = true.

(** The invariant of [distractors] and [used]. *)
Definition pool_ok (correct : string) (st : pool) : Prop :=
  correct ∈ st.2 ∧ Forall (fun s => s ≠ correct ∧ rejected s) st.1.

Lemma spatial_try_add_ok correct st dirs :
  pool_ok correct st -> pool_ok correct (try_add sc st dirs).
Proof.
  intros [Hused Hall]. unfold try_add.
  destruct (decide (join ", " dirs ∈ st.2)) as [|Hnew]; [done|].
  destruct (is_path_physically_invalid _ _ _ dirs _) eqn:Hinv; simpl; [|done].
  split; simpl; [set_solver|].
  apply Forall_app. split; [done|]. apply Forall_singleton. split.
  - intros Heq. apply Hnew. by rewrite Heq.
  - by exists dirs.
Qed.

(** A candidate that replays as a valid alternate path leaves the pool
    unchanged. *)
Lemma spatial_try_add_discards st dirs :
  is_path_physically_invalid (start sc) (end_ sc) (obstacles sc) dirs GRID_SIZE
  = false ->
  try_add sc st dirs = st.
Proof.
  intros H. unfold try_add. rewrite H. simpl. by destruct (decide _).
Qed.

Lemma spatial_random_walks_ok n k correct_dirs correct st r :
  pool_ok correct st ->
  pool_ok correct (random_walks n sc k correct_dirs st r).1.
Proof.
  revert st r. induction n as [|n IH]; intros st r Hst; [done|].
  cbn [random_walks]. case_bool_decide; [done|].
  rewrite bind_run. apply IH. by apply spatial_try_add_ok.
Qed.

Lemma spatial_mutations_ok n k correct_dirs correct st r :
  pool_ok correct st ->
  pool_ok correct (mutations n sc k correct_dirs st r).1.
Proof.
  revert st r. induction n as [|n IH]; intros st r Hst; [done|].
  cbn [mutations]. case_bool_decide; [done|].
  rewrite !bind_run. apply IH. by apply spatial_try_add_ok.
Qed.

Lemma spatial_distractors_ok k r :
  Forall (fun s => s ≠ correct_answer sc ∧ rejected s)
    (generate_distractors sc k r).1.
Proof.
  unfold generate_distractors, correct_answer.
  destruct (path_directions sc) as [[|d correct]|]; [done| |done].
  set (dirs := d :: correct). simpl default.
  set (st0 := ([], {[join ", " dirs]}) : pool).
  assert (pool_ok (join ", " dirs) st0) as H0.
  { split; simpl; [set_solver|done]. }
  rewrite bind_run.
  set (st2 := (random_walks 50 sc k dirs (try_add sc st0 (naive_dirs sc)) r)).
  assert (pool_ok (join ", " dirs) st2.1) as H2.
  { apply spatial_random_walks_ok. by apply spatial_try_add_ok. }
  set (st3 := if bool_decide (length st2.1.1 < k)%nat
              then try_add sc st2.1 (opposite <$> reverse dirs) else st2.1).
  assert (pool_ok (join ", " dirs) st3) as H3.
  { unfold st3. case_bool_decide; [by apply spatial_try_add_ok|done]. }
  rewrite bind_run.
  match goal with |- Forall _ (mret (take k ?x.1.1) _).1 =>
    assert (pool_ok (join ", " dirs) x.1) as H4 end.
  { destruct (_ && _); [by apply spatial_mutations_ok|done]. }
  unfold mret, Rng.M_ret. cbn [fst]. apply Forall_take. apply H4.
Qed.

End Filter.

Section Docs.
Variable sha256_hex : string -> string.

(** What [scenario_to_eval_doc] builds: a shuffle of the numbered choices. *)
Lemma spatial_doc_shape sc id r :
  let doc := (scenario_to_eval_doc sha256_hex sc id r).1 in
  ∃ distractors answer_pairs,
    distractors = (generate_distractors sc 3 r).1
    ∧ answer_pairs ≡ₚ imap (fun i c => (i, c)) (correct_answer sc :: distractors)
    ∧ choices doc = answer_pairs.*2
    ∧ gold doc
      = from_option fst 0%nat (list_find (fun p => p.1 = 0%nat) answer_pairs).
Proof.
  unfold scenario_to_eval_doc. rewrite !bind_run. simpl.
  eexists _, _. split; [done|]. split; [apply shuffle_perm|]. done.
Qed.

Lemma spatial_doc_gold sc id r :
  let doc := (scenario_to_eval_doc sha256_hex sc id r).1 in
  choices doc !! gold doc = Some (correct_answer sc).
Proof.
  intros doc.
  destruct (spatial_doc_shape sc id r) as (ds & ps & _ & Hp & Hc & Hg).
  fold doc in Hc, Hg. rewrite Hc, Hg.
  destruct (gold_position _ _ _ Hp) as (g & -> & Hlk). simpl.
  rewrite list_lookup_fmap, Hlk. done.
Qed.

Lemma spatial_doc_once sc id r :
  let doc := (scenario_to_eval_doc sha256_hex sc id r).1 in
  occurrences (correct_answer sc) (choices doc) = 1%nat.
Proof.
  intros doc.
  destruct (spatial_doc_shape sc id r) as (ds & ps & Hds & Hp & Hc & _).
  fold doc in Hc. rewrite Hc.
  rewrite (occurrences_perm _ _ (correct_answer sc :: ds)).
  - unfold occurrences. rewrite filter_cons_True by done. simpl. f_equal.
    apply occurrences_absent. subst ds.
    eapply Forall_impl; [apply spatial_distractors_ok|]. by intros ? [? _].
  - by rewrite Hp, imap_pair_snd.
Qed.

Lemma spatial_doc_others sc id r i c :
  let doc := (scenario_to_eval_doc sha256_hex sc id r).1 in
  choices doc !! i = Some c -> i ≠ gold doc ->
  c ≠ correct_answer sc ∧ rejected sc c.
Proof.
  intros doc Hi Hne.
  destruct (spatial_doc_shape sc id r) as (ds & ps & Hds & Hp & Hc & Hg).
  fold doc in Hc, Hg. rewrite Hc in Hi. rewrite Hg in Hne.
  destruct (gold_position _ _ _ Hp) as (g & Hfind & Hlk).
  rewrite Hfind in Hne. simpl in Hne.
  rewrite list_lookup_fmap in Hi.
  destruct (ps !! i) as [[j c']|] eqn:Hpi; [|done]. simpl in Hi.
  injection Hi as ->.
  pose proof (numbered_lookup _ _ _ _ _ Hp Hpi) as Hj.
  destruct j as [|j].
  { exfalso. apply Hne. eapply numbered_index_unique; eauto. }
  simpl in Hj. apply list_elem_of_lookup_2 in Hj.
  subst ds. pose proof (spatial_distractors_ok sc 3 r) as Hall.
  rewrite Forall_forall in Hall. by apply Hall.
Qed.

End Docs.
End SpatialAssembly.
(** ** Assembly of key-lock documents *)

Module KeyLockAssembly.
Import KeyLock RngFacts ListFacts.

Section Filter.
Variable sc : KeyLockScenario.

(** A choice string that is the rendering of an action sequence which the
    validator rejects on the instance of [sc]. *)
Definition rejected (s : string) : Prop :=
  ∃ acts, s = join ", " acts
          ∧ is_action_seq_invalid (start sc) (end_ sc) (obstacles sc)
              (keys sc) (doors sc) acts GRID_SIZE = true.

(** The invariant of [distractors] and [used]. *)
Definition pool_ok (correct : string) (st : pool) : Prop :=
  correct ∈ st.2 ∧ Forall (fun s => s ≠ correct ∧ rejected s) st.1.

Lemma keylock_try_add_ok correct st acts :
  pool_ok correct st -> pool_ok correct (try_add sc st acts).
Proof.
  intros [Hused Hall]. unfold try_add.
  destruct (decide (join ", " acts ∈ st.2)) as [|Hnew]; [done|].
  destruct (is_action_seq_invalid _ _ _ _ _ acts _) eqn:Hinv; simpl; [|done].
  split; simpl; [set_solver|].
  apply Forall_app. split; [done|]. apply Forall_singleton. split.
  - intros Heq. apply Hnew. by rewrite Heq.
  - by exists acts.
Qed.

(** A candidate that replays as a valid alternate solution leaves the pool
    unchanged. *)
Lemma keylock_try_add_discards st acts :
  is_action_seq_invalid (start sc) (end_ sc) (obstacles sc) (keys sc)
    (doors sc) acts GRID_SIZE = false ->
  try_add sc st acts = st.
Proof.
  intros H. unfold try_add. rewrite H. simpl. by destruct (decide _).
Qed.

Lemma keylock_mutations_ok n k correct_acts correct st r :
  pool_ok correct st ->
  pool_ok correct (mutations n sc k correct_acts st r).1.
Proof.
  revert st r. induction n as [|n IH]; intros st r Hst; [done|].
  cbn [mutations]. case_bool_decide; [done|].
  destruct (move_indices correct_acts) as [|i0 indices]; [by apply IH|].
  rewrite !bind_run. apply IH. by apply keylock_try_add_ok.
Qed.

Lemma keylock_random_walks_ok n k correct_acts correct st r :
  pool_ok correct st ->
  pool_ok correct (random_walks n sc k correct_acts st r).1.
Proof.
  revert st r. induction n as [|n IH]; intros st r Hst; [done|].
  cbn [random_walks]. case_bool_decide; [done|].
  rewrite !bind_run. apply IH. by apply keylock_try_add_ok.
Qed.

Lemma keylock_distractors_ok k r :
  Forall (fun s => s ≠ correct_str sc ∧ rejected s)
    (generate_distractors sc k r).1.
Proof.
  unfold generate_distractors, correct_str.
  destruct (solution_actions sc) as [[|a correct]|]; [done| |done].
  set (acts := a :: correct). cbn [default].
  set (st0 := ([], {[join ", " acts]}) : pool).
  assert (pool_ok (join ", " acts) st0) as H0.
  { split; simpl; [set_solver|done]. }
  set (st1 := try_add sc st0 _).
  assert (pool_ok (join ", " acts) st1) as H1 by by apply keylock_try_add_ok.
  set (st2 := try_add sc st1 _).
  assert (pool_ok (join ", " acts) st2) as H2 by by apply keylock_try_add_ok.
  set (st3 := if bool_decide (keys sc ≠ ∅) then _ else st2).
  assert (pool_ok (join ", " acts) st3) as H3.
  { unfold st3. case_bool_decide; [by apply keylock_try_add_ok|done]. }
  rewrite !bind_run. unfold mret, Rng.M_ret. cbn [fst].
  apply Forall_take. apply keylock_random_walks_ok. by apply keylock_mutations_ok.
Qed.

End Filter.

Section Docs.
Variable render_prompt : KeyLockScenario -> string.

(** What [scenario_to_eval_doc] builds: three distractors and the solution,
    read through a shuffle of their positions. *)
Lemma keylock_doc_shape sc id r doc :
  (scenario_to_eval_doc render_prompt sc id r).1 = Some doc ->
  ∃ d1 d2 d3 order,
    take 3 (generate_distractors sc 3 r).1 = [d1; d2; d3]
    ∧ order ≡ₚ seq 0 4
    ∧ choices doc
      = (fun i => nth i [d1; d2; d3; correct_str sc] "") <$> order
    ∧ gold doc
      = from_option fst 0%nat (list_find (fun i => i = 3%nat) order).
Proof.
  unfold scenario_to_eval_doc. rewrite bind_run.
  set (ds := (generate_distractors sc 3 r).1).
  case_bool_decide as Hlen; [done|].
  rewrite bind_run. unfold mret, Rng.M_ret. cbn [fst].
  intros [= <-]. cbn [choices gold].
  destruct ds as [|d1 [|d2 [|d3 ds]]]; simpl in Hlen; try lia.
  exists d1, d2, d3. eexists. split; [done|]. split; [apply shuffle_perm|].
  done.
Qed.

(** The document is withheld exactly when fewer than three distractors were
    found. *)
Lemma keylock_doc_none sc id r :
  (scenario_to_eval_doc render_prompt sc id r).1 = None
  ↔ (length (generate_distractors sc 3 r).1 < 3)%nat.
Proof.
  unfold scenario_to_eval_doc. rewrite bind_run.
  case_bool_decide as Hlen; [done|].
  rewrite bind_run. unfold mret, Rng.M_ret. cbn [fst]. split; [done|lia].
Qed.

Lemma order_gold order :
  order ≡ₚ seq 0 4 ->
  ∃ g, list_find (fun i => i = 3%nat) order = Some (g, 3%nat)
       ∧ order !! g = Some 3%nat.
Proof.
  intros Hp.
  assert (3%nat ∈ order) as Hin.
  { rewrite Hp. apply elem_of_seq. lia. }
  destruct (list_find_elem_of (fun i => i = 3%nat) order _ Hin eq_refl)
    as [[g j] Hg].
  pose proof Hg as Hg'.
  apply list_find_Some in Hg' as (Hlk & -> & _). eauto.
Qed.

Lemma keylock_doc_gold sc id r doc :
  (scenario_to_eval_doc render_prompt sc id r).1 = Some doc ->
  choices doc !! gold doc = Some (correct_str sc).
Proof.
  intros Hdoc.
  destruct (keylock_doc_shape _ _ _ _ Hdoc)
    as (d1 & d2 & d3 & order & _ & Hp & -> & ->).
  destruct (order_gold _ Hp) as (g & -> & Hlk). simpl.
  rewrite list_lookup_fmap, Hlk. done.
Qed.

Lemma keylock_doc_distractors sc r d1 d2 d3 :
  take 3 (generate_distractors sc 3 r).1 = [d1; d2; d3] ->
  Forall (fun s => s ≠ correct_str sc ∧ rejected sc s) [d1; d2; d3].
Proof.
  intros <-. apply Forall_take, keylock_distractors_ok.
Qed.

Lemma keylock_doc_once sc id r doc :
  (scenario_to_eval_doc render_prompt sc id r).1 = Some doc ->
  occurrences (correct_str sc) (choices doc) = 1%nat.
Proof.
  intros Hdoc.
  destruct (keylock_doc_shape _ _ _ _ Hdoc)
    as (d1 & d2 & d3 & order & Hds & Hp & -> & _).
  rewrite (occurrences_perm _ _ [d1; d2; d3; correct_str sc]).
  - pose proof (keylock_doc_distractors _ _ _ _ _ Hds) as Hall.
    change [d1; d2; d3; correct_str sc] with ([d1; d2; d3] ++ [correct_str sc]).
    rewrite occurrences_app, occurrences_here, occurrences_absent; [done|].
    eapply Forall_impl; [exact Hall|]. by intros ? [? _].
  - by rewrite Hp.
Qed.

Lemma keylock_doc_others sc id r doc i c :
  (scenario_to_eval_doc render_prompt sc id r).1 = Some doc ->
  choices doc !! i = Some c -> i ≠ gold doc ->
  c ≠ correct_str sc ∧ rejected sc c.
Proof.
  intros Hdoc Hi Hne.
  destruct (keylock_doc_shape _ _ _ _ Hdoc)
    as (d1 & d2 & d3 & order & Hds & Hp & Hc & Hg).
  rewrite Hc in Hi. rewrite Hg in Hne.
  destruct (order_gold _ Hp) as (g & Hfind & Hlk).
  rewrite Hfind in Hne. simpl in Hne.
  rewrite list_lookup_fmap in Hi.
  destruct (order !! i) as [j|] eqn:Hj; [|done]. simpl in Hi.
  injection Hi as <-.
  assert (j ≠ 3%nat) as Hj3.
  { intros ->. apply Hne.
    eapply NoDup_lookup; [|exact Hj|exact Hlk]. rewrite Hp. apply NoDup_seq. }
  assert (j ∈ seq 0 4) as Hin.
  { rewrite <-Hp. by eapply list_elem_of_lookup_2. }
  pose proof (keylock_doc_distractors _ _ _ _ _ Hds) as Hall.
  rewrite Forall_forall in Hall. apply Hall.
  apply elem_of_seq in Hin.
  destruct j as [|[|[|j]]]; simpl; [rewrite !elem_of_cons; tauto..|lia].
Qed.

(** An assembled document has four choices. *)
Lemma keylock_doc_four_choices sc id r doc :
  (scenario_to_eval_doc render_prompt sc id r).1 = Some doc ->
  length (choices doc) = 4%nat.
Proof.
  intros Hdoc.
  destruct (keylock_doc_shape _ _ _ _ Hdoc)
    as (d1 & d2 & d3 & order & _ & Hp & -> & _).
  by rewrite length_fmap, Hp.
Qed.

End Docs.
End KeyLockAssembly.
(** ** Assembly of container samples *)

Module ContainerAssembly.
Import Container RngFacts ListFacts.

(** The invariant of [distractors] and [used]. *)
Definition pool_ok (correct : string) (st : pool) : Prop :=
  correct ∈ st.2 ∧ Forall (fun d => dict_to_str d ≠ correct) st.1.

Lemma add_if_new_ok correct st state :
  pool_ok correct st -> pool_ok correct (add_if_new st state).
Proof.
  intros [Hused Hall]. unfold add_if_new.
  destruct (decide (dict_to_str state ∈ st.2)) as [|Hnew]; [done|].
  split; simpl; [set_solver|].
  apply Forall_app. split; [done|]. apply Forall_singleton.
  intros Heq. apply Hnew. by rewrite Heq.
Qed.

Lemma random_states_ok n sc names correct st r :
  pool_ok correct st -> pool_ok correct (random_states n sc names st r).1.
Proof.
  revert st r. induction n as [|n IH]; intros st r Hst; [done|].
  cbn [random_states]. case_bool_decide; [done|].
  rewrite bind_run. apply IH. by apply add_if_new_ok.
Qed.

Lemma container_distractors_ok sc r :
  Forall (fun d => dict_to_str d ≠ dict_to_str (final_state sc))
    (generate_distractors sc r).1.
Proof.
  unfold generate_distractors. rewrite !bind_run.
  unfold mret, Rng.M_ret. cbn [fst].
  apply Forall_take. apply random_states_ok. do 2 apply add_if_new_ok.
  split; simpl; [set_solver|done].
Qed.

Lemma index_found x l :
  x ∈ l -> l !! index x l = Some x.
Proof.
  intros Hin. unfold index.
  destruct (list_find_elem_of (fun y => y = x) l _ Hin eq_refl) as [[g y] Hg].
  rewrite Hg. apply list_find_Some in Hg as (Hlk & -> & _). done.
Qed.

(** What [main] writes in one pass of its loop. *)
Lemma main_body_shape r sc sample :
  (main_body r).1 = Some (sc, sample) ->
  ∃ d1 d2 d3,
    let correct := dict_to_str (final_state sc) in
    Forall (fun s => s ≠ correct) [d1; d2; d3]
    ∧ choices sample ≡ₚ [correct; d1; d2; d3]
    ∧ gold sample = index correct (choices sample).
Proof.
  unfold main_body. rewrite !bind_run.
  set (scen := (generate_scenario r).1).
  set (r1 := (generate_scenario r).2).
  pose proof (container_distractors_ok scen r1) as Hall.
  set (ds := (generate_distractors scen r1).1) in *.
  case_bool_decide as Hlen; [done|].
  rewrite bind_run. unfold mret, Rng.M_ret. cbn [fst].
  intros Heq. apply (inj Some) in Heq.
  apply pair_equal_spec in Heq as [Hsc Hsample].
  rewrite <-Hsc, <-Hsample. cbn [choices gold]. clear Hsc Hsample sc sample.
  assert (length ds ≤ 3)%nat as Hle.
  { unfold ds, generate_distractors. rewrite !bind_run.
    unfold mret, Rng.M_ret. cbn [fst]. rewrite length_take. lia. }
  destruct ds as [|d1 [|d2 [|d3 [|d4 ds]]]]; simpl in Hlen, Hle; try lia.
  exists (dict_to_str d1), (dict_to_str d2), (dict_to_str d3).
  split; [|split].
  - change (Forall (fun s => s ≠ dict_to_str (final_state scen))
              (dict_to_str <$> [d1; d2; d3])).
    by apply Forall_fmap.
  - apply shuffle_perm.
  - done.
Qed.

Lemma sample_gold_is_correct r sc sample :
  (main_body r).1 = Some (sc, sample) ->
  choices sample !! gold sample = Some (dict_to_str (final_state sc)).
Proof.
  intros H. destruct (main_body_shape _ _ _ H) as (d1 & d2 & d3 & _ & Hp & ->).
  apply index_found. rewrite Hp. left.
Qed.

Lemma sample_correct_once r sc sample :
  (main_body r).1 = Some (sc, sample) ->
  occurrences (dict_to_str (final_state sc)) (choices sample) = 1%nat.
Proof.
  intros H. destruct (main_body_shape _ _ _ H) as (d1 & d2 & d3 & Hall & Hp & _).
  rewrite (occurrences_perm _ _ _ Hp).
  change (?c :: ?l) with ([c] ++ l).
  rewrite occurrences_app, occurrences_here, occurrences_absent; done.
Qed.

(** A written sample has the answer and three distractors. *)
Lemma sample_four_choices r sc sample :
  (main_body r).1 = Some (sc, sample) -> length (choices sample) = 4%nat.
Proof.
  intros H. destruct (main_body_shape _ _ _ H) as (d1 & d2 & d3 & _ & Hp & _).
  by rewrite Hp.
Qed.

End ContainerAssembly.
(** ** The generation loops *)

Module SpatialRun.
Import Spatial RngFacts.

Section Run.
Variable sha256_hex : string -> string.

Definition fingerprint_of (doc : EvalDoc) : string := md_fingerprint (metadata doc).

(** The ledger covers the fingerprints of the samples, which are pairwise
    different. *)
Definition ledger_ok (st : run) : Prop :=
  NoDup (fingerprint_of <$> samples st)
  ∧ ∀ doc, doc ∈ samples st -> fingerprint_of doc ∈ seen_fingerprints st.

Lemma main_body_attempts st r :
  attempts (main_body sha256_hex st r).1 = attempts st + 1.
Proof.
  unfold main_body. rewrite bind_run.
  destruct ((generate_scenario r).1) as [sc|]; [|done].
  rewrite bind_run. by destruct (decide _).
Qed.

Lemma main_body_samples st r :
  let st' := (main_body sha256_hex st r).1 in
  samples st' = samples st
  ∨ ∃ doc, samples st' = samples st ++ [doc]
           ∧ (fingerprint_of doc ∉ seen_fingerprints st)
           ∧ seen_fingerprints st' = {[fingerprint_of doc]} ∪ seen_fingerprints st.
Proof.
  unfold main_body. rewrite bind_run.
  destruct ((generate_scenario r).1) as [sc|]; [|by left].
  rewrite bind_run. destruct (decide _) as [|Hnew]; [by left|].
  right. eexists. split; [done|]. split; [exact Hnew|done].
Qed.

Lemma main_body_seen st r :
  seen_fingerprints st ⊆ seen_fingerprints (main_body sha256_hex st r).1.
Proof.
  unfold main_body. rewrite bind_run.
  destruct ((generate_scenario r).1) as [sc|]; [|done].
  rewrite bind_run. destruct (decide _); [done|]. simpl. set_solver.
Qed.

Lemma main_body_ledger st r :
  ledger_ok st -> ledger_ok (main_body sha256_hex st r).1.
Proof.
  intros [Hnd Hcov].
  pose proof (main_body_seen st r) as Hsub.
  destruct (main_body_samples st r) as [Heq|(doc & Heq & Hnew & Hseen)].
  - split; rewrite Heq; [done|]. intros doc Hdoc. apply Hsub. by apply Hcov.
  - split; rewrite Heq.
    + rewrite fmap_app. apply NoDup_app. split; [done|]. split.
      * intros fp Hfp Hfp'. apply list_elem_of_fmap in Hfp as (d & -> & Hd).
        simpl in Hfp'. apply list_elem_of_singleton in Hfp'.
        apply Hnew. rewrite <-Hfp'. by apply Hcov.
      * apply NoDup_singleton.
    + intros d Hd. apply elem_of_app in Hd as [Hd|Hd].
      * apply Hsub. by apply Hcov.
      * apply list_elem_of_singleton in Hd as ->. rewrite Hseen.
        apply elem_of_union_l. by apply elem_of_singleton.
Qed.

(** The loop leaves through its exit within [max_attempts - attempts] passes. *)
Lemma main_loop_exits fuel num_samples max_attempts st r :
  max_attempts - attempts st ≤ Z.of_nat fuel ->
  ledger_ok st ->
  (Z.of_nat (length (samples st)) ≤ Z.max 0 num_samples) ->
  ∃ st',
    (main_loop sha256_hex fuel num_samples max_attempts st r).1 = Some st'
    ∧ ledger_ok st'
    ∧ attempts st ≤ attempts st' ≤ Z.max (attempts st) max_attempts
    ∧ Z.of_nat (length (samples st')) ≤ Z.max 0 num_samples
    ∧ (Z.of_nat (length (samples st')) < num_samples ->
       max_attempts ≤ attempts st').
Proof.
  revert st r. induction fuel as [|fuel IH]; intros st r Hfuel Hled Hlen.
  - cbn [main_loop]. destruct (_ && _) eqn:Hcond.
    + apply andb_true_iff in Hcond as [_ H2]. apply bool_decide_eq_true in H2. lia.
    + exists st. split; [done|]. split; [done|]. split; [lia|]. split; [done|].
      intros H. apply andb_false_iff in Hcond as [Hc|Hc];
        apply bool_decide_eq_false in Hc; lia.
  - cbn [main_loop]. destruct (_ && _) eqn:Hcond.
    + apply andb_true_iff in Hcond as [H1 H2].
      apply bool_decide_eq_true in H1. apply bool_decide_eq_true in H2.
      rewrite bind_run.
      pose proof (main_body_attempts st r) as Hatt.
      pose proof (main_body_ledger st r Hled) as Hled'.
      assert (Z.of_nat (length (samples (main_body sha256_hex st r).1))
              ≤ Z.max 0 num_samples) as Hlen'.
      { destruct (main_body_samples st r) as [->|(doc & -> & _)]; [done|].
        rewrite length_app. simpl. lia. }
      destruct (IH (main_body sha256_hex st r).1 (main_body sha256_hex st r).2)
        as (st' & Hrun & ? & ? & ? & ?); [lia|done|done|].
      exists st'. split; [done|]. split; [done|]. split; [lia|]. done.
    + exists st. split; [done|]. split; [done|]. split; [lia|]. split; [done|].
      intros H. apply andb_false_iff in Hcond as [Hc|Hc];
        apply bool_decide_eq_false in Hc; lia.
Qed.

(** [main] always ends: it uses at most [20 * num_samples] attempts, and when
    it ends short of [num_samples] samples it has used them all. *)
Lemma main_ends num_samples r :
  ∃ st,
    (main sha256_hex num_samples r).1 = Some st
    ∧ NoDup (fingerprint_of <$> samples st)
    ∧ 0 ≤ attempts st ≤ Z.max 0 (num_samples * 20)
    ∧ Z.of_nat (length (samples st)) ≤ Z.max 0 num_samples
    ∧ (Z.of_nat (length (samples st)) < num_samples ->
       attempts st = num_samples * 20).
Proof.
  unfold main.
  destruct (main_loop_exits (Z.to_nat (num_samples * 20)) num_samples
              (num_samples * 20) (mkRun [] ∅ 0) r)
    as (st & Hrun & [Hnd _] & Hatt & Hlen & Hshort).
  - simpl. lia.
  - split; simpl; [apply NoDup_nil_2|]. intros doc Hdoc. by apply elem_of_nil in Hdoc.
  - simpl. lia.
  - simpl in Hatt. exists st. split; [done|]. split; [done|]. split; [lia|].
    split; [done|]. intros H. specialize (Hshort H). lia.
Qed.

End Run.
End SpatialRun.

Module KeyLockRun.
Import KeyLock RngFacts.

Lemma generate_scenario_zero_draws :
  generate_scenario Examples.zero_draws = (None, Examples.zero_draws).
Proof. vm_compute. reflexivity. Qed.

Section Run.
Variable render_prompt : KeyLockScenario -> string.
Variable fingerprint : Coord * Coord * gset Coord * gmap Coord string
                       * gmap Coord string -> string.

Lemma main_body_zero_draws st :
  main_body render_prompt fingerprint st Examples.zero_draws
  = (mkRun (docs st) (fingerprints st) (attempts st + 1), Examples.zero_draws).
Proof.
  unfold main_body. rewrite bind_run, generate_scenario_zero_draws. done.
Qed.

(** With these draws no number of passes brings the loop to its exit. *)
Lemma main_loop_zero_draws fuel num_samples st :
  Z.of_nat (length (docs st)) < num_samples ->
  (main_loop render_prompt fingerprint fuel num_samples st Examples.zero_draws).1 = None.
Proof.
  revert st. induction fuel as [|fuel IH]; intros st Hlen; cbn [main_loop].
  - by rewrite bool_decide_eq_true_2.
  - rewrite bool_decide_eq_true_2 by done.
    rewrite bind_run, main_body_zero_draws. by apply IH.
Qed.

(** A scenario whose fingerprint is in the ledger adds no document, and a
    pass of the loop adds at most one. *)
Lemma main_body_docs st r :
  let st' := (main_body render_prompt fingerprint st r).1 in
  docs st' = docs st
  ∨ ∃ sc doc r',
      (generate_scenario r).1 = Some sc
      ∧ (fingerprint (start sc, end_ sc, obstacles sc, keys sc, doors sc)
           ∉ fingerprints st)
      ∧ (scenario_to_eval_doc render_prompt sc (length (docs st)) r').1 = Some doc
      ∧ docs st' = docs st ++ [doc].
Proof.
  unfold main_body. rewrite bind_run.
  destruct ((generate_scenario r).1) as [sc|]; [|by left].
  destruct (decide _) as [|Hnew]; [by left|].
  rewrite bind_run.
  destruct ((scenario_to_eval_doc render_prompt sc _ _).1) as [doc|] eqn:Hdoc;
    [|by left].
  right. exists sc, doc. eexists. split; [done|]. split; [exact Hnew|].
  split; [exact Hdoc|done].
Qed.

End Run.
End KeyLockRun.

Module ContainerRun.
Import Container RngFacts.

Lemma main_body_counting_draws :
  ∃ sample,
    main_body Examples.counting_draws = (Some (Examples.counting_scenario, sample), Examples.counting_draws).
Proof. eexists. vm_compute. reflexivity. Qed.

(** When a pass writes a record and leaves the generator as it found it,
    every later pass writes the same record. *)
Lemma main_loop_repeats r w fuel num_samples written :
  main_body r = (Some w, r) ->
  (num_samples - Z.of_nat (length written) ≤ Z.of_nat fuel) ->
  (main_loop fuel num_samples written r).1
  = Some (written
          ++ replicate (Z.to_nat (num_samples - Z.of_nat (length written))) w).
Proof.
  intros Hbody. revert written.
  induction fuel as [|fuel IH]; intros written Hfuel; cbn [main_loop].
  - rewrite bool_decide_eq_false_2 by lia.
    replace (Z.to_nat _) with 0%nat by lia. by rewrite app_nil_r.
  - case_bool_decide as Hlen.
    + rewrite bind_run, Hbody. cbn [fst snd].
      rewrite IH by (rewrite length_app; simpl; lia).
      rewrite length_app. simpl. f_equal.
      replace (Z.to_nat (num_samples - Z.of_nat (length written)))
        with (S (Z.to_nat (num_samples - Z.of_nat (length written + 1)))) by lia.
      simpl. by rewrite <-app_assoc.
    + replace (Z.to_nat _) with 0%nat by lia. by rewrite app_nil_r.
Qed.

End ContainerRun.
(** ** Paths on the grid *)

Module GridFacts.
Import Paths.

Lemma adjacent_move p d : d ∈ DIRECTIONS -> adjacent p (move p d).
Proof. intros H. unfold adjacent. by apply list_elem_of_fmap_2. Qed.

Lemma adjacent_inv p q : adjacent p q -> ∃ d, d ∈ DIRECTIONS ∧ q = move p d.
Proof.
  unfold adjacent. intros H. apply list_elem_of_fmap in H as (d & -> & Hd). eauto.
Qed.

Lemma chain_snoc path p q :
  last path = Some p -> chain (path ++ [q]) = chain path && bool_decide (adjacent p q).
Proof.
  induction path as [|a [|b path] IH]; intros Hlast; [done| |].
  - injection Hlast as ->. simpl. by rewrite !andb_true_r.
  - change (chain ((a :: b :: path) ++ [q]))
      with (bool_decide (adjacent a b) && chain ((b :: path) ++ [q])).
    rewrite IH by done. simpl. by rewrite andb_assoc.
Qed.

Lemma in_bounds_all_coords grid_size p :
  in_bounds grid_size p = true -> p ∈ all_coords grid_size.
Proof.
  unfold in_bounds, all_coords. rewrite !andb_true_iff.
  intros [[[H1 H2] H3] H4].
  apply list_elem_of_bind. exists p.1. split; [|apply elem_of_seqZ; lia].
  apply list_elem_of_bind. exists p.2. split; [|apply elem_of_seqZ; lia].
  destruct p. simpl. by apply list_elem_of_singleton.
Qed.

End GridFacts.

(** ** The A* solver *)

Module AStarFacts.
Import Spatial Paths GridFacts.

Lemma heappop_None h : heappop h = None -> h = [].
Proof.
  destruct h as [|e h]; [done|]. simpl.
  destruct (heappop h) as [[m r]|]; [|done]. by destruct (entry_lt m e).
Qed.

(** [heappop] removes an entry of least [f_score]. *)
Lemma heappop_Some h e h' :
  heappop h = Some (e, h') ->
  h ≡ₚ e :: h' ∧ ∀ e', e' ∈ h -> e_f e ≤ e_f e'.
Proof.
  revert e h'. induction h as [|a h IH]; intros e h'; [done|]. simpl.
  destruct (heappop h) as [[m r]|] eqn:Hpop.
  - destruct (IH m r eq_refl) as [Hperm Hmin].
    destruct (entry_lt m a) eqn:Hlt; intros [= <- <-].
    + split.
      * rewrite Hperm. apply Permutation_swap.
      * intros e' He'. apply elem_of_cons in He' as [->|He']; [|by apply Hmin].
        unfold entry_lt in Hlt. lia.
    + split; [done|].
      intros e' He'. apply elem_of_cons in He' as [->|He']; [done|].
      specialize (Hmin e' He'). unfold entry_lt in Hlt. lia.
  - intros [= <- <-]. apply heappop_None in Hpop as ->. split; [done|].
    intros e' He'. apply list_elem_of_singleton in He' as ->. done.
Qed.

Section Search.
Variables (start end_ : Coord) (obstacles : gset Coord) (grid_size : Z).

Abbreviation legal := (legal_cell grid_size obstacles).

(** The paths that the search builds: they begin at [start] and each further
    cell is a legal cell one move away from the cell before it. *)
Inductive walk : list Coord -> Coord -> Prop :=
  | walk_start : walk [start] start
  | walk_step path p q :
      walk path p -> adjacent p q -> legal q -> walk (path ++ [q]) q.

Lemma walk_last path p : walk path p -> last path = Some p.
Proof. induction 1; [done|]. by rewrite last_snoc. Qed.

Lemma walk_head path p : walk path p -> head path = Some start.
Proof. induction 1 as [|path p q H IH]; [done|]. by destruct path. Qed.

Lemma walk_cells path p :
  walk path p -> legal start -> Forall legal path.
Proof.
  induction 1; intros Hs; [by apply Forall_singleton|].
  apply Forall_app. split; [auto|by apply Forall_singleton].
Qed.

Lemma walk_chain path p : walk path p -> chain path = true.
Proof.
  induction 1 as [|path p q H IH Hadj Hq]; [done|].
  rewrite (chain_snoc _ p) by by eapply walk_last.
  rewrite IH. simpl. by apply bool_decide_eq_true.
Qed.

Lemma walk_valid path p :
  walk path p -> legal start -> valid_path grid_size obstacles start p path = true.
Proof.
  intros H Hs. unfold valid_path.
  rewrite (walk_head _ _ H), (walk_last _ _ H), (walk_chain _ _ H).
  rewrite !bool_decide_eq_true_2 by done. simpl. rewrite andb_true_r.
  apply forallb_forall. intros x Hx. apply bool_decide_eq_true.
  pose proof (walk_cells _ _ H Hs) as Hall. rewrite Forall_forall in Hall.
  apply Hall. by apply list_elem_of_In.
Qed.

Lemma valid_walk path p :
  valid_path grid_size obstacles start p path = true -> walk path p.
Proof.
  unfold valid_path. rewrite !andb_true_iff.
  intros [[[Hh Hl] Hall] Hch].
  apply bool_decide_eq_true in Hh. apply bool_decide_eq_true in Hl.
  revert p Hh Hl Hall Hch.
  induction path as [|q path IH] using rev_ind; intros p Hh Hl Hall Hch; [done|].
  rewrite last_snoc in Hl. injection Hl as ->.
  destruct path as [|a path] using rev_ind.
  - simpl in Hh. injection Hh as ->. apply walk_start.
  - clear IHpath. rewrite (chain_snoc _ a) in Hch by by rewrite last_snoc.
    apply andb_true_iff in Hch as [Hch Hadj]. apply bool_decide_eq_true in Hadj.
    rewrite forallb_app in Hall. apply andb_true_iff in Hall as [Hall Hp].
    simpl in Hp. rewrite andb_true_r in Hp. apply bool_decide_eq_true in Hp.
    apply (walk_step _ a); [|done|done].
    apply IH; [|by rewrite last_snoc|done|done].
    destruct path; done.
Qed.

Lemma valid_start_legal path p :
  valid_path grid_size obstacles start p path = true -> legal start.
Proof.
  unfold valid_path. rewrite !andb_true_iff.
  intros [[[Hh _] Hall] _]. apply bool_decide_eq_true in Hh.
  destruct path as [|a path]; [done|]. injection Hh as ->.
  simpl in Hall. apply andb_true_iff in Hall as [Ha _].
  by apply bool_decide_eq_true in Ha.
Qed.

(** *** The loop invariant *)

(** The cost so far of an entry: the number of moves of its path. *)
Definition g_score (e : Entry) : Z := Z.of_nat (length (e_path e)) - 1.

Definition entry_ok (e : Entry) : Prop :=
  walk (e_path e) (e_node e)
  ∧ e_f e = g_score e + heuristic (e_node e) end_.

Record invariant (open_set : list Entry) (visited : gset Coord) : Prop := {
  inv_entries : Forall entry_ok open_set;
  inv_start :
    start ∈ visited
    ∨ ∃ e, e ∈ open_set ∧ e_node e = start ∧ g_score e ≤ 0;
  inv_visited :
    ∀ path u w, walk path u -> u ∈ visited -> adjacent u w -> legal w ->
      w ∈ visited
      ∨ ∃ e, e ∈ open_set ∧ e_node e = w ∧ g_score e ≤ Z.of_nat (length path);
  inv_goal : end_ ∉ visited;
  inv_space : visited ⊆ search_space start grid_size
}.

(** The Manhattan distance drops by at most one per move. *)
Lemma heuristic_consistent p q :
  adjacent p q -> heuristic p end_ ≤ 1 + heuristic q end_.
Proof.
  intros H. apply adjacent_inv in H as (d & Hd & ->).
  unfold DIRECTIONS in Hd. rewrite !elem_of_cons in Hd.
  destruct Hd as [->|[->|[->|[->|Hd]]]]; [..|by apply elem_of_nil in Hd];
    unfold heuristic, move; simpl; lia.
Qed.

(** Every walk either ends on a visited cell or is covered by an open entry
    whose [f_score] does not exceed the estimate through the walk. *)
Lemma astar_frontier open_set visited path u :
  invariant open_set visited -> walk path u ->
  u ∈ visited
  ∨ ∃ e, e ∈ open_set
         ∧ e_f e ≤ Z.of_nat (length path) - 1 + heuristic u end_.
Proof.
  intros Hinv. induction 1 as [|path p q Hw IH Hadj Hq].
  - destruct (inv_start _ _ Hinv) as [?|(e & He & Hn & Hg)]; [by left|].
    right. exists e. split; [done|].
    pose proof (inv_entries _ _ Hinv) as Hall. rewrite Forall_forall in Hall.
    destruct (Hall e He) as [_ ->]. rewrite Hn. simpl. lia.
  - pose proof (heuristic_consistent _ _ Hadj) as Hcons.
    rewrite length_app. simpl.
    destruct IH as [Hp|(e & He & Hf)].
    + destruct (inv_visited _ _ Hinv _ _ _ Hw Hp Hadj Hq)
        as [?|(e & He & Hn & Hg)]; [by left|].
      right. exists e. split; [done|].
      pose proof (inv_entries _ _ Hinv) as Hall. rewrite Forall_forall in Hall.
      destruct (Hall e He) as [_ ->]. rewrite Hn. lia.
    + right. exists e. split; [done|]. lia.
Qed.

(** *** The expansion of a cell *)

Lemma push_neighbor_fold ds open_set counter visited current path :
  let st := fold_left
              (push_neighbor end_ obstacles visited grid_size current path)
              ds (open_set, counter) in
  (∀ e, e ∈ open_set -> e ∈ st.1)
  ∧ (∀ e, e ∈ st.1 ->
       e ∈ open_set
       ∨ ∃ d, d ∈ ds ∧ legal (move current d) ∧ (move current d ∉ visited)
              ∧ e_node e = move current d
              ∧ e_path e = path ++ [move current d]
              ∧ e_f e = Z.of_nat (length path) + heuristic (move current d) end_)
  ∧ (∀ d, d ∈ ds -> legal (move current d) -> move current d ∉ visited ->
       ∃ e, e ∈ st.1 ∧ e_node e = move current d
            ∧ e_path e = path ++ [move current d])
  ∧ (length st.1 ≤ length open_set + length ds)%nat.
Proof.
  revert open_set counter.
  induction ds as [|d ds IH]; intros open_set counter; simpl.
  { split; [done|]. split; [by left|]. split; [|lia].
    intros d Hd. by apply elem_of_nil in Hd. }
  set (st1 := push_neighbor _ _ _ _ _ _ (open_set, counter) d).
  destruct (IH st1.1 st1.2) as (IH1 & IH2 & IH3 & IH4).
  rewrite <-surjective_pairing in IH1, IH2, IH3, IH4.
  unfold push_neighbor in st1. simpl in st1.
  destruct (in_bounds grid_size (move current d)
            && bool_decide (move current d ∉ obstacles)
            && bool_decide (move current d ∉ visited)) eqn:Hcond.
  - apply andb_true_iff in Hcond as [Hcond Hv].
    apply andb_true_iff in Hcond as [Hb Ho].
    apply bool_decide_eq_true in Hv. apply bool_decide_eq_true in Ho.
    subst st1. simpl in *. split; [|split; [|split]].
    + intros e He. apply IH1. by right.
    + intros e He. destruct (IH2 e He) as [He'|(d' & Hd' & ?)].
      * apply elem_of_cons in He' as [->|He']; [|by left].
        right. exists d. split; [left|]. done.
      * right. exists d'. split; [by right|done].
    + intros d' Hd' Hl Hnv. apply elem_of_cons in Hd' as [->|Hd'].
      * eexists. split; [apply IH1; left|]. done.
      * by apply IH3.
    + change (length (heappush ?h _)) with (S (length h)) in IH4. lia.
  - subst st1. simpl in *. split; [|split; [|split]].
    + done.
    + intros e He. destruct (IH2 e He) as [He'|(d' & Hd' & ?)]; [by left|].
      right. exists d'. split; [by right|done].
    + intros d' Hd' Hl Hnv. apply elem_of_cons in Hd' as [->|Hd'].
      * exfalso. destruct Hl as [Hb Ho].
        rewrite Hb, !bool_decide_eq_true_2 in Hcond by done. done.
      * by apply IH3.
    + lia.
Qed.

(** *** Preservation of the invariant *)

Lemma walk_in_space path u : walk path u -> u ∈ search_space start grid_size.
Proof.
  unfold search_space. destruct 1 as [|path p q _ _ [Hb _]].
  - apply elem_of_union_l. by apply elem_of_singleton.
  - apply elem_of_union_r, elem_of_list_to_set.
    by apply in_bounds_all_coords.
Qed.

Lemma astar_invariant_initial :
  invariant (heappush [] (mkEntry (heuristic start end_) 0 start [start])) ∅.
Proof.
  split.
  - apply Forall_singleton. split; [apply walk_start|]. unfold g_score. simpl. lia.
  - right. eexists. split; [by apply list_elem_of_singleton|]. done.
  - intros path u w _ Hu. by apply not_elem_of_empty in Hu.
  - apply not_elem_of_empty.
  - apply empty_subseteq.
Qed.

(** An entry for a cell that was visited in the meantime is dropped. *)
Lemma astar_invariant_skip open_set e open_set' visited :
  invariant open_set visited ->
  open_set ≡ₚ e :: open_set' ->
  e_node e ∈ visited ->
  invariant open_set' visited.
Proof.
  intros Hinv Hperm Hv.
  assert (∀ e', e' ∈ open_set -> e' = e ∨ e' ∈ open_set') as Hsplit.
  { intros e' He'. rewrite Hperm in He'. by apply elem_of_cons. }
  split.
  - pose proof (inv_entries _ _ Hinv) as Hall. rewrite Hperm in Hall.
    by apply Forall_cons in Hall as [_ ?].
  - destruct (inv_start _ _ Hinv) as [?|(e' & He' & Hn & Hg)]; [by left|].
    destruct (Hsplit e' He') as [->|?]; [left; by rewrite <-Hn|].
    right. by exists e'.
  - intros path u w Hw Hu Hadj Hl.
    destruct (inv_visited _ _ Hinv _ _ _ Hw Hu Hadj Hl)
      as [?|(e' & He' & Hn & Hg)]; [by left|].
    destruct (Hsplit e' He') as [->|?]; [left; by rewrite <-Hn|].
    right. by exists e'.
  - apply (inv_goal _ _ Hinv).
  - apply (inv_space _ _ Hinv).
Qed.

(** The least entry is expanded: its cell becomes visited and its legal,
    unvisited neighbours are pushed. *)
Lemma astar_invariant_expand open_set e open_set' counter visited :
  invariant open_set visited ->
  heappop open_set = Some (e, open_set') ->
  e_node e ∉ visited ->
  e_node e ≠ end_ ->
  let visited' := {[e_node e]} ∪ visited in
  let st := fold_left
              (push_neighbor end_ obstacles visited' grid_size (e_node e)
                 (e_path e))
              DIRECTIONS (open_set', counter) in
  invariant st.1 visited'.
Proof.
  intros Hinv Hpop Hnv Hne visited' st.
  destruct (heappop_Some _ _ _ Hpop) as [Hperm Hmin].
  destruct (push_neighbor_fold DIRECTIONS open_set' counter visited'
              (e_node e) (e_path e)) as (Hold & Hnew & Hpushed & _).
  fold st in Hold, Hnew, Hpushed.
  pose proof (inv_entries _ _ Hinv) as Hall. rewrite Forall_forall in Hall.
  assert (e ∈ open_set) as He by (rewrite Hperm; apply elem_of_cons; by left).
  destruct (Hall e He) as [Hwe Hfe].
  assert (∀ e', e' ∈ open_set -> e' = e ∨ e' ∈ st.1) as Hsplit.
  { intros e' He'. rewrite Hperm in He'.
    apply elem_of_cons in He' as [?|?]; [by left|right; by apply Hold]. }
  split.
  - apply Forall_forall. intros e' He'.
    destruct (Hnew e' He') as [Ho|(d & Hd & Hl & _ & Hn & Hp & Hf)].
    + apply Hall. rewrite Hperm. apply elem_of_cons. by right.
    + split.
      * rewrite Hn, Hp. apply (walk_step _ (e_node e)); [done| |done].
        by apply adjacent_move.
      * rewrite Hf, Hn. unfold g_score. rewrite Hp, length_app. simpl. lia.
  - destruct (inv_start _ _ Hinv) as [?|(e' & He' & Hn & Hg)].
    + left. by apply elem_of_union_r.
    + destruct (Hsplit e' He') as [->|?].
      * left. apply elem_of_union_l, elem_of_singleton. done.
      * right. by exists e'.
  - intros path u w Hw Hu Hadj Hl.
    apply elem_of_union in Hu as [Hu|Hu].
    + apply elem_of_singleton in Hu as ->.
      destruct (decide (w ∈ visited')) as [?|Hnw]; [by left|]. right.
      apply adjacent_inv in Hadj as (d & Hd & ->).
      destruct (Hpushed d Hd Hl Hnw) as (e' & He' & Hn & Hp).
      exists e'. split; [done|]. split; [done|].
      unfold g_score. rewrite Hp, length_app. simpl.
      destruct (astar_frontier _ _ _ _ Hinv Hw) as [?|(e0 & He0 & Hf0)]; [done|].
      specialize (Hmin e0 He0). unfold g_score in Hfe. lia.
    + destruct (inv_visited _ _ Hinv _ _ _ Hw Hu Hadj Hl)
        as [?|(e' & He' & Hn & Hg)].
      * left. by apply elem_of_union_r.
      * destruct (Hsplit e' He') as [->|?].
        -- left. apply elem_of_union_l, elem_of_singleton. done.
        -- right. by exists e'.
  - intros Hin. apply elem_of_union in Hin as [Hin|Hin].
    + apply elem_of_singleton in Hin. done.
    + by apply (inv_goal _ _ Hinv).
  - apply union_subseteq. split; [|apply (inv_space _ _ Hinv)].
    apply singleton_subseteq_l. by eapply walk_in_space.
Qed.

(** *** Termination and correctness of the loop *)

(** The loop body runs at most this many more times. *)
Definition remaining (open_set : list Entry) (visited : gset Coord) : nat :=
  (length open_set + 4 * size (search_space start grid_size ∖ visited))%nat.

Lemma a_star_loop_correct fuel open_set counter visited :
  invariant open_set visited ->
  (remaining open_set visited < fuel)%nat ->
  match a_star_loop fuel end_ obstacles grid_size open_set counter visited with
  | Found path =>
      walk path end_ ∧ ∀ path', walk path' end_ -> (length path ≤ length path')%nat
  | Exhausted => ∀ path', ¬ walk path' end_
  | OutOfFuel => False
  end.
Proof.
  revert open_set counter visited.
  induction fuel as [|fuel IH]; intros open_set counter visited Hinv Hfuel;
    [lia|].
  cbn [a_star_loop].
  destruct (heappop open_set) as [[e open_set']|] eqn:Hpop.
  - destruct (heappop_Some _ _ _ Hpop) as [Hperm Hmin].
    pose proof (inv_entries _ _ Hinv) as Hall. rewrite Forall_forall in Hall.
    assert (e ∈ open_set) as He by (rewrite Hperm; apply elem_of_cons; by left).
    destruct (Hall e He) as [Hwe Hfe].
    assert (length open_set = S (length open_set')) as Hlen by by rewrite Hperm.
    destruct (decide (e_node e = end_)) as [Hgoal|Hgoal].
    + rewrite Hgoal in Hwe. split; [done|].
      intros path' Hw'.
      destruct (astar_frontier _ _ _ _ Hinv Hw') as [Hv|(e0 & He0 & Hf0)].
      * by apply (inv_goal _ _ Hinv) in Hv.
      * specialize (Hmin e0 He0). unfold g_score in Hfe. rewrite Hgoal in Hfe.
        unfold heuristic in Hfe, Hf0. lia.
    + destruct (decide (e_node e ∈ visited)) as [Hv|Hv].
      * apply IH; [by eapply astar_invariant_skip|]. unfold remaining in *. lia.
      * apply IH; [by apply (astar_invariant_expand open_set)|].
        destruct (push_neighbor_fold DIRECTIONS open_set' counter
                    ({[e_node e]} ∪ visited) (e_node e) (e_path e))
          as (_ & _ & _ & Hsize).
        unfold remaining in *.
        rewrite (ListFacts.size_visit _ _ (e_node e)) in Hfuel;
          [|by eapply walk_in_space|done].
        change (length DIRECTIONS) with 4%nat in Hsize. cbn [fst snd] in *. lia.
  - apply heappop_None in Hpop as ->. intros path' Hw'.
    destruct (astar_frontier _ _ _ _ Hinv Hw') as [Hv|(e0 & He0 & _)].
    + by apply (inv_goal _ _ Hinv) in Hv.
    + by apply elem_of_nil in He0.
Qed.

(** [a_star] either returns a shortest walk to the goal, or returns [None]
    when no walk reaches the goal; it never runs out of fuel. *)
Lemma a_star_correct :
  match a_star start end_ obstacles grid_size with
  | Some path =>
      walk path end_ ∧ ∀ path', walk path' end_ -> (length path ≤ length path')%nat
  | None => ∀ path', ¬ walk path' end_
  end.
Proof.
  unfold a_star.
  pose proof (a_star_loop_correct (a_star_fuel start grid_size)
                (heappush [] (mkEntry (heuristic start end_) 0 start [start]))
                0 ∅ astar_invariant_initial) as H.
  assert (remaining
            (heappush [] (mkEntry (heuristic start end_) 0 start [start])) ∅
          < a_star_fuel start grid_size)%nat as Hfuel.
  { unfold remaining, a_star_fuel. rewrite difference_empty_L.
    change (length (heappush [] _)) with 1%nat. lia. }
  specialize (H Hfuel). by destruct (a_star_loop _ _ _ _ _ _ _).
Qed.

End Search.
End AStarFacts.
(** ** The key-lock solver *)

Module BfsFacts.
Import KeyLock Paths GridFacts.

(** *** Action tokens *)

Lemma substring_full s : String.substring 0 (String.length s) s = s.
Proof. induction s as [|a s IH]; [done|]. simpl. by rewrite IH. Qed.

Lemma strip_pick_up color : strip "pick_up_" ("pick_up_" +:+ color) = color.
Proof. unfold strip. simpl. rewrite Nat.sub_0_r. apply substring_full. Qed.

Lemma strip_unlock color : strip "unlock_" ("unlock_" +:+ color) = color.
Proof. unfold strip. simpl. rewrite Nat.sub_0_r. apply substring_full. Qed.

Lemma prefix_pick_up color : String.prefix "pick_up_" ("pick_up_" +:+ color) = true.
Proof. simpl. by destruct color. Qed.

Lemma prefix_unlock color :
  String.prefix "pick_up_" ("unlock_" +:+ color) = false
  ∧ String.prefix "unlock_" ("unlock_" +:+ color) = true.
Proof. split; [done|]. simpl. by destruct color. Qed.

(** A direction name is neither a pick-up nor an unlock token. *)
Lemma dir_vectors_token a d :
  DIR_VECTORS a = Some d ->
  d ∈ DIRECTIONS
  ∧ String.prefix "pick_up_" a = false ∧ String.prefix "unlock_" a = false.
Proof.
  unfold DIR_VECTORS, DIRECTIONS. intros H.
  repeat case_decide; simplify_eq; (split; [|done]);
    rewrite !elem_of_cons; tauto.
Qed.

Lemma dir_names_token d :
  d ∈ DIRECTIONS -> ∃ a, DIR_NAMES d = Some a ∧ DIR_VECTORS a = Some d.
Proof.
  unfold DIRECTIONS. rewrite !elem_of_cons.
  intros [->|[->|[->|[->|H]]]]; [..|by apply elem_of_nil in H];
    eexists; (split; [done|done]).
Qed.

Lemma transitions_app l1 l2 :
  transitions (l1 ++ l2) = (transitions l1 + transitions l2)%nat.
Proof. unfold transitions. by rewrite filter_app, length_app. Qed.

Lemma transitions_cons a l :
  transitions (a :: l)
  = ((if is_transition a then 1 else 0) + transitions l)%nat.
Proof.
  unfold transitions. rewrite filter_cons.
  destruct (is_transition a); by case_decide.
Qed.

Section Search.
Variables (start end_ : Coord) (obstacles : gset Coord)
          (keys doors : gmap Coord string) (grid_size : Z).

Abbreviation legal := (legal_cell grid_size obstacles).
Abbreviation completes :=
  (ReplayFacts.kl_completes obstacles keys doors grid_size).

(** *** The state graph *)

(** One transition of the agent: a pick-up of the key on its cell, or a move
    to a legal cell that is not a door whose key it lacks. *)
Inductive step : State -> State -> Prop :=
  | step_pickup pos inv color :
      keys !! pos = Some color -> color ∉ inv ->
      step (pos, inv) (pos, inv ∪ {[color]})
  | step_move pos inv d :
      d ∈ DIRECTIONS -> legal (move pos d) ->
      (∀ color, doors !! move pos d = Some color -> color ∈ inv) ->
      step (pos, inv) (move pos d, inv).

(** [reach n s]: state [s] is [n] transitions away from the initial state. *)
Inductive reach : nat -> State -> Prop :=
  | reach_init : reach 0 (start, ∅)
  | reach_step n s s' : reach n s -> step s s' -> reach (S n) s'.

(** A replay without a [break] is a chain of transitions, one for each
    pick-up and each move. *)
Lemma completes_reach actions k pos inv pos' inv' :
  reach k (pos, inv) ->
  completes actions pos inv pos' inv' ->
  reach (k + transitions actions) (pos', inv').
Proof.
  revert k pos inv.
  induction actions as [|a actions IH]; intros k pos inv Hk.
  { intros (_ & <- & <-). by rewrite Nat.add_0_r. }
  unfold ReplayFacts.kl_completes, ReplayFacts.clean. cbn [simulate_loop].
  rewrite transitions_cons. unfold is_transition.
  destruct (String.prefix "pick_up_" a) eqn:Hp.
  { destruct (bool_decide (keys !! pos = Some _) && _) eqn:Hc;
      [|by intros [(?&?&?&?&?) _]].
    apply andb_true_iff in Hc as [Hkey Hnew].
    apply bool_decide_eq_true in Hkey. apply bool_decide_eq_true in Hnew.
    intros H. simpl. replace (k + S _)%nat with (S k + transitions actions)%nat by lia.
    eapply IH; [|exact H]. eapply reach_step; [exact Hk|]. by constructor. }
  destruct (String.prefix "unlock_" a) eqn:Hu.
  { assert (DIR_VECTORS a = None) as ->.
    { destruct (DIR_VECTORS a) as [d|] eqn:Hd; [|done].
      apply dir_vectors_token in Hd as (_ & _ & Hd). congruence. }
    destruct (decide _); [|by intros [(?&?&?&?&?) _]].
    intros H. simpl. by eapply IH. }
  destruct (DIR_VECTORS a) as [d|] eqn:Hd; simpl; [|by apply IH].
  apply dir_vectors_token in Hd as (Hd & _).
  destruct (in_bounds grid_size (move pos d)) eqn:Hb; simpl;
    [|by intros [(?&?&?&?&?) _]].
  destruct (decide (move pos d ∈ obstacles)); [by intros [(?&?&?&?&?) _]|].
  replace (k + S _)%nat with (S k + transitions actions)%nat by lia.
  destruct (doors !! move pos d) as [door_color|] eqn:Hdoor.
  - destruct (decide (door_color ∈ inv)); [|by intros [(?&?&?&?&?) _]].
    intros H. eapply IH; [|exact H]. eapply reach_step; [exact Hk|].
    constructor; [done|by split|]. intros c Hc. congruence.
  - intros H. eapply IH; [|exact H]. eapply reach_step; [exact Hk|].
    constructor; [done|by split|]. intros c Hc. congruence.
Qed.

(** *** Queue items *)

Definition state_of (it : Item) : State := it.1.1.

(** The depth of an item: the number of transitions of its actions. *)
Definition depth (it : Item) : nat := transitions it.2.

(** The actions of an item replay without a [break] and end in its state;
    its path has one cell per transition, and the start. *)
Definition item_ok (it : Item) : Prop :=
  completes it.2 start ∅ (state_of it).1 (state_of it).2
  ∧ length it.1.2 = S (depth it).

(** [it'] is pushed while [it] is expanded. *)
Definition child (it it' : Item) : Prop :=
  step (state_of it) (state_of it')
  ∧ (item_ok it -> item_ok it')
  ∧ depth it' = S (depth it).

Lemma item_ok_reach it : item_ok it -> reach (depth it) (state_of it).
Proof.
  intros [H _]. destruct (state_of it) as [pos inv].
  by apply (completes_reach _ 0 _ _ _ _ reach_init).
Qed.

Lemma child_pickup pos inv path actions color :
  keys !! pos = Some color -> color ∉ inv ->
  child ((pos, inv), path, actions)
    ((pos, inv ∪ {[color]}), path ++ [pos], actions ++ ["pick_up_" +:+ color]).
Proof.
  intros Hk Hc. split; [by constructor|]. split.
  - intros [Hrun Hlen]. unfold item_ok, depth, state_of in *. cbn [fst snd] in *.
    split.
    + unfold ReplayFacts.kl_completes.
      rewrite (ReplayFacts.kl_simulate_loop_app _ _ _ _ _ _ _ _ _ _ Hrun).
      cbn [simulate_loop]. rewrite prefix_pick_up, strip_pick_up.
      rewrite !bool_decide_eq_true_2 by done. done.
    + rewrite length_app, transitions_app, Hlen. simpl.
      rewrite transitions_cons. unfold is_transition.
      rewrite prefix_pick_up. simpl. unfold transitions. simpl. lia.
  - unfold depth. simpl. rewrite transitions_app, transitions_cons.
    unfold is_transition. rewrite prefix_pick_up. unfold transitions. simpl. lia.
Qed.

Lemma unlock_not_transition color : is_transition ("unlock_" +:+ color) = false.
Proof.
  unfold is_transition. by destruct (prefix_unlock color) as [-> _].
Qed.

Lemma child_move pos inv path actions d a :
  d ∈ DIRECTIONS -> DIR_NAMES d = Some a -> legal (move pos d) ->
  child ((pos, inv), path, actions)
    ((move pos d, inv), path ++ [move pos d],
     actions ++ match doors !! move pos d with
                | Some door_color => ["unlock_" +:+ door_color; a]
                | None => [a]
                end)
  ∨ ∃ door_color, doors !! move pos d = Some door_color ∧ door_color ∉ inv.
Proof.
  intros Hd Ha [Hb Ho].
  destruct (dir_names_token d Hd) as (a' & Ha' & Hv).
  assert (a' = a) as -> by congruence.
  destruct (dir_vectors_token _ _ Hv) as (_ & Hp & Hu).
  assert (is_transition a = true) as Ht.
  { unfold is_transition. rewrite Hp, Hv. done. }
  destruct (doors !! move pos d) as [door_color|] eqn:Hdoor.
  - destruct (decide (door_color ∈ inv)) as [Hin|Hnin]; [left|right; by eauto].
    destruct (prefix_unlock door_color) as [Hp' Hu'].
    split; [|split].
    + constructor; [done|by split|]. intros c Hc. congruence.
    + intros [Hrun Hlen]. unfold item_ok, depth, state_of in *. cbn [fst snd] in *.
      split.
      * unfold ReplayFacts.kl_completes.
        rewrite (ReplayFacts.kl_simulate_loop_app _ _ _ _ _ _ _ _ _ _ Hrun).
        cbn [simulate_loop]. rewrite Hp', Hu', strip_unlock, Hp, Hu, Hv, Hb.
        simpl. rewrite !decide_True by done. rewrite decide_False by done.
        rewrite Hdoor. rewrite decide_True by done. done.
      * rewrite length_app, transitions_app, Hlen. simpl.
        rewrite !transitions_cons, unlock_not_transition, Ht.
        unfold transitions. simpl. lia.
    + unfold depth. simpl.
      rewrite transitions_app, !transitions_cons, unlock_not_transition, Ht.
      unfold transitions. simpl. lia.
  - left. split; [|split].
    + constructor; [done|by split|]. intros c Hc. congruence.
    + intros [Hrun Hlen]. unfold item_ok, depth, state_of in *. cbn [fst snd] in *.
      split.
      * unfold ReplayFacts.kl_completes.
        rewrite (ReplayFacts.kl_simulate_loop_app _ _ _ _ _ _ _ _ _ _ Hrun).
        cbn [simulate_loop]. rewrite Hp, Hu, Hv, Hb.
        simpl. rewrite decide_False by done. rewrite Hdoor. done.
      * rewrite length_app, transitions_app, Hlen. simpl.
        rewrite !transitions_cons, Ht. unfold transitions. simpl. lia.
    + unfold depth. simpl. rewrite transitions_app, !transitions_cons, Ht.
      unfold transitions. simpl. lia.
Qed.

(** *** The state space *)

Lemma inventories_spec colors (inv : gset string) :
  inv ∈ inventories colors ↔ inv ⊆ list_to_set colors.
Proof.
  revert inv. induction colors as [|c colors IH]; intros inv; simpl.
  - rewrite list_elem_of_singleton. split; [by intros ->|].
    intros H. apply set_eq. intros x. split; [apply H|].
    intros Hx. by apply not_elem_of_empty in Hx.
  - rewrite elem_of_app, list_elem_of_fmap. split.
    + intros [H|(s & -> & H)]; apply IH in H.
      * by apply union_subseteq_r'.
      * apply union_subseteq. split; [by apply union_subseteq_r'|].
        apply union_subseteq_l', singleton_subseteq_l. by apply elem_of_singleton.
    + intros H. destruct (decide (c ∈ inv)) as [Hc|Hc].
      * right. exists (inv ∖ {[c]}). split.
        -- apply set_eq. intros x.
           rewrite elem_of_union, elem_of_difference, elem_of_singleton.
           destruct (decide (x = c)) as [->|]; tauto.
        -- apply IH. intros x Hx. apply elem_of_difference in Hx as [Hx Hxc].
           apply H, elem_of_union in Hx as [Hx|Hx]; [|done].
           rewrite elem_of_singleton in Hxc. by apply elem_of_singleton in Hx.
      * left. apply IH. intros x Hx. pose proof (H x Hx) as Hx'.
        apply elem_of_union in Hx' as [Hx'|Hx']; [|done].
        apply elem_of_singleton in Hx' as ->. done.
Qed.

(** Membership of the set of states that bounds the search. *)
Definition in_space (s : State) : Prop :=
  s.1 ∈ start :: all_coords grid_size
  ∧ s.2 ⊆ list_to_set (snd <$> map_to_list keys).

Lemma in_space_spec s : s ∈ state_space start keys grid_size ↔ in_space s.
Proof.
  unfold state_space, in_space.
  by rewrite elem_of_list_to_set, list_elem_of_cprod, inventories_spec.
Qed.

Lemma step_in_space s s' : step s s' -> in_space s -> in_space s'.
Proof.
  destruct 1 as [pos inv color Hk Hc|pos inv d Hd [Hb Ho] Hdoor];
    intros [Hpos Hinv]; split; simpl in *; try done.
  - apply union_subseteq. split; [done|].
    apply singleton_subseteq_l, elem_of_list_to_set, list_elem_of_fmap.
    exists (pos, color). split; [done|]. by apply elem_of_map_to_list.
  - apply elem_of_cons. right. by apply in_bounds_all_coords.
Qed.

(** *** The expansion of an item *)

(** The loop body runs at most this many more times. *)
Definition remaining (fr : frontier) : nat :=
  (length fr.2 + size (state_space start keys grid_size ∖ fr.1))%nat.

(** The effect on [visited] and [queue] of pushing children of [it]. *)
Record extends (it : Item) (fr fr' : frontier) : Prop := {
  ext_new :
    ∃ new, fr'.2 = fr.2 ++ new
           ∧ Forall (child it) new
           ∧ ∀ s, s ∈ fr'.1 ↔ s ∈ fr.1 ∨ ∃ it', it' ∈ new ∧ state_of it' = s;
  ext_remaining :
    in_space (state_of it) ->
    fr.1 ⊆ state_space start keys grid_size ->
    fr'.1 ⊆ state_space start keys grid_size ∧ remaining fr' = remaining fr
}.

Lemma extends_refl it fr : extends it fr fr.
Proof.
  split; [|done]. exists []. rewrite app_nil_r. split; [done|]. split; [done|].
  intros s. split; [by left|]. intros [?|(it' & H & _)]; [done|].
  by apply elem_of_nil in H.
Qed.

Lemma extends_trans it fr1 fr2 fr3 :
  extends it fr1 fr2 -> extends it fr2 fr3 -> extends it fr1 fr3.
Proof.
  intros [(new1 & Hq1 & Hc1 & Hv1) Hr1] [(new2 & Hq2 & Hc2 & Hv2) Hr2].
  split.
  - exists (new1 ++ new2). rewrite Hq2, Hq1, app_assoc. split; [done|].
    split; [by apply Forall_app|]. intros s. rewrite Hv2, Hv1. split.
    + intros [[?|(it' & ? & ?)]|(it' & ? & ?)]; [by left|right..];
        (exists it'; split; [apply elem_of_app; by eauto|done]).
    + intros [?|(it' & Hit' & ?)]; [by left; left|].
      apply elem_of_app in Hit' as [?|?];
        [left; right; by exists it'|right; by exists it'].
  - intros Hit Hsub. destruct (Hr1 Hit Hsub) as [Hsub2 <-]. by apply Hr2.
Qed.

Lemma extends_enqueue it fr s path actions :
  child it (s, path, actions) -> extends it fr (enqueue fr s path actions).
Proof.
  intros Hchild. unfold enqueue.
  destruct (decide (s ∈ fr.1)) as [|Hnew]; [apply extends_refl|].
  split; simpl.
  - exists [(s, path, actions)]. split; [done|].
    split; [by apply Forall_singleton|]. intros s'.
    rewrite elem_of_union, elem_of_singleton. split.
    + intros [->|?]; [right|by left]. eexists. split; [by apply list_elem_of_singleton|done].
    + intros [?|(it' & Hit' & <-)]; [by right|].
      apply list_elem_of_singleton in Hit' as ->. by left.
  - intros Hit Hsub.
    assert (s ∈ state_space start keys grid_size) as Hs.
    { apply in_space_spec. destruct Hchild as [Hstep _].
      by apply (step_in_space _ _ Hstep). }
    split.
    + apply union_subseteq. split; [by apply singleton_subseteq_l|done].
    + unfold remaining. simpl. rewrite length_app. simpl.
      rewrite (ListFacts.size_visit _ fr.1 s) by done. lia.
Qed.

Lemma extends_visited it fr fr' s : extends it fr fr' -> s ∈ fr.1 -> s ∈ fr'.1.
Proof. intros [(new & _ & _ & Hv) _] Hs. apply Hv. by left. Qed.

Lemma enqueue_visited fr s path actions : s ∈ (enqueue fr s path actions).1.
Proof.
  unfold enqueue. destruct (decide (s ∈ fr.1)); [done|]. simpl.
  apply elem_of_union_l. by apply elem_of_singleton.
Qed.

Lemma try_pickup_spec it fr :
  extends it fr (try_pickup keys it fr)
  ∧ ∀ color, keys !! (state_of it).1 = Some color -> color ∉ (state_of it).2 ->
      ((state_of it).1, (state_of it).2 ∪ {[color]}) ∈ (try_pickup keys it fr).1.
Proof.
  destruct it as [[[pos inv] path] actions]. unfold state_of. simpl.
  destruct (keys !! pos) as [color|] eqn:Hk; [|by split; [apply extends_refl|]].
  destruct (decide (color ∈ inv)) as [Hin|Hnin].
  { split; [apply extends_refl|]. by intros c [= <-] ?. }
  split.
  - apply extends_enqueue. by apply child_pickup.
  - intros c [= <-] _. apply enqueue_visited.
Qed.

Lemma try_move_spec it fr d :
  d ∈ DIRECTIONS ->
  extends it fr (try_move obstacles doors grid_size it fr d)
  ∧ (legal (move (state_of it).1 d) ->
     (∀ color, doors !! move (state_of it).1 d = Some color ->
               color ∈ (state_of it).2) ->
     (move (state_of it).1 d, (state_of it).2)
       ∈ (try_move obstacles doors grid_size it fr d).1).
Proof.
  intros Hd. destruct it as [[[pos inv] path] actions]. unfold state_of. simpl.
  destruct (in_bounds grid_size (move pos d)) eqn:Hb; simpl;
    [|split; [apply extends_refl|by intros [? ?]; congruence]].
  destruct (decide (move pos d ∈ obstacles)) as [Ho|Ho];
    [split; [apply extends_refl|by intros [? ?]]|].
  destruct (dir_names_token d Hd) as (a & Ha & _). rewrite Ha.
  destruct (child_move pos inv path actions d a Hd Ha (conj Hb Ho))
    as [Hchild|(door_color & Hdoor & Hnin)].
  - destruct (doors !! move pos d) as [door_color|] eqn:Hdoor.
    + destruct (decide (door_color ∈ inv)) as [Hin|Hnin].
      * split; [by apply extends_enqueue|]. intros _ _. apply enqueue_visited.
      * split; [apply extends_refl|]. intros _ H. by specialize (H _ eq_refl).
    + split; [by apply extends_enqueue|]. intros _ _. apply enqueue_visited.
  - rewrite Hdoor. rewrite decide_False by done.
    split; [apply extends_refl|]. intros _ H. by specialize (H _ eq_refl).
Qed.

Lemma try_move_fold it ds fr :
  ds ⊆ DIRECTIONS ->
  let fr' := fold_left (try_move obstacles doors grid_size it) ds fr in
  extends it fr fr'
  ∧ ∀ d, d ∈ ds -> legal (move (state_of it).1 d) ->
      (∀ color, doors !! move (state_of it).1 d = Some color ->
                color ∈ (state_of it).2) ->
      (move (state_of it).1 d, (state_of it).2) ∈ fr'.1.
Proof.
  revert fr. induction ds as [|d ds IH]; intros fr Hsub; simpl.
  { split; [apply extends_refl|]. intros d Hd. by apply elem_of_nil in Hd. }
  assert (d ∈ DIRECTIONS) as Hd by (apply Hsub, elem_of_cons; by left).
  destruct (try_move_spec it fr d Hd) as [Hext Hmove].
  destruct (IH (try_move obstacles doors grid_size it fr d)) as [Hext' Hrest].
  { intros x Hx. apply Hsub, elem_of_cons. by right. }
  split; [by eapply extends_trans|].
  intros d' Hd' Hl Hdoor. apply elem_of_cons in Hd' as [->|Hd'].
  - eapply extends_visited; [exact Hext'|]. by apply Hmove.
  - by apply Hrest.
Qed.

(** The whole expansion: everything one transition away from the state of
    [it] is visited afterwards. *)
Lemma expand_spec it fr :
  let fr' := fold_left (try_move obstacles doors grid_size it) DIRECTIONS
               (try_pickup keys it fr) in
  extends it fr fr' ∧ ∀ s', step (state_of it) s' -> s' ∈ fr'.1.
Proof.
  intros fr'.
  destruct (try_pickup_spec it fr) as [Hext1 Hpick].
  destruct (try_move_fold it DIRECTIONS (try_pickup keys it fr)) as [Hext2 Hmove];
    [done|].
  split; [by eapply extends_trans|].
  intros s' Hstep. destruct (state_of it) as [pos inv] eqn:Hit.
  inversion Hstep as [? ? color Hk Hc|? ? d Hd Hl Hdoor]; subst.
  - eapply extends_visited; [exact Hext2|]. by apply Hpick.
  - by apply Hmove.
Qed.

(** *** The order of the queue *)

(** The queue holds items of some depth [d], followed by items of depth
    [d + 1]. *)
Definition layered (queue : list Item) : Prop :=
  ∃ d q1 q2, queue = q1 ++ q2
             ∧ Forall (fun it => depth it = d) q1
             ∧ Forall (fun it => depth it = S d) q2.

Lemma layered_front it rest it' :
  layered (it :: rest) -> it' ∈ it :: rest ->
  (depth it ≤ depth it' ≤ S (depth it))%nat.
Proof.
  intros (d & q1 & q2 & Hq & H1 & H2) Hin.
  rewrite Forall_forall in H1. rewrite Forall_forall in H2.
  rewrite Hq in Hin. apply elem_of_app in Hin.
  destruct q1 as [|a q1]; simpl in Hq.
  - assert (depth it = S d) as ->.
    { apply H2. rewrite <-Hq. apply elem_of_cons. by left. }
    destruct Hin as [Hin|Hin]; [by apply elem_of_nil in Hin|].
    rewrite (H2 _ Hin). lia.
  - injection Hq as <- ->.
    assert (depth it = d) as ->. { apply H1. apply elem_of_cons. by left. }
    destruct Hin as [Hin|Hin]; [rewrite (H1 _ Hin)|rewrite (H2 _ Hin)]; lia.
Qed.

Lemma layered_pop it rest new :
  layered (it :: rest) ->
  Forall (fun it' => depth it' = S (depth it)) new ->
  layered (rest ++ new).
Proof.
  intros (d & q1 & q2 & Hq & H1 & H2) Hnew.
  destruct q1 as [|a q1]; simpl in Hq.
  - subst q2. apply Forall_cons in H2 as [Hd H2]. rewrite Hd in Hnew.
    exists (S d), rest, new. done.
  - injection Hq as <- ->. apply Forall_cons in H1 as [Hd H1].
    rewrite Hd in Hnew. exists d, q1, (q2 ++ new).
    rewrite app_assoc. split; [done|]. split; [done|]. by apply Forall_app.
Qed.

(** *** The loop invariant *)

(** [done] is the set of states that were popped and expanded. *)
Record invariant (done : gset State) (fr : frontier) : Prop := {
  inv_items : Forall item_ok fr.2;
  inv_covered :
    ∀ s, s ∈ fr.1 -> s ∈ done ∨ ∃ it, it ∈ fr.2 ∧ state_of it = s;
  inv_init :
    (start, ∅) ∈ done
    ∨ ∃ it, it ∈ fr.2 ∧ state_of it = (start, ∅) ∧ depth it = 0%nat;
  inv_layered : layered fr.2;
  inv_done :
    ∀ n s s', reach n s -> s ∈ done -> step s s' ->
      s' ∈ done ∨ ∃ it, it ∈ fr.2 ∧ state_of it = s' ∧ (depth it ≤ S n)%nat;
  inv_goal : ∀ s, s ∈ done -> s.1 ≠ end_;
  inv_space : fr.1 ⊆ state_space start keys grid_size
}.

Lemma reach_in_space n s : reach n s -> in_space s.
Proof.
  induction 1 as [|n s s' _ IH Hstep]; [|by eapply step_in_space].
  split; simpl; [apply elem_of_cons; by left|apply empty_subseteq].
Qed.

(** Every reachable state was expanded, or the queue holds an item that is
    no deeper than the state. *)
Lemma bfs_frontier done fr n s :
  invariant done fr -> reach n s ->
  s ∈ done ∨ ∃ it, it ∈ fr.2 ∧ (depth it ≤ n)%nat.
Proof.
  intros Hinv. induction 1 as [|n s s' Hr IH Hstep].
  - destruct (inv_init _ _ Hinv) as [?|(it & Hit & _ & Hd)]; [by left|].
    right. exists it. split; [done|lia].
  - destruct IH as [Hs|(it & Hit & Hd)].
    + destruct (inv_done _ _ Hinv _ _ _ Hr Hs Hstep) as [?|(it & Hit & _ & Hd)];
        [by left|right; by exists it].
    + right. exists it. split; [done|lia].
Qed.

Lemma bfs_invariant_initial :
  invariant ∅ ({[(start, ∅)]}, [((start, ∅), [start], [])]).
Proof.
  split; simpl.
  - apply Forall_singleton. split; [|done].
    unfold ReplayFacts.kl_completes, ReplayFacts.clean. done.
  - intros s Hs. apply elem_of_singleton in Hs as ->. right.
    eexists. split; [by apply list_elem_of_singleton|done].
  - right. eexists. split; [by apply list_elem_of_singleton|done].
  - exists 0%nat, [((start, ∅), [start], [])], [].
    split; [done|]. split; [by apply Forall_singleton|by apply Forall_nil].
  - intros n s s' _ Hs. by apply not_elem_of_empty in Hs.
  - intros s Hs. by apply not_elem_of_empty in Hs.
  - apply singleton_subseteq_l, in_space_spec, (reach_in_space 0), reach_init.
Qed.

(** The front item is expanded and its state joins [done]. *)
Lemma bfs_invariant_expand done visited it rest :
  invariant done (visited, it :: rest) ->
  (state_of it).1 ≠ end_ ->
  let fr' := fold_left (try_move obstacles doors grid_size it) DIRECTIONS
               (try_pickup keys it (visited, rest)) in
  invariant ({[state_of it]} ∪ done) fr'
  ∧ S (remaining fr') = remaining (visited, it :: rest).
Proof.
  intros Hinv Hne fr'.
  destruct (expand_spec it (visited, rest)) as [[Hnew Hrem] Hsucc].
  fold fr' in Hnew, Hrem, Hsucc.
  destruct Hnew as (new & Hq & Hchildren & Hvis). simpl in Hq, Hvis.
  pose proof (inv_items _ _ Hinv) as Hitems. simpl in Hitems.
  apply Forall_cons in Hitems as [Hit Hitems].
  pose proof (item_ok_reach _ Hit) as Hreach.
  destruct (Hrem (reach_in_space _ _ Hreach) (inv_space _ _ Hinv))
    as [Hspace Hremaining].
  rewrite Forall_forall in Hchildren.
  assert (∀ it0 s, it0 ∈ it :: rest -> state_of it0 = s ->
            s ∈ {[state_of it]} ∪ done ∨ ∃ it', it' ∈ fr'.2 ∧ state_of it' = s
                                                ∧ depth it' = depth it0)
    as Hqueue.
  { intros it0 s Hin Hs. apply elem_of_cons in Hin as [->|Hin].
    - left. apply elem_of_union_l. by apply elem_of_singleton.
    - right. exists it0. rewrite Hq. split; [|done]. apply elem_of_app. by left. }
  split; [split|].
  - rewrite Hq. apply Forall_app. split; [done|].
    apply Forall_forall. intros it' Hit'. by apply (Hchildren it' Hit').
  - intros s Hs. apply Hvis in Hs as [Hs|(it' & Hit' & Hst)].
    + destruct (inv_covered _ _ Hinv s Hs) as [?|(it0 & Hit0 & Hst)].
      * left. by apply elem_of_union_r.
      * destruct (Hqueue it0 s Hit0 Hst) as [?|(it' & ? & ? & _)];
          [by left|right; by exists it'].
    + right. exists it'. rewrite Hq. split; [|done]. apply elem_of_app. by right.
  - destruct (inv_init _ _ Hinv) as [?|(it0 & Hit0 & Hst & Hd)].
    + left. by apply elem_of_union_r.
    + destruct (Hqueue it0 _ Hit0 Hst) as [?|(it' & ? & ? & Hd')];
        [by left|right; exists it'; by rewrite Hd'].
  - rewrite Hq. apply (layered_pop it); [apply (inv_layered _ _ Hinv)|].
    apply Forall_forall. intros it' Hit'. by apply (Hchildren it' Hit').
  - intros n s s' Hr Hs Hstep. apply elem_of_union in Hs as [Hs|Hs].
    + apply elem_of_singleton in Hs as ->.
      destruct (bfs_frontier _ _ _ _ Hinv Hr) as [Hs|(it0 & Hit0 & Hd0)].
      * destruct (inv_done _ _ Hinv _ _ _ Hr Hs Hstep)
          as [?|(it1 & Hit1 & Hst1 & Hd1)].
        -- left. by apply elem_of_union_r.
        -- destruct (Hqueue it1 _ Hit1 Hst1) as [?|(it' & ? & ? & Hd')];
             [by left|right; exists it'; by rewrite Hd'].
      * pose proof (layered_front _ _ _ (inv_layered _ _ Hinv) Hit0) as Hfront.
        apply Hsucc, Hvis in Hstep as [Hv|(it' & Hit' & Hst')].
        -- destruct (inv_covered _ _ Hinv s' Hv) as [?|(it1 & Hit1 & Hst1)].
           ++ left. by apply elem_of_union_r.
           ++ pose proof (layered_front _ _ _ (inv_layered _ _ Hinv) Hit1).
              destruct (Hqueue it1 _ Hit1 Hst1) as [?|(it' & ? & ? & Hd')];
                [by left|right; exists it']. split; [done|]. split; [done|]. lia.
        -- right. exists it'. rewrite Hq. split; [apply elem_of_app; by right|].
           split; [done|]. destruct (Hchildren it' Hit') as (_ & _ & ->). lia.
    + destruct (inv_done _ _ Hinv _ _ _ Hr Hs Hstep)
        as [?|(it1 & Hit1 & Hst1 & Hd1)].
      * left. by apply elem_of_union_r.
      * destruct (Hqueue it1 _ Hit1 Hst1) as [?|(it' & ? & ? & Hd')];
          [by left|right; exists it'; by rewrite Hd'].
  - intros s Hs. apply elem_of_union in Hs as [Hs|Hs].
    + by apply elem_of_singleton in Hs as ->.
    + by apply (inv_goal _ _ Hinv).
  - done.
  - rewrite Hremaining. unfold remaining. done.
Qed.

(** *** Termination and correctness of the loop *)

Lemma bfs_loop_correct fuel done fr :
  invariant done fr ->
  (remaining fr < fuel)%nat ->
  match bfs_loop fuel end_ obstacles keys doors grid_size fr with
  | Found (path, actions) =>
      (∃ inv, item_ok ((end_, inv), path, actions))
      ∧ ∀ n inv, reach n (end_, inv) -> (transitions actions ≤ n)%nat
  | Exhausted => ∀ n inv, ¬ reach n (end_, inv)
  | OutOfFuel => False
  end.
Proof.
  revert done fr. induction fuel as [|fuel IH]; intros done [visited queue] Hinv Hfuel;
    [lia|].
  cbn [bfs_loop fst snd].
  destruct queue as [|it rest].
  - intros n inv Hr.
    destruct (bfs_frontier _ _ _ _ Hinv Hr) as [Hs|(it & Hit & _)].
    + by apply (inv_goal _ _ Hinv) in Hs.
    + by apply elem_of_nil in Hit.
  - destruct (decide (it.1.1.1 = end_)) as [Hgoal|Hgoal].
    + pose proof (inv_items _ _ Hinv) as Hitems. simpl in Hitems.
      apply Forall_cons in Hitems as [Hit _].
      destruct it as [[[pos inv] path] actions]. simpl in Hgoal. subst pos.
      simpl. split; [by exists inv|].
      intros n inv' Hr.
      destruct (bfs_frontier _ _ _ _ Hinv Hr) as [Hs|(it0 & Hit0 & Hd0)].
      * by apply (inv_goal _ _ Hinv) in Hs.
      * pose proof (layered_front _ _ _ (inv_layered _ _ Hinv) Hit0) as Hfront.
        unfold depth in Hfront at 1. simpl in Hfront. lia.
    + destruct (bfs_invariant_expand _ _ _ _ Hinv Hgoal) as [Hinv' Hrem].
      eapply IH; [exact Hinv'|]. lia.
Qed.

(** A sequence of actions is accepted by the validator when its replay has
    no [break] and ends on the goal. *)
Lemma accepted_completes actions :
  is_action_seq_invalid start end_ obstacles keys doors actions grid_size = false
  ↔ ∃ inv, completes actions start ∅ end_ inv.
Proof.
  unfold is_action_seq_invalid, simulate_actions,
    ReplayFacts.kl_completes, ReplayFacts.clean.
  set (r := simulate_loop obstacles keys doors grid_size actions start ∅).
  simpl. split.
  - destruct (hit_wall r), (out_of_bounds r), (locked_door_blocked r),
      (invalid_pickup r), (invalid_unlock r); simpl; try done.
    case_bool_decide; [|done]. intros _. by exists (inventory r).
  - intros (inv & (-> & -> & -> & -> & ->) & Hpos & _). simpl.
    by rewrite bool_decide_eq_true_2.
Qed.

(** [bfs_with_keys] returns an accepted sequence with the fewest transitions,
    or [None] when no sequence is accepted; it never runs out of fuel. *)
Lemma bfs_with_keys_correct :
  match bfs_with_keys start end_ obstacles keys doors grid_size with
  | Some (path, actions) =>
      is_action_seq_invalid start end_ obstacles keys doors actions grid_size
      = false
      ∧ length path = S (transitions actions)
      ∧ ∀ actions',
          is_action_seq_invalid start end_ obstacles keys doors actions'
            grid_size = false ->
          (transitions actions ≤ transitions actions')%nat
  | None =>
      ∀ actions',
        is_action_seq_invalid start end_ obstacles keys doors actions'
          grid_size = true
  end.
Proof.
  unfold bfs_with_keys.
  pose proof (bfs_loop_correct (bfs_fuel start keys grid_size) _ _
                bfs_invariant_initial) as H.
  assert (remaining ({[(start, ∅)]}, [((start, ∅), [start], [])])
          < bfs_fuel start keys grid_size)%nat as Hfuel.
  { unfold remaining, bfs_fuel. simpl.
    rewrite <-(difference_empty_L (state_space start keys grid_size)) at 2.
    rewrite (ListFacts.size_visit _ ∅ (start, ∅)).
    - rewrite union_empty_r_L. lia.
    - apply in_space_spec, (reach_in_space 0), reach_init.
    - apply not_elem_of_empty. }
  specialize (H Hfuel).
  destruct (bfs_loop _ _ _ _ _ _ _) as [[path actions]| |]; [| |done].
  - destruct H as [[inv [Hrun Hlen]] Hmin]. split; [|split].
    + apply accepted_completes. by exists inv.
    + done.
    + intros actions' Hacc. apply accepted_completes in Hacc as [inv' Hrun'].
      apply (Hmin _ inv').
      by apply (completes_reach _ 0 _ _ _ _ reach_init).
  - intros actions'.
    destruct (is_action_seq_invalid _ _ _ _ _ actions' _) eqn:Hacc; [done|].
    apply accepted_completes in Hacc as [inv' Hrun'].
    exfalso. apply (H (transitions actions') inv').
    by apply (completes_reach _ 0 _ _ _ _ reach_init).
Qed.

End Search.
End BfsFacts.
(** * Further facts about the generators *)

(** ** Paths and direction lists *)
Module FollowFacts.
Import Spatial Paths.

Lemma dir_names_vectors v d : DIR_NAMES v = Some d ↔ DIR_VECTORS d = Some v.
Proof.
  split.
  - unfold DIR_NAMES. intros H.
    repeat case_decide; simplify_eq; reflexivity.
  - unfold DIR_VECTORS. intros H.
    repeat case_decide; simplify_eq; reflexivity.
Qed.

Lemma dir_names_directions v : is_Some (DIR_NAMES v) ↔ v ∈ DIRECTIONS.
Proof.
  unfold DIR_NAMES, DIRECTIONS. rewrite !elem_of_cons, elem_of_nil.
  split.
  - intros [d H]. repeat case_decide; simplify_eq; tauto.
  - intros H. repeat case_decide; try by eexists. tauto.
Qed.

Lemma move_difference (p q : Coord) : move p (q.1 - p.1, q.2 - p.2) = q.
Proof. destruct p, q. unfold move. simpl. f_equal; lia. Qed.

Lemma difference_move (p v : Coord) :
  ((move p v).1 - p.1, (move p v).2 - p.2) = v.
Proof. destruct p, v. unfold move. simpl. f_equal; lia. Qed.

Lemma adjacent_difference p q :
  adjacent p q ↔ (q.1 - p.1, q.2 - p.2) ∈ DIRECTIONS.
Proof.
  unfold adjacent. rewrite list_elem_of_fmap. split.
  - intros (d & -> & Hd). by rewrite difference_move.
  - intros H. eexists. split; [|exact H]. by rewrite move_difference.
Qed.

Lemma path_to_directions_chain path :
  is_Some (path_to_directions path) ↔ chain path = true.
Proof.
  induction path as [|p [|q rest] IH].
  - split; [done|by eexists].
  - split; [done|by eexists].
  - change (is_Some (d ← DIR_NAMES (q.1 - p.1, q.2 - p.2);
                     l ← path_to_directions (q :: rest); Some (d :: l))
            ↔ bool_decide (adjacent p q) && chain (q :: rest) = true).
    rewrite andb_true_iff, bool_decide_eq_true, <- IH, adjacent_difference,
      <- dir_names_directions.
    split.
    + intros [l Hl]. destruct (DIR_NAMES _); [|done].
      destruct (path_to_directions (q :: rest)); [|done]. split; by eexists.
    + intros [[d ->] [l ->]]. by eexists.
Qed.

Lemma path_to_directions_length path dirs :
  path_to_directions path = Some dirs -> length dirs = (length path - 1)%nat.
Proof.
  revert dirs. induction path as [|p [|q rest] IH]; intros dirs H.
  - by simplify_eq/=.
  - by simplify_eq/=.
  - change (path_to_directions (p :: q :: rest)) with
      (d ← DIR_NAMES (q.1 - p.1, q.2 - p.2);
       l ← path_to_directions (q :: rest); Some (d :: l)) in H.
    destruct (DIR_NAMES _); [|done].
    destruct (path_to_directions (q :: rest)) as [l|] eqn:Hl; [|done].
    cbn [mbind option_bind] in H. simplify_eq. pose proof (IH _ eq_refl) as E.
    cbn [length] in *. lia.
Qed.

Lemma path_to_directions_follow path dirs p :
  head path = Some p -> path_to_directions path = Some dirs ->
  follow p dirs = Some path.
Proof.
  revert dirs p. induction path as [|p0 [|q rest] IH]; intros dirs p Hh H.
  - done.
  - by simplify_eq/=.
  - change (path_to_directions (p0 :: q :: rest)) with
      (d ← DIR_NAMES (q.1 - p0.1, q.2 - p0.2);
       l ← path_to_directions (q :: rest); Some (d :: l)) in H.
    destruct (DIR_NAMES _) as [d|] eqn:Hd; [|done].
    destruct (path_to_directions (q :: rest)) as [l|] eqn:Hl; [|done].
    cbn [mbind option_bind head] in *. simplify_eq.
    apply dir_names_vectors in Hd. cbn [follow]. rewrite Hd. cbn [mbind option_bind].
    rewrite move_difference. by rewrite (IH l q eq_refl eq_refl).
Qed.

Lemma follow_head pos dirs cells :
  follow pos dirs = Some cells -> ∃ rest, cells = pos :: rest.
Proof.
  destruct dirs as [|d dirs]; cbn [follow]; intros H.
  - simplify_eq. by eexists.
  - destruct (DIR_VECTORS d); [|done]. cbn [mbind option_bind] in H.
    destruct (follow _ dirs); [|done]. cbn [mbind option_bind] in H.
    simplify_eq. by eexists.
Qed.

Lemma follow_path_to_directions pos dirs cells :
  follow pos dirs = Some cells -> path_to_directions cells = Some dirs.
Proof.
  revert pos cells. induction dirs as [|d dirs IH]; intros pos cells H.
  - cbn [follow] in H. by simplify_eq.
  - cbn [follow] in H. destruct (DIR_VECTORS d) as [vec|] eqn:Hd; [|done].
    cbn [mbind option_bind] in H.
    destruct (follow (move pos vec) dirs) as [l|] eqn:Hl; [|done].
    cbn [mbind option_bind] in H. simplify_eq.
    destruct (follow_head _ _ _ Hl) as [rest ->].
    change (path_to_directions (pos :: move pos vec :: rest)) with
      (d' ← DIR_NAMES ((move pos vec).1 - pos.1, (move pos vec).2 - pos.2);
       l ← path_to_directions (move pos vec :: rest); Some (d' :: l)).
    rewrite difference_move. apply dir_names_vectors in Hd. rewrite Hd.
    cbn [mbind option_bind]. by rewrite (IH _ _ Hl).
Qed.

Section Replay.
Variables (obstacles : gset Coord) (grid_size : Z).

Abbreviation legal := (legal_cell grid_size obstacles).

Lemma forallb_legal cells :
  forallb (fun p => bool_decide (legal p)) cells = true ↔ Forall legal cells.
Proof.
  induction cells as [|p cells IH]; [done|].
  cbn [forallb]. rewrite andb_true_iff, bool_decide_eq_true, IH, Forall_cons.
  done.
Qed.

(** A replay without a violation follows the directions over legal cells. *)
Lemma simulate_loop_follow dirs pos pos' :
  ReplayFacts.completes obstacles grid_size dirs pos pos'
  ↔ ∃ cells, follow pos dirs = Some (pos :: cells)
             ∧ Forall legal cells ∧ last (pos :: cells) = Some pos'.
Proof.
  unfold ReplayFacts.completes. revert pos.
  induction dirs as [|d dirs IH]; intros pos.
  - cbn [simulate_loop follow]. split.
    + intros [= ->]. by exists [].
    + intros (cells & [= <-] & _ & [= ->]). done.
  - cbn [simulate_loop follow].
    destruct (DIR_VECTORS d) as [vec|]; cbn [mbind option_bind]; cycle 1.
    { split; [done|]. by intros (? & ? & _). }
    destruct (in_bounds grid_size (move pos vec)) eqn:Hb; cbn [negb]; cycle 1.
    { split; [done|]. intros (cells & Hf & Hl & _).
      destruct (follow (move pos vec) dirs) as [l|] eqn:Hfl; [|done].
      destruct (follow_head _ _ _ Hfl) as [rest ->].
      cbn [mbind option_bind] in Hf. simplify_eq.
      apply Forall_cons_1 in Hl as [[Hl _] _]. congruence. }
    destruct (decide (move pos vec ∈ obstacles)) as [Ho|Ho].
    { split; [done|]. intros (cells & Hf & Hl & _).
      destruct (follow (move pos vec) dirs) as [l|] eqn:Hfl; [|done].
      destruct (follow_head _ _ _ Hfl) as [rest ->].
      cbn [mbind option_bind] in Hf. simplify_eq.
      apply Forall_cons_1 in Hl as [[_ Hl] _]. done. }
    rewrite IH. split.
    + intros (cells & Hf & Hl & Hlast). exists (move pos vec :: cells).
      rewrite Hf. split; [done|]. split; [|done].
      apply Forall_cons. split; [by split|done].
    + intros (cells & Hf & Hl & Hlast).
      destruct (follow (move pos vec) dirs) as [l|] eqn:Hfl; [|done].
      destruct (follow_head _ _ _ Hfl) as [rest ->].
      cbn [mbind option_bind] in Hf. simplify_eq.
      exists rest. split; [done|]. apply Forall_cons_1 in Hl as [_ Hl]. done.
Qed.

Lemma invalid_false_completes start end_ dirs :
  is_path_physically_invalid start end_ obstacles dirs grid_size = false
  ↔ ReplayFacts.completes obstacles grid_size dirs start end_.
Proof.
  unfold is_path_physically_invalid, simulate_path, ReplayFacts.completes.
  destruct (simulate_loop obstacles grid_size dirs start) as [[pos hw] ob].
  cbn [hit_wall out_of_bounds reached_goal].
  destruct hw, ob; cbn [orb negb]; try (split; [done|by intros [= -> ]]).
  case_bool_decide as Hp; cbn [negb].
  - subst. done.
  - split; [done|]. intros [= ->]. done.
Qed.

(** The validator accepts exactly the direction lists of the valid paths. *)
Lemma accepted_valid_path start end_ dirs :
  legal start ->
  is_path_physically_invalid start end_ obstacles dirs grid_size = false
  ↔ ∃ path, valid_path grid_size obstacles start end_ path = true
            ∧ path_to_directions path = Some dirs.
Proof.
  intros Hstart. rewrite invalid_false_completes, simulate_loop_follow. split.
  - intros (cells & Hf & Hl & Hlast). exists (start :: cells).
    split; [|by eapply follow_path_to_directions].
    unfold valid_path. rewrite !andb_true_iff, !bool_decide_eq_true.
    split; [split; [split|]|]; [done|done| |].
    + apply forallb_legal, Forall_cons. done.
    + apply path_to_directions_chain. eexists.
      by eapply follow_path_to_directions.
  - intros (path & Hv & Hd). unfold valid_path in Hv.
    rewrite !andb_true_iff, !bool_decide_eq_true in Hv.
    destruct Hv as [[[Hh Hlast] Hl] _].
    pose proof (path_to_directions_follow _ _ _ Hh Hd) as Hf.
    destruct (follow_head _ _ _ Hf) as [cells ->].
    exists cells. split; [done|]. split; [|done].
    apply forallb_legal, Forall_cons_1 in Hl as [_ Hl]. done.
Qed.

End Replay.
End FollowFacts.

(** ** The samplers *)
Module SamplerFacts.
Import RngFacts.

Lemma sample_spec {A} (l : list A) k r :
  let s := (Rng.sample l k r).1 in
  length s = (k `min` length l)%nat ∧ (NoDup l -> NoDup s) ∧ s ⊆ l.
Proof.
  unfold Rng.sample. rewrite bind_run. cbn [fst].
  pose proof (shuffle_perm l r) as Hperm.
  set (l' := (Rng.shuffle l r).1) in *.
  change ((mret (take k l') : Rng.M _) (Rng.shuffle l r).2).1 with (take k l').
  split; [|split].
  - by rewrite length_take, Hperm.
  - intros Hnd. apply (sublist_NoDup _ l'); [by rewrite Hperm|apply sublist_take].
  - intros x Hx. rewrite <- Hperm. eapply elem_of_sublist; [exact Hx|].
    apply sublist_take.
Qed.

Lemma all_coords_in_bounds grid_size p :
  p ∈ all_coords grid_size ↔ in_bounds grid_size p = true.
Proof.
  split; [|apply GridFacts.in_bounds_all_coords].
  unfold all_coords, in_bounds. intros H.
  apply list_elem_of_bind in H as (r & H & Hr).
  apply list_elem_of_bind in H as (c & H & Hc).
  apply list_elem_of_singleton in H as ->.
  apply elem_of_seqZ in Hr, Hc. cbn [fst snd].
  rewrite !andb_true_iff, !Z.leb_le, !Z.ltb_lt. lia.
Qed.

Lemma all_coords_NoDup : NoDup (all_coords GRID_SIZE).
Proof. apply (bool_decide_unpack _). vm_compute. exact I. Qed.

Lemma valid_path_ends grid_size obstacles start end_ path :
  Paths.valid_path grid_size obstacles start end_ path = true ->
  start ≠ end_ -> (2 ≤ length path)%nat.
Proof.
  unfold Paths.valid_path. rewrite !andb_true_iff, !bool_decide_eq_true.
  intros [[[Hh Hl] _] _] Hne.
  destruct path as [|p [|q rest]]; simplify_eq/=; lia.
Qed.

End SamplerFacts.

(** ** Pairwise different choices *)
Module ChoiceFacts.
Import RngFacts.

(** The distractors collected so far are pairwise different and recorded in
    the set of used strings. *)
Definition distinct (st : list string * gset string) : Prop :=
  NoDup st.1 ∧ ∀ s, s ∈ st.1 -> s ∈ st.2.

(** One candidate: the pool is left as it was, or receives a new string. *)
Definition grows (st st' : list string * gset string) : Prop :=
  st' = st ∨ ∃ s, (s ∉ st.2) ∧ st' = (st.1 ++ [s], {[s]} ∪ st.2).

Lemma grows_distinct st st' : grows st st' -> distinct st -> distinct st'.
Proof.
  intros [->|(s & Hnew & ->)] [Hnd Hin]; [done|]. split; cbn [fst snd].
  - apply NoDup_app. split; [done|]. split; [|apply NoDup_singleton].
    intros x Hx Hx'. apply list_elem_of_singleton in Hx' as ->. by apply Hnew, Hin.
  - intros x Hx. apply elem_of_app in Hx as [Hx|Hx].
    + apply elem_of_union_r. by apply Hin.
    + apply list_elem_of_singleton in Hx as ->.
      apply elem_of_union_l. by apply elem_of_singleton.
Qed.

Lemma distinct_take k st : distinct st -> NoDup (take k st.1).
Proof. intros [Hnd _]. apply (sublist_NoDup _ st.1); [done|apply sublist_take]. Qed.

(** *** Navigation *)

Lemma spatial_try_add_grows sc st dirs : grows st (Spatial.try_add sc st dirs).
Proof.
  unfold Spatial.try_add.
  destruct (decide (join ", " dirs ∈ st.2)) as [|Hnew]; [by left|].
  destruct (negb _); [by left|]. right. by eexists.
Qed.

Lemma spatial_random_walks_distinct n sc k correct st r :
  distinct st -> distinct (Spatial.random_walks n sc k correct st r).1.
Proof.
  revert st r. induction n as [|n IH]; intros st r Hst; [done|].
  cbn [Spatial.random_walks]. case_bool_decide; [done|].
  rewrite bind_run. apply IH.
  eapply grows_distinct; [apply spatial_try_add_grows|done].
Qed.

Lemma spatial_mutations_distinct n sc k correct st r :
  distinct st -> distinct (Spatial.mutations n sc k correct st r).1.
Proof.
  revert st r. induction n as [|n IH]; intros st r Hst; [done|].
  cbn [Spatial.mutations]. case_bool_decide; [done|].
  rewrite !bind_run. apply IH.
  eapply grows_distinct; [apply spatial_try_add_grows|done].
Qed.

Lemma spatial_distractors_distinct sc k r :
  NoDup (Spatial.generate_distractors sc k r).1
  ∧ (length (Spatial.generate_distractors sc k r).1 ≤ k)%nat.
Proof.
  unfold Spatial.generate_distractors.
  destruct (Spatial.path_directions sc) as [[|d correct]|];
    [split; [apply NoDup_nil_2|cbn; lia]| |split; [apply NoDup_nil_2|cbn; lia]].
  set (dirs := d :: correct).
  set (st0 := ([], {[join ", " dirs]}) : Spatial.pool).
  assert (distinct st0) as H0.
  { split; [apply NoDup_nil_2|]. intros s Hs. by apply elem_of_nil in Hs. }
  rewrite bind_run.
  set (st2 := (Spatial.random_walks 50 sc k dirs
                 (Spatial.try_add sc st0 (Spatial.naive_dirs sc)) r)).
  assert (distinct st2.1) as H2.
  { apply spatial_random_walks_distinct.
    eapply grows_distinct; [apply spatial_try_add_grows|done]. }
  set (st3 := if bool_decide (length st2.1.1 < k)%nat
              then Spatial.try_add sc st2.1 (Spatial.opposite <$> reverse dirs)
              else st2.1).
  assert (distinct st3) as H3.
  { unfold st3. case_bool_decide; [|done].
    eapply grows_distinct; [apply spatial_try_add_grows|done]. }
  rewrite bind_run.
  match goal with |- NoDup (mret (take k ?x.1.1) _).1 ∧ _ =>
    assert (distinct x.1) as H4 end.
  { destruct (_ && _); [by apply spatial_mutations_distinct|done]. }
  unfold mret, Rng.M_ret. cbn [fst]. split; [by apply distinct_take|].
  rewrite length_take. lia.
Qed.

(** *** Key-lock *)

Lemma keylock_try_add_grows sc st acts : grows st (KeyLock.try_add sc st acts).
Proof.
  unfold KeyLock.try_add.
  destruct (decide (join ", " acts ∈ st.2)) as [|Hnew]; [by left|].
  destruct (negb _); [by left|]. right. by eexists.
Qed.

Lemma keylock_mutations_distinct n sc k correct st r :
  distinct st -> distinct (KeyLock.mutations n sc k correct st r).1.
Proof.
  revert st r. induction n as [|n IH]; intros st r Hst; [done|].
  cbn [KeyLock.mutations]. case_bool_decide; [done|].
  destruct (KeyLock.move_indices correct) as [|i indices]; [by apply IH|].
  rewrite !bind_run. apply IH.
  eapply grows_distinct; [apply keylock_try_add_grows|done].
Qed.

Lemma keylock_random_walks_distinct n sc k correct st r :
  distinct st -> distinct (KeyLock.random_walks n sc k correct st r).1.
Proof.
  revert st r. induction n as [|n IH]; intros st r Hst; [done|].
  cbn [KeyLock.random_walks]. case_bool_decide; [done|].
  rewrite !bind_run. apply IH.
  eapply grows_distinct; [apply keylock_try_add_grows|done].
Qed.

Lemma keylock_distractors_distinct sc k r :
  NoDup (KeyLock.generate_distractors sc k r).1
  ∧ (length (KeyLock.generate_distractors sc k r).1 ≤ k)%nat.
Proof.
  unfold KeyLock.generate_distractors.
  destruct (KeyLock.solution_actions sc) as [[|a correct]|];
    [split; [apply NoDup_nil_2|cbn; lia]| |split; [apply NoDup_nil_2|cbn; lia]].
  set (acts := a :: correct).
  set (st0 := ([], {[join ", " acts]}) : KeyLock.pool).
  assert (distinct st0) as H0.
  { split; [apply NoDup_nil_2|]. intros s Hs. by apply elem_of_nil in Hs. }
  rewrite !bind_run. unfold mret, Rng.M_ret. cbn [fst].
  split; [|rewrite length_take; lia].
  apply distinct_take, keylock_random_walks_distinct, keylock_mutations_distinct.
  case_bool_decide.
  - do 3 (eapply grows_distinct; [apply keylock_try_add_grows|]). done.
  - do 2 (eapply grows_distinct; [apply keylock_try_add_grows|]). done.
Qed.

(** *** Containers *)

Definition states_distinct (st : Container.pool) : Prop :=
  NoDup (Container.dict_to_str <$> st.1)
  ∧ ∀ d, d ∈ st.1 -> Container.dict_to_str d ∈ st.2.

Lemma add_if_new_distinct st state :
  states_distinct st -> states_distinct (Container.add_if_new st state).
Proof.
  intros [Hnd Hin]. unfold Container.add_if_new.
  destruct (decide (Container.dict_to_str state ∈ st.2)) as [|Hnew]; [done|].
  split; cbn [fst snd].
  - rewrite fmap_app. apply NoDup_app. split; [done|].
    split; [|apply NoDup_singleton].
    intros x Hx Hx'. apply list_elem_of_singleton in Hx' as ->.
    apply list_elem_of_fmap in Hx as (d & Heq & Hd).
    apply Hnew. rewrite Heq. by apply Hin.
  - intros d Hd. apply elem_of_app in Hd as [Hd|Hd].
    + apply elem_of_union_r. by apply Hin.
    + apply list_elem_of_singleton in Hd as ->.
      apply elem_of_union_l. by apply elem_of_singleton.
Qed.

Lemma random_states_distinct n sc names st r :
  states_distinct st ->
  states_distinct (Container.random_states n sc names st r).1.
Proof.
  revert st r. induction n as [|n IH]; intros st r Hst; [done|].
  cbn [Container.random_states]. case_bool_decide; [done|].
  rewrite bind_run. apply IH. by apply add_if_new_distinct.
Qed.

Lemma container_distractors_distinct sc r :
  NoDup (Container.dict_to_str <$> (Container.generate_distractors sc r).1)
  ∧ (length (Container.generate_distractors sc r).1 ≤ 3)%nat.
Proof.
  unfold Container.generate_distractors. rewrite !bind_run.
  unfold mret, Rng.M_ret. cbn [fst]. split; [|rewrite length_take; lia].
  rewrite fmap_take.
  match goal with |- NoDup (take _ (_ <$> ?st.1)) =>
    assert (states_distinct st) as [Hnd _] end.
  { apply random_states_distinct. do 2 apply add_if_new_distinct.
    split; [apply NoDup_nil_2|]. intros d Hd. by apply elem_of_nil in Hd. }
  eapply sublist_NoDup; [exact Hnd|apply sublist_take].
Qed.

(** What one pass of the container [main] writes, with its distractors. *)
Lemma container_sample_choices r sc sample :
  (Container.main_body r).1 = Some (sc, sample) ->
  ∃ r',
    Container.choices sample
    ≡ₚ Container.dict_to_str
         <$> (Container.final_state sc :: (Container.generate_distractors sc r').1).
Proof.
  unfold Container.main_body. rewrite !bind_run.
  set (scen := (Container.generate_scenario r).1).
  set (r1 := (Container.generate_scenario r).2).
  case_bool_decide as Hlen; [done|].
  rewrite bind_run. unfold mret, Rng.M_ret. cbn [fst].
  intros Heq. apply (inj Some) in Heq.
  apply pair_equal_spec in Heq as [Hsc Hsample].
  rewrite <-Hsc, <-Hsample. cbn [Container.choices]. exists r1.
  apply shuffle_perm.
Qed.

End ChoiceFacts.

(** ** The key-lock replay *)
Module TokenFacts.
Import KeyLock.

Lemma follow_tokens pos dirs cells :
  follow pos dirs = Some cells -> Forall (fun d => is_Some (DIR_VECTORS d)) dirs.
Proof.
  revert pos cells. induction dirs as [|d dirs IH]; intros pos cells H; [done|].
  cbn [follow] in H. destruct (DIR_VECTORS d) as [vec|] eqn:Hd; [|done].
  cbn [mbind option_bind] in H.
  destruct (follow (move pos vec) dirs) as [l|] eqn:Hl; [|done].
  apply Forall_cons. split; [by rewrite Hd|by eapply IH].
Qed.

Lemma prefix_strip p a : String.prefix p a = true -> a = p +:+ strip p a.
Proof.
  unfold strip. revert a. induction p as [|c p IH]; intros a H.
  - cbn. rewrite Nat.sub_0_r. by rewrite BfsFacts.substring_full.
  - destruct a as [|c' a]; [done|]. cbn in H.
    destruct (Ascii.ascii_dec c c') as [<-|]; [|done].
    cbn [String.length Nat.sub String.substring].
    change (String c a = String c (p +:+ String.substring (String.length p)
                                     (String.length a - String.length p) a)).
    f_equal. by apply IH.
Qed.

Lemma unlock_not_pick_up a :
  String.prefix "unlock_" a = true -> String.prefix "pick_up_" a = false.
Proof. intros H. rewrite (prefix_strip _ _ H). apply BfsFacts.prefix_unlock. Qed.

Lemma other_color_ne color : other_color color ≠ color.
Proof. unfold other_color. case_decide; [by subst|done]. Qed.

Section Replay.
Variables (obstacles : gset Coord) (keys doors : gmap Coord string)
          (grid_size : Z).

Abbreviation run := (simulate_loop obstacles keys doors grid_size).
Abbreviation completes :=
  (ReplayFacts.kl_completes obstacles keys doors grid_size).

(** The replay skips every token that it does not know. *)
Lemma simulate_loop_known actions pos inv :
  run (filter (fun a => Is_true (known_action a)) actions) pos inv
  = run actions pos inv.
Proof.
  revert pos inv. induction actions as [|a actions IH]; intros pos inv; [done|].
  rewrite filter_cons.
  destruct (String.prefix "pick_up_" a) eqn:Hp.
  { rewrite decide_True by (unfold known_action; by rewrite Hp).
    cbn [simulate_loop]. rewrite Hp.
    destruct (_ && _); [apply IH|done]. }
  destruct (String.prefix "unlock_" a) eqn:Hu.
  { rewrite decide_True by (unfold known_action; by rewrite Hp, Hu).
    cbn [simulate_loop]. rewrite Hp, Hu.
    destruct (decide _); [apply IH|done]. }
  destruct (DIR_VECTORS a) as [d|] eqn:Hd.
  - rewrite decide_True by (unfold known_action; by rewrite Hp, Hu, Hd).
    cbn [simulate_loop]. rewrite Hp, Hu, Hd.
    destruct (negb _); [done|]. destruct (decide _); [done|].
    destruct (doors !! _); [destruct (decide _); [apply IH|done]|apply IH].
  - rewrite decide_False.
    + cbn [simulate_loop]. rewrite Hp, Hu, Hd. apply IH.
    + unfold known_action. rewrite Hp, Hu, Hd. cbn [orb].
      rewrite bool_decide_eq_false_2; [intros H; exact H|]. by intros [? ?].
Qed.

(** A replay without a violation stays one when its unlock tokens are
    dropped. *)
Lemma completes_without_unlock actions pos inv pos' inv' :
  completes actions pos inv pos' inv' ->
  completes (filter (fun a => ¬ Is_true (String.prefix "unlock_" a)) actions)
    pos inv pos' inv'.
Proof.
  unfold ReplayFacts.kl_completes, ReplayFacts.clean. revert pos inv.
  induction actions as [|a actions IH]; intros pos inv; [done|].
  rewrite filter_cons.
  destruct (String.prefix "unlock_" a) eqn:Hu.
  - rewrite decide_False by (intros H; by apply H).
    cbn [simulate_loop]. rewrite (unlock_not_pick_up _ Hu), Hu.
    destruct (decide _); [apply IH|]. by intros [(?&?&?&?&?) _].
  - rewrite decide_True by (intros H; exact H).
    cbn [simulate_loop]. rewrite Hu.
    destruct (String.prefix "pick_up_" a).
    { destruct (_ && _); [apply IH|done]. }
    destruct (DIR_VECTORS a) as [d|]; [|apply IH].
    destruct (negb _); [done|]. destruct (decide _); [done|].
    destruct (doors !! _); [destruct (decide _); [apply IH|done]|apply IH].
Qed.

(** At most one violation flag is set, and only colours of keys on the grid
    are ever held. *)
Lemma simulate_loop_one_flag actions pos inv :
  (violations (run actions pos inv) ≤ 1)%nat
  ∧ ∀ color, color ∈ inventory (run actions pos inv) ->
      color ∈ inv ∨ ∃ p, keys !! p = Some color.
Proof.
  revert pos inv. induction actions as [|a actions IH]; intros pos inv;
    cbn [simulate_loop];
    repeat first
      [ apply IH
      | match goal with
        | |- context [if ?b then _ else _] => destruct b eqn:?
        | |- context [match ?o with Some _ => _ | None => _ end] =>
            destruct o eqn:?
        end ];
    try (unfold violations; cbn; split; [lia|by left]).
  match goal with H : bool_decide (keys !! pos = Some _) && _ = true |- _ =>
    apply andb_true_iff in H as [Hk _]; apply bool_decide_eq_true in Hk end.
  destruct (IH pos (inv ∪ {[strip "pick_up_" a]})) as [H1 H2].
  split; [done|]. intros color Hc.
  destruct (H2 color Hc) as [Hin|?]; [|by right].
  apply elem_of_union in Hin as [?|Hin]; [by left|].
  apply elem_of_singleton in Hin as ->. right. by exists pos.
Qed.

(** With an empty inventory, a valid sequence that names a key has its
    first key token rejected once the colours are swapped. *)
Lemma swapped_pickup_invalid actions pos pos' inv' :
  completes actions pos ∅ pos' inv' ->
  Exists (fun a => Is_true (key_action a)) actions ->
  invalid_pickup (run (swap_color <$> actions) pos ∅) = true.
Proof.
  unfold ReplayFacts.kl_completes, ReplayFacts.clean. revert pos.
  induction actions as [|a actions IH]; intros pos Hrun Hex.
  { by apply Exists_nil in Hex. }
  cbn [fmap list_fmap]. change (list_fmap _ _ swap_color actions)
    with (swap_color <$> actions).
  cbn [simulate_loop] in Hrun.
  destruct (String.prefix "pick_up_" a) eqn:Hp.
  { assert (swap_color a = "pick_up_" +:+ other_color (strip "pick_up_" a))
      as -> by (unfold swap_color; by rewrite Hp).
    cbn [simulate_loop].
    rewrite BfsFacts.prefix_pick_up, BfsFacts.strip_pick_up.
    destruct (bool_decide (keys !! pos = Some (strip "pick_up_" a))) eqn:Hk;
      cbn [andb] in Hrun; [|by destruct Hrun as [(?&?&?&?&?) _]].
    apply bool_decide_eq_true in Hk.
    rewrite bool_decide_eq_false_2; [done|].
    rewrite Hk. intros [= Heq]. by apply (other_color_ne (strip "pick_up_" a)). }
  destruct (String.prefix "unlock_" a) eqn:Hu.
  { destruct (decide (strip "unlock_" a ∈ ∅)) as [Hin|];
      [by apply elem_of_empty in Hin|by destruct Hrun as [(?&?&?&?&?) _]]. }
  assert (swap_color a = a) as -> by (unfold swap_color; by rewrite Hp, Hu).
  cbn [simulate_loop]. rewrite Hp, Hu.
  assert (Exists (fun a => Is_true (key_action a)) actions) as Hex'.
  { apply Exists_cons in Hex as [Hex|Hex]; [|done].
    unfold key_action in Hex. by rewrite Hp, Hu in Hex. }
  destruct (DIR_VECTORS a) as [d|]; [|by apply IH].
  destruct (negb _); [by destruct Hrun as [(?&?&?&?&?) _]|].
  destruct (decide _); [by destruct Hrun as [(?&?&?&?&?) _]|].
  destruct (doors !! _); [|by apply IH].
  destruct (decide _) as [Hin|]; [by apply elem_of_empty in Hin|].
  by destruct Hrun as [(?&?&?&?&?) _].
Qed.

End Replay.
End TokenFacts.

(** ** The navigation replay *)
Module FlagFacts.

Lemma spatial_one_flag obstacles grid_size dirs pos :
  let r := Spatial.simulate_loop obstacles grid_size dirs pos in
  ¬ (r.1.2 = true ∧ r.2 = true).
Proof.
  revert pos. induction dirs as [|d dirs IH]; intros pos;
    cbn [Spatial.simulate_loop].
  - by intros [? ?].
  - destruct (DIR_VECTORS d); [|by intros [? ?]].
    destruct (negb _); [by intros [? ?]|].
    destruct (decide _); [by intros [? ?]|]. apply IH.
Qed.

End FlagFacts.

(** ** The container simulation *)
Module LevelFacts.
Import Container ContainerFacts.

Lemma set_current_within containers k v :
  within_capacity containers ->
  (∀ c, containers !! k = Some c -> 0 ≤ v ≤ capacity c) ->
  within_capacity (set_current k v containers).
Proof.
  intros Hw Hv. unfold within_capacity. rewrite map_Forall_lookup.
  intros i x Hi. destruct (decide (k = i)) as [->|Hne].
  - destruct (containers !! i) as [c|] eqn:Hc.
    + rewrite (lookup_set_current_eq _ _ _ _ Hc) in Hi. simplify_eq.
      cbn. by apply Hv.
    + unfold set_current in Hi. by rewrite lookup_alter_eq, Hc in Hi.
  - rewrite lookup_set_current_ne in Hi by done.
    by apply (map_Forall_lookup_1 _ _ _ _ Hw Hi).
Qed.

Lemma dom_set_current containers k v :
  dom (set_current k v containers) = dom containers.
Proof. unfold set_current. by rewrite dom_alter_L. Qed.

(** A step that does not raise keeps the levels within the capacities, and
    changes neither the set of containers nor a capacity. *)
Lemma simulate_step_within containers action containers' :
  within_capacity containers ->
  simulate_step containers action = Some containers' ->
  within_capacity containers'
  ∧ dom containers' = dom containers
  ∧ ∀ k, capacity_of containers' k = capacity_of containers k.
Proof.
  intros Hw. unfold simulate_step.
  set (parts := String.words action).
  destruct (parts !! 0%nat) as [p0|]; cbn [mbind option_bind]; [|done].
  destruct (decide (p0 = "Pour")).
  { destruct (parts !! 2%nat) as [p2|]; cbn [mbind option_bind]; [|done].
    destruct (decide (p2 = "into")); [|by intros [= <-]].
    destruct (parts !! 1%nat) as [src|]; cbn [mbind option_bind]; [|done].
    destruct (parts !! 3%nat) as [dst|]; cbn [mbind option_bind]; [|done].
    destruct (containers !! src) as [src_c|] eqn:Hs;
      cbn [mbind option_bind]; [|done].
    destruct (containers !! dst) as [dst_c|] eqn:Hd;
      cbn [mbind option_bind]; [|done].
    set (amount := Z.min (current src_c) (capacity dst_c - current dst_c)).
    pose proof (map_Forall_lookup_1 _ _ _ _ Hw Hs) as Hsrc.
    pose proof (map_Forall_lookup_1 _ _ _ _ Hw Hd) as Hdst.
    cbn beta in Hsrc, Hdst.
    assert (0 ≤ amount ≤ current src_c
            ∧ amount ≤ capacity dst_c - current dst_c) as Ham
      by (unfold amount; lia).
    assert (within_capacity
              (set_current src (current src_c - amount) containers)) as Hw1.
    { apply set_current_within; [done|]. intros c Hc. simplify_eq. lia. }
    destruct (set_current src (current src_c - amount) containers !! dst)
      as [dst_c1|] eqn:Hd1; cbn [mbind option_bind]; [|done].
    intros [= <-]. split; [|split].
    - apply set_current_within; [done|]. intros c Hc. simplify_eq.
      destruct (decide (src = dst)) as [->|Hne].
      + rewrite (lookup_set_current_eq _ _ _ _ Hd) in Hd1. simplify_eq. cbn. lia.
      + rewrite lookup_set_current_ne in Hd1 by done. simplify_eq. lia.
    - by rewrite !dom_set_current.
    - intros k. by rewrite !cap_set_current. }
  destruct (decide (p0 = "Fill")).
  { destruct (parts !! 1%nat) as [tgt|]; cbn [mbind option_bind]; [|done].
    destruct (containers !! tgt) as [c|] eqn:Hc; cbn [mbind option_bind]; [|done].
    intros [= <-].
    pose proof (map_Forall_lookup_1 _ _ _ _ Hw Hc) as Hb. cbn beta in Hb.
    split; [|split].
    - apply set_current_within; [done|]. intros c' Hc'. simplify_eq. lia.
    - by rewrite dom_set_current.
    - intros k. by rewrite cap_set_current. }
  destruct (decide (p0 = "Empty")).
  { destruct (parts !! 1%nat) as [tgt|]; cbn [mbind option_bind]; [|done].
    destruct (containers !! tgt) as [c|] eqn:Hc; cbn [mbind option_bind]; [|done].
    intros [= <-].
    pose proof (map_Forall_lookup_1 _ _ _ _ Hw Hc) as Hb. cbn beta in Hb.
    split; [|split].
    - apply set_current_within; [done|]. intros c' Hc'. simplify_eq. lia.
    - by rewrite dom_set_current.
    - intros k. by rewrite cap_set_current. }
  by intros [= <-].
Qed.

Lemma replay_actions_within actions containers containers' :
  within_capacity containers ->
  replay_actions actions containers = Some containers' ->
  within_capacity containers'
  ∧ dom containers' = dom containers
  ∧ ∀ k, capacity_of containers' k = capacity_of containers k.
Proof.
  revert containers. induction actions as [|a actions IH]; intros containers Hw.
  - by intros [= <-].
  - cbn [replay_actions].
    destruct (simulate_step containers a) as [c1|] eqn:Hstep;
      cbn [mbind option_bind]; [|done].
    intros Hrest.
    destruct (simulate_step_within _ _ _ Hw Hstep) as (Hw1 & Hdom1 & Hcap1).
    destruct (IH _ Hw1 Hrest) as (Hw' & Hdom' & Hcap').
    split; [done|]. split; [congruence|]. intros k. by rewrite Hcap', Hcap1.
Qed.

Lemma replay_actions_app actions1 actions2 containers containers1 :
  replay_actions actions1 containers = Some containers1 ->
  replay_actions (actions1 ++ actions2) containers
  = replay_actions actions2 containers1.
Proof.
  revert containers. induction actions1 as [|a actions1 IH]; intros containers.
  - by intros [= <-].
  - cbn [replay_actions app].
    destruct (simulate_step containers a) as [c1|]; cbn [mbind option_bind];
      [|done].
    apply IH.
Qed.

End LevelFacts.

(** ** The random source: ranges *)
Module RangeFacts.
Import RngFacts.

Lemma randbelow_lt n r : (0 < n)%nat -> ((Rng.randbelow n r).1 < n)%nat.
Proof.
  intros Hn. unfold Rng.randbelow.
  destruct (Rng.step r (Rng.state r)) as [d s]. cbn [fst].
  apply Nat.mod_upper_bound. lia.
Qed.

Lemma choice_elem {A} (dflt : A) l r : l ≠ [] -> (Rng.choice dflt l r).1 ∈ l.
Proof.
  intros Hl. unfold Rng.choice. rewrite bind_run.
  change ((mret ?x : Rng.M A) ?r').1 with x.
  assert ((Rng.randbelow (length l) r).1 < length l)%nat as Hj.
  { apply randbelow_lt. destruct l; [done|cbn; lia]. }
  destruct (nth_lookup_or_length l (Rng.randbelow (length l) r).1 dflt)
    as [Hnth|?]; [|lia].
  by eapply list_elem_of_lookup_2.
Qed.

Lemma randint_range a b r : a ≤ b -> a ≤ (Rng.randint a b r).1 ≤ b.
Proof.
  intros Hab. unfold Rng.randint. rewrite bind_run.
  change ((mret ?x : Rng.M Z) ?r').1 with x.
  pose proof (randbelow_lt (Z.to_nat (b - a + 1)) r). lia.
Qed.

End RangeFacts.

(** ** The container sampler *)
Module ContainerSampler.
Import Container ContainerFacts LevelFacts RngFacts RangeFacts.

Definition names3 : list string := ["A"; "B"; "C"].

Lemma words_pour src dst :
  src ∈ names3 -> dst ∈ names3 ->
  String.words ("Pour " +:+ src +:+ " into " +:+ dst)
  = ["Pour"; src; "into"; dst].
Proof.
  unfold names3. rewrite !elem_of_cons, !elem_of_nil.
  intros [->|[->|[->|[]]]] [->|[->|[->|[]]]]; vm_compute; reflexivity.
Qed.

Lemma words_unary ty tgt :
  ty ∈ ["Pour"; "Fill"; "Empty"] -> tgt ∈ names3 ->
  String.words (ty +:+ " " +:+ tgt) = [ty; tgt].
Proof.
  unfold names3. rewrite !elem_of_cons, !elem_of_nil.
  intros [->|[->|[->|[]]]] [->|[->|[->|[]]]]; vm_compute; reflexivity.
Qed.

(** The action drawn in one pass of the loop of [generate_scenario] can be
    applied. *)
Lemma drawn_action_applies names k containers r :
  names ⊆ names3 -> (2 ≤ k)%nat -> (2 ≤ length names)%nat ->
  dom containers = list_to_set names ->
  let action :=
    ((action_type ← Rng.choice "" ["Pour"; "Fill"; "Empty"];
      (if bool_decide (action_type = "Pour") && bool_decide (2 ≤ k)%nat
       then
         pair ← Rng.sample names 2;
         mret ("Pour " +:+ nth 0 pair "" +:+ " into " +:+ nth 1 pair "")
       else
         tgt ← Rng.choice "" names;
         mret (action_type +:+ " " +:+ tgt))) r).1 in
  is_Some (simulate_step containers action).
Proof.
  intros Hsub Hk Hlen Hdom action. unfold action. clear action.
  rewrite bind_run.
  pose proof (choice_elem "" ["Pour"; "Fill"; "Empty"] r ltac:(done)) as Hty.
  set (ty := (Rng.choice "" ["Pour"; "Fill"; "Empty"] r).1) in *.
  set (r1 := (Rng.choice "" ["Pour"; "Fill"; "Empty"] r).2).
  assert (∀ x, x ∈ names -> is_Some (containers !! x)) as Hin.
  { intros x Hx. apply elem_of_dom. rewrite Hdom. by apply elem_of_list_to_set. }
  destruct (bool_decide (ty = "Pour") && bool_decide (2 ≤ k)%nat) eqn:Hcase.
  - rewrite bind_run. change ((mret ?x : Rng.M string) ?r').1 with x.
    destruct (SamplerFacts.sample_spec names 2 r1) as (Hl & _ & Hs).
    destruct ((Rng.sample names 2 r1).1) as [|src [|dst rest]];
      cbn [length] in Hl; [lia|lia|].
    cbn [nth].
    assert (src ∈ names) as Hsrc by (apply Hs, list_elem_of_here).
    assert (dst ∈ names) as Hdst
      by (apply Hs, list_elem_of_further, list_elem_of_here).
    destruct (Hin _ Hsrc) as [src_c Hsc]. destruct (Hin _ Hdst) as [dst_c Hdc].
    destruct (simulate_step_pour containers _ src dst [] src_c dst_c
                (words_pour _ _ (Hsub _ Hsrc) (Hsub _ Hdst)) Hsc Hdc)
      as (containers' & -> & _). by eexists.
  - rewrite bind_run. change ((mret ?x : Rng.M string) ?r').1 with x.
    assert (names ≠ []) as Hne by (destruct names; [cbn in Hlen; lia|done]).
    pose proof (choice_elem "" names r1 Hne) as Htgt.
    set (tgt := (Rng.choice "" names r1).1) in *.
    destruct (Hin _ Htgt) as [c Hc].
    pose proof (words_unary ty tgt Hty (Hsub _ Htgt)) as Hw.
    assert (ty = "Fill" ∨ ty = "Empty") as [Hfill|Hempty].
    { apply andb_false_iff in Hcase as [Hcase|Hcase].
      - apply bool_decide_eq_false in Hcase.
        rewrite !elem_of_cons, elem_of_nil in Hty. tauto.
      - apply bool_decide_eq_false in Hcase. lia. }
    + rewrite Hfill in Hw |- *.
      destruct (simulate_step_fill containers _ tgt [] c Hw Hc)
        as (containers' & -> & _). by eexists.
    + rewrite Hempty in Hw |- *.
      destruct (simulate_step_empty containers _ tgt [] c Hw Hc)
        as (containers' & -> & _). by eexists.
Qed.

Lemma draw_actions_spec n names k containers acts r :
  names ⊆ names3 -> (2 ≤ k)%nat -> (2 ≤ length names)%nat ->
  dom containers = list_to_set names ->
  within_capacity containers ->
  let res := (draw_actions n names k containers acts r).1 in
  ∃ new, res.2 = acts ++ new ∧ length new = n
         ∧ replay_actions new containers = Some res.1.
Proof.
  intros Hsub Hk Hlen. revert containers acts r.
  induction n as [|n IH]; intros containers acts r Hdom Hw.
  - exists []. by rewrite app_nil_r.
  - cbn [draw_actions].
    pose proof (drawn_action_applies names k containers r Hsub Hk Hlen Hdom)
      as Happ. cbv zeta in Happ.
    rewrite bind_run.
    rewrite bind_run in Happ.
    set (ty := (Rng.choice "" ["Pour"; "Fill"; "Empty"] r).1) in *.
    set (r1 := (Rng.choice "" ["Pour"; "Fill"; "Empty"] r).2) in *.
    rewrite bind_run.
    match type of Happ with
    | is_Some (simulate_step containers (?m r1).1) => set (drawn := m r1) in *
    end.
    destruct Happ as [c1 Hstep].
    destruct (simulate_step_within _ _ _ Hw Hstep) as (Hw1 & Hdom1 & _).
    rewrite Hstep. change (default containers (Some c1)) with c1.
    destruct (IH c1 (acts ++ [drawn.1]) drawn.2) as (new & Hacts & Hn & Hrun);
      [congruence|done|].
    exists (drawn.1 :: new). cbv zeta in Hacts, Hrun |- *. split; [|split].
    + rewrite Hacts. by rewrite <- app_assoc.
    + cbn [length]. by rewrite Hn.
    + cbn [replay_actions]. rewrite Hstep. exact Hrun.
Qed.

Lemma fill_containers_spec names containers r :
  within_capacity containers ->
  (∀ k c, containers !! k = Some c -> name c = k ∧ 2 ≤ capacity c ≤ 10) ->
  let res := (fill_containers names containers r).1 in
  within_capacity res
  ∧ dom res = list_to_set names ∪ dom containers
  ∧ ∀ k c, res !! k = Some c -> name c = k ∧ 2 ≤ capacity c ≤ 10.
Proof.
  revert containers r. induction names as [|k names IH]; intros containers r Hw Hc.
  - cbn. split; [done|]. split; [|done].
    by rewrite (left_id_L ∅ (∪)).
  - cbn [fill_containers]. rewrite !bind_run.
    pose proof (randint_range 2 10 r ltac:(lia)) as Hcap.
    set (cap := (Rng.randint 2 10 r).1) in *.
    set (r1 := (Rng.randint 2 10 r).2).
    pose proof (randint_range 0 cap r1 ltac:(lia)) as Hstart.
    set (start := (Rng.randint 0 cap r1).1) in *.
    set (r2 := (Rng.randint 0 cap r1).2).
    destruct (IH (<[k := mkContainer k cap start]> containers) r2)
      as (Hw' & Hdom' & Hc').
    + apply map_Forall_insert_2; [cbn; lia|done].
    + intros k' c' Hk'. destruct (decide (k = k')) as [->|Hne].
      * rewrite lookup_insert_eq in Hk'. simplify_eq. cbn. split; [done|lia].
      * rewrite lookup_insert_ne in Hk' by done. by apply Hc.
    + split; [done|]. split; [|done].
      cbv zeta in Hdom'. rewrite Hdom', dom_insert_L, list_to_set_cons.
      by rewrite (assoc_L (∪)), (comm_L (∪) (list_to_set names)).
Qed.

End ContainerSampler.

(** ** The generation loops *)
Module LoopFacts.
Import RngFacts.

Section Spatial.
Import Spatial.
Variable sha256_hex : string -> string.

Definition numbered (samples : list EvalDoc) : Prop :=
  doc_id <$> samples = seq 0 (length samples).

Lemma numbered_snoc samples doc :
  numbered samples -> doc_id doc = length samples -> numbered (samples ++ [doc]).
Proof.
  unfold numbered. intros Hn Hd.
  rewrite fmap_app, length_app, seq_app, Hn. cbn. by rewrite Hd.
Qed.

Lemma spatial_doc_id sc id r :
  doc_id (scenario_to_eval_doc sha256_hex sc id r).1 = id.
Proof. unfold scenario_to_eval_doc. by rewrite !bind_run. Qed.

Lemma spatial_main_body_numbered st r :
  numbered (samples st) -> numbered (samples (main_body sha256_hex st r).1).
Proof.
  intros Hn. unfold main_body. rewrite bind_run.
  destruct ((generate_scenario r).1) as [sc|]; [|done].
  rewrite bind_run. destruct (decide _); [done|].
  cbn [samples fst]. change ((mret ?x : Rng.M run) ?r').1 with x.
  cbn [samples]. apply numbered_snoc; [done|]. apply spatial_doc_id.
Qed.

Lemma spatial_main_loop_numbered fuel num_samples max_attempts st r st' :
  (main_loop sha256_hex fuel num_samples max_attempts st r).1 = Some st' ->
  numbered (samples st) -> numbered (samples st').
Proof.
  revert st r. induction fuel as [|fuel IH]; intros st r; cbn [main_loop].
  - destruct (_ && _); [done|]. by intros [= <-].
  - destruct (_ && _); [|by intros [= <-]].
    rewrite bind_run. intros Hrun Hn. eapply IH; [exact Hrun|].
    by apply spatial_main_body_numbered.
Qed.

End Spatial.

Section KeyLock.
Import KeyLock.
Variable render_prompt : KeyLockScenario -> string.
Variable fingerprint : Coord * Coord * gset Coord * gmap Coord string
                       * gmap Coord string -> string.

(** What holds of the documents collected so far. *)
Record collected (num_samples : Z) (st : run) : Prop := {
  col_ids : doc_id <$> docs st = seq 0 (length (docs st));
  col_shape :
    Forall (fun doc => length (choices doc) = 4%nat ∧ (gold doc < 4)%nat)
      (docs st);
  col_count : Z.of_nat (length (docs st)) ≤ Z.max 0 num_samples;
  col_attempts : Z.of_nat (length (docs st)) ≤ attempts st
}.

Lemma keylock_doc_id sc id r doc :
  (scenario_to_eval_doc render_prompt sc id r).1 = Some doc -> doc_id doc = id.
Proof.
  unfold scenario_to_eval_doc. rewrite bind_run.
  case_bool_decide; [done|]. rewrite bind_run.
  change ((mret ?x : Rng.M (option EvalDoc)) ?r').1 with x. by intros [= <-].
Qed.

Lemma keylock_main_body_attempts st r :
  attempts (main_body render_prompt fingerprint st r).1 = attempts st + 1.
Proof.
  unfold main_body. rewrite bind_run.
  destruct ((generate_scenario r).1) as [sc|]; [|done].
  destruct (decide _); [done|]. rewrite bind_run.
  by destruct ((scenario_to_eval_doc render_prompt sc _ _).1).
Qed.

Lemma keylock_main_body_collected num_samples st r :
  Z.of_nat (length (docs st)) < num_samples ->
  collected num_samples st ->
  collected num_samples (main_body render_prompt fingerprint st r).1.
Proof.
  intros Hlt [Hids Hshape Hcount Hatt].
  pose proof (keylock_main_body_attempts st r) as Hatt'.
  destruct (KeyLockRun.main_body_docs render_prompt fingerprint st r)
    as [Heq|(sc & doc & r' & _ & _ & Hdoc & Heq)]; cbv zeta in Heq.
  - split; rewrite ?Heq; [done|done|done|lia].
  - pose proof (keylock_doc_id _ _ _ _ Hdoc) as Hid.
    pose proof (KeyLockAssembly.keylock_doc_four_choices _ _ _ _ _ Hdoc) as H4.
    pose proof (KeyLockAssembly.keylock_doc_gold _ _ _ _ _ Hdoc) as Hgold.
    apply lookup_lt_Some in Hgold. rewrite H4 in Hgold.
    split; rewrite ?Heq.
    + rewrite fmap_app, length_app, seq_app, Hids. cbn. by rewrite Hid.
    + apply Forall_app. split; [done|]. by apply Forall_singleton.
    + rewrite length_app. cbn. lia.
    + rewrite length_app. cbn. lia.
Qed.

Lemma keylock_main_loop_result fuel num_samples st r st' :
  (main_loop render_prompt fingerprint fuel num_samples st r).1 = Some st' ->
  collected num_samples st ->
  collected num_samples st'
  ∧ ¬ (Z.of_nat (length (docs st')) < num_samples)
  ∧ attempts st ≤ attempts st' ≤ attempts st + Z.of_nat fuel.
Proof.
  revert st r. induction fuel as [|fuel IH]; intros st r; cbn [main_loop].
  - case_bool_decide; [done|]. intros [= <-] Hc. split; [done|]. split; [done|lia].
  - case_bool_decide as Hlt; [|intros [= <-] Hc; split; [done|]; split; [done|lia]].
    rewrite bind_run. intros Hrun Hc.
    destruct (IH _ _ Hrun (keylock_main_body_collected _ _ _ Hlt Hc))
      as (Hc' & Hexit & Hatt).
    rewrite keylock_main_body_attempts in Hatt. split; [done|]. split; [done|lia].
Qed.

End KeyLock.

Section Container.
Import Container.

(** What holds of a written record and the scenario it was built from. *)
Definition record_ok (w : Scenario * Sample) : Prop :=
  length (choices w.2) = 4%nat
  ∧ NoDup (choices w.2)
  ∧ choices w.2 !! gold w.2 = Some (dict_to_str (final_state w.1)).

Lemma container_main_body_ok r w :
  (main_body r).1 = Some w -> record_ok w.
Proof.
  destruct w as [sc sample]. intros Hbody. split; [|split]; cbn [fst snd].
  - by eapply ContainerAssembly.sample_four_choices.
  - destruct (ChoiceFacts.container_sample_choices r sc sample Hbody)
      as [r' Hperm].
    rewrite Hperm. cbn [fmap list_fmap].
    destruct (ChoiceFacts.container_distractors_distinct sc r') as [Hnd _].
    pose proof (ContainerAssembly.container_distractors_ok sc r') as Hok.
    apply NoDup_cons. split; [|done]. intros Hin.
    apply list_elem_of_fmap in Hin as (d & Heq & Hd).
    rewrite Forall_forall in Hok. by apply (Hok _ Hd).
  - by eapply ContainerAssembly.sample_gold_is_correct.
Qed.

Lemma container_main_loop_result fuel num_samples written r res :
  (main_loop fuel num_samples written r).1 = Some res ->
  Forall record_ok written ->
  Z.of_nat (length written) ≤ Z.max 0 num_samples ->
  Forall record_ok res ∧ Z.of_nat (length res) = Z.max 0 num_samples.
Proof.
  revert written r. induction fuel as [|fuel IH]; intros written r;
    cbn [main_loop].
  - case_bool_decide; [done|]. intros [= <-] Hok Hlen. split; [done|lia].
  - case_bool_decide as Hlt; [|intros [= <-] Hok Hlen; split; [done|lia]].
    rewrite bind_run.
    destruct ((main_body r).1) as [w|] eqn:Hbody; intros Hrun Hok Hlen.
    + eapply IH; [exact Hrun| |].
      * apply Forall_app. split; [done|]. apply Forall_singleton.
        by eapply container_main_body_ok.
      * rewrite length_app. cbn. lia.
    + by eapply IH.
Qed.

End Container.
End LoopFacts.

(** ** The key-lock sampler *)
Module KeyLockSampler.
Import KeyLock RngFacts.

(** An accepted layout is returned with the solution that the search found
    on it. *)
Lemma check_scenario_Some start end_ obstacles keys doors sc :
  check_scenario start end_ obstacles keys doors = Some sc ->
  ∃ path actions,
    bfs_with_keys start end_ obstacles keys doors GRID_SIZE = Some (path, actions)
    ∧ sc = mkKeyLockScenario GRID_SIZE start end_ obstacles keys doors
             (Some actions) (Some path).
Proof.
  unfold check_scenario.
  destruct (bfs_with_keys start end_ obstacles keys doors GRID_SIZE)
    as [[path actions]|]; [|done].
  intros H. exists path, actions. split; [done|].
  destruct (bfs_with_keys start end_ obstacles ∅ ∅ GRID_SIZE) as [[p ?]|];
    [|by simplify_eq].
  case_bool_decide; [|by simplify_eq].
  case_bool_decide; by simplify_eq.
Qed.

(** The cells and the number of pairs that [generate_scenario] lays out. *)
Lemma generate_scenario_layout r sc :
  (generate_scenario r).1 = Some sc ->
  ∃ c0 c1 c2 c3 c4 c5 c6 c7 rest,
    c0 :: c1 :: c2 :: c3 :: c4 :: c5 :: c6 :: c7 :: rest ≡ₚ all_coords GRID_SIZE
    ∧ (check_scenario c0 c1 (list_to_set [c4; c5])
         {[ c2 := "red" ]} {[ c3 := "red" ]} = Some sc
       ∨ check_scenario c0 c1 (list_to_set [c6; c7])
           (<[ c4 := "blue" ]> {[ c2 := "red" ]})
           (<[ c5 := "blue" ]> {[ c3 := "red" ]}) = Some sc).
Proof.
  unfold generate_scenario. rewrite bind_run.
  pose proof (shuffle_perm (all_coords GRID_SIZE) r) as Hperm.
  set (l := (Rng.shuffle (all_coords GRID_SIZE) r).1) in *.
  set (r1 := (Rng.shuffle (all_coords GRID_SIZE) r).2).
  assert (length l = 25%nat) as Hlen by (by rewrite Hperm).
  rewrite bool_decide_eq_false_2 by lia.
  rewrite bind_run.
  pose proof (RangeFacts.choice_elem 1%nat [1%nat; 2%nat] r1 ltac:(done)) as Hn.
  set (n := (Rng.choice 1%nat [1%nat; 2%nat] r1).1) in *.
  destruct l as [|c0 [|c1 [|c2 [|c3 [|c4 [|c5 [|c6 [|c7 rest]]]]]]]];
    try (cbn in Hlen; lia).
  intros Hsc. exists c0, c1, c2, c3, c4, c5, c6, c7, rest. split; [done|].
  rewrite !elem_of_cons, elem_of_nil in Hn.
  destruct Hn as [Hn|[Hn|[]]]; rewrite Hn in Hsc; [left|right]; exact Hsc.
Qed.

End KeyLockSampler.

(** ** The straight-line candidate *)
Module StraightFacts.
Import Spatial.

Section Replay.
Variables (obstacles : gset Coord) (grid_size : Z).

(** A replay that has stopped is not resumed. *)
Lemma simulate_loop_app_stop dirs1 dirs2 pos :
  let r := simulate_loop obstacles grid_size dirs1 pos in
  r.1.2 || r.2 = true ->
  simulate_loop obstacles grid_size (dirs1 ++ dirs2) pos = r.
Proof.
  revert pos. induction dirs1 as [|d dirs1 IH]; intros pos; cbn [simulate_loop app].
  - done.
  - destruct (DIR_VECTORS d); [|done].
    destruct (negb _); [done|]. destruct (decide _); [done|]. apply IH.
Qed.

(** [n] steps in one direction over cells of the grid: the replay hits an
    obstacle or arrives. *)
Lemma simulate_loop_leg d vec n pos :
  DIR_VECTORS d = Some vec ->
  (∀ i, 1 ≤ i ≤ Z.of_nat n ->
        in_bounds grid_size (pos.1 + i * vec.1, pos.2 + i * vec.2) = true) ->
  let r := simulate_loop obstacles grid_size (replicate n d) pos in
  r.2 = false
  ∧ (r.1.2 = true
     ∨ r = ((pos.1 + Z.of_nat n * vec.1, pos.2 + Z.of_nat n * vec.2),
            false, false)).
Proof.
  intros Hd. revert pos. induction n as [|n IH]; intros pos Hin.
  - cbn. split; [done|]. right. destruct pos as [a b]. cbn.
    do 2 f_equal. f_equal; lia.
  - cbn [replicate simulate_loop]. rewrite Hd.
    assert (move pos vec = (pos.1 + 1 * vec.1, pos.2 + 1 * vec.2)) as Hmove
      by (unfold move; f_equal; lia).
    assert (in_bounds grid_size (move pos vec) = true) as Hb
      by (rewrite Hmove; apply Hin; lia).
    rewrite Hb. cbn [negb].
    destruct (decide (move pos vec ∈ obstacles)); [cbn; split; [done|by left]|].
    destruct (IH (move pos vec)) as [Hob Hres].
    { intros i Hi. unfold move. cbn [fst snd].
      replace (pos.1 + vec.1 + i * vec.1) with (pos.1 + (i + 1) * vec.1) by lia.
      replace (pos.2 + vec.2 + i * vec.2) with (pos.2 + (i + 1) * vec.2) by lia.
      apply Hin. lia. }
    split; [done|]. destruct Hres as [?|Hres]; [by left|right].
    rewrite Hres. unfold move. cbn [fst snd]. do 2 f_equal. f_equal; lia.
Qed.

End Replay.

Lemma in_bounds_iff grid_size p :
  in_bounds grid_size p = true ↔ 0 ≤ p.1 < grid_size ∧ 0 ≤ p.2 < grid_size.
Proof.
  unfold in_bounds. rewrite !andb_true_iff, !Z.leb_le, !Z.ltb_lt. lia.
Qed.

(** The straight-line candidate has as many steps as the Manhattan distance,
    never leaves the grid, and either hits an obstacle or reaches the goal. *)
Lemma naive_dirs_replay sc :
  in_bounds GRID_SIZE (start sc) = true ->
  in_bounds GRID_SIZE (end_ sc) = true ->
  let r := simulate_loop (obstacles sc) GRID_SIZE (naive_dirs sc) (start sc) in
  Z.of_nat (length (naive_dirs sc)) = heuristic (start sc) (end_ sc)
  ∧ r.2 = false
  ∧ (r.1.2 = true ∨ r = (end_ sc, false, false)).
Proof.
  unfold naive_dirs, heuristic. rewrite !in_bounds_iff.
  destruct (start sc) as [sr sc_], (end_ sc) as [er ec]. cbn [fst snd].
  intros Hs He.
  set (d1 := if bool_decide (er > sr) then "down" else "up").
  set (d2 := if bool_decide (ec > sc_) then "right" else "left").
  set (n1 := Z.to_nat (Z.abs (er - sr))).
  set (n2 := Z.to_nat (Z.abs (ec - sc_))).
  split; [rewrite length_app, !length_replicate; lia|].
  assert (∃ vec1, DIR_VECTORS d1 = Some vec1 ∧ vec1.2 = 0
                  ∧ sr + Z.of_nat n1 * vec1.1 = er
                  ∧ (vec1.1 = 1 ∧ sr ≤ er ∨ vec1.1 = -1 ∧ er ≤ sr))
    as (vec1 & Hd1 & Hv1 & Hend1 & Hsign1).
  { unfold d1, n1. case_bool_decide.
    - exists (1, 0). cbn. split; [done|]. split; [done|]. lia.
    - exists (-1, 0). cbn. split; [done|]. split; [done|]. lia. }
  assert (∃ vec2, DIR_VECTORS d2 = Some vec2 ∧ vec2.1 = 0
                  ∧ sc_ + Z.of_nat n2 * vec2.2 = ec
                  ∧ (vec2.2 = 1 ∧ sc_ ≤ ec ∨ vec2.2 = -1 ∧ ec ≤ sc_))
    as (vec2 & Hd2 & Hv2 & Hend2 & Hsign2).
  { unfold d2, n2. case_bool_decide.
    - exists (0, 1). cbn. split; [done|]. split; [done|]. lia.
    - exists (0, -1). cbn. split; [done|]. split; [done|]. lia. }
  destruct (simulate_loop_leg (obstacles sc) GRID_SIZE d1 vec1 n1 (sr, sc_) Hd1)
    as [Hob1 Hres1].
  { intros i Hi. apply in_bounds_iff. cbn [fst snd]. rewrite Hv1. nia. }
  cbn [fst snd] in Hres1. rewrite Hv1, Hend1, Z.mul_0_r, Z.add_0_r in Hres1.
  destruct Hres1 as [Hwall|Hres1].
  { rewrite simulate_loop_app_stop by (by rewrite Hwall).
    split; [done|by left]. }
  rewrite (ReplayFacts.simulate_loop_app _ _ _ _ _ _ Hres1).
  destruct (simulate_loop_leg (obstacles sc) GRID_SIZE d2 vec2 n2 (er, sc_) Hd2)
    as [Hob2 Hres2].
  { intros i Hi. apply in_bounds_iff. cbn [fst snd]. rewrite Hv2. nia. }
  cbn [fst snd] in Hres2. rewrite Hv2, Hend2, Z.mul_0_r, Z.add_0_r in Hres2.
  split; [done|]. destruct Hres2 as [?|Hres2]; [by left|by right].
Qed.

End StraightFacts.

(** ** The rules of the key-lock puzzle and the replay *)
Module RuleFacts.
Import KeyLock.

Section Replay.
Variables (obstacles : gset Coord) (keys doors : gmap Coord string)
          (grid_size : Z).

(** Permitted actions are replayed without a violation, to the same state. *)
Lemma performs_completes actions s s' :
  performs obstacles keys doors grid_size actions s s' ->
  ReplayFacts.kl_completes obstacles keys doors grid_size actions s.1 s.2
    s'.1 s'.2.
Proof.
  unfold ReplayFacts.kl_completes, ReplayFacts.clean.
  induction 1 as [s|color actions pos inv s' Hkey Hnew _ IH
                  |color actions pos inv s' Hheld _ IH
                  |a d actions pos inv s' Hd [Hb Ho] Hdoor _ IH
                  |a actions s s' Hskip _ IH];
    cbn [fst snd simulate_loop] in *.
  - done.
  - rewrite BfsFacts.prefix_pick_up, BfsFacts.strip_pick_up.
    rewrite bool_decide_eq_true_2 by done.
    rewrite bool_decide_eq_true_2 by done. exact IH.
  - destruct (BfsFacts.prefix_unlock color) as [-> ->].
    rewrite BfsFacts.strip_unlock. rewrite decide_True by done. exact IH.
  - destruct (BfsFacts.dir_vectors_token _ _ Hd) as (_ & -> & ->).
    rewrite Hd, Hb. cbn [negb]. rewrite decide_False by done.
    destruct (doors !! move pos d) as [door_color|] eqn:Hdc; [|exact IH].
    rewrite decide_True by (by apply Hdoor). exact IH.
  - unfold known_action in Hskip.
    apply orb_false_iff in Hskip as [Hskip Hdir].
    apply orb_false_iff in Hskip as [-> ->].
    apply bool_decide_eq_false in Hdir.
    destruct (DIR_VECTORS a) as [d|]; [exfalso; apply Hdir; by eexists|].
    exact IH.
Qed.

End Replay.
End RuleFacts.

(** ** Renderings and their tokens *)
Module JoinFacts.

Lemma append_cons a s t : String a s +:+ t = String a (s +:+ t).
Proof. reflexivity. Qed.

Lemma append_nil t : "" +:+ t = t.
Proof. reflexivity. Qed.

Lemma comma_free_app s t :
  comma_free (s +:+ t) = comma_free s && comma_free t.
Proof.
  induction s as [|a s IH]; [done|]. rewrite append_cons. cbn [comma_free].
  rewrite IH. by rewrite andb_assoc.
Qed.

(** What follows a token in a rendering: nothing, or a separator. *)
Definition tail_ok (x : string) : Prop :=
  x = "" ∨ ∃ y, x = String (Ascii.ascii_of_nat 44) y.

Lemma comma_free_head a s :
  comma_free (String a s) = true -> a ≠ Ascii.ascii_of_nat 44.
Proof.
  cbn [comma_free]. intros H Heq. subst a.
  by rewrite Ascii.eqb_refl in H.
Qed.

Lemma token_split s t x y :
  comma_free s = true -> comma_free t = true -> tail_ok x -> tail_ok y ->
  s +:+ x = t +:+ y -> s = t ∧ x = y.
Proof.
  revert t. induction s as [|a s IH]; intros t Hs Ht Hx Hy Heq.
  - destruct t as [|b t]; [done|]. rewrite append_nil, append_cons in Heq.
    apply comma_free_head in Ht.
    destruct Hx as [->|[x' ->]]; [done|]. by injection Heq as <- _.
  - destruct t as [|b t]; rewrite ?append_nil, ?append_cons in Heq.
    + apply comma_free_head in Hs.
      destruct Hy as [->|[y' ->]]; [done|]. by injection Heq as -> _.
    + injection Heq as -> Heq.
      cbn [comma_free] in Hs, Ht.
      apply andb_true_iff in Hs as [_ Hs]. apply andb_true_iff in Ht as [_ Ht].
      destruct (IH t Hs Ht Hx Hy Heq) as [-> ->]. done.
Qed.

(** The rendering as the first token and what follows it. *)
Definition rest_of (l : list string) : string :=
  match l with [] => "" | _ => ", " +:+ join ", " l end.

Lemma join_cons s l : join ", " (s :: l) = s +:+ rest_of l.
Proof.
  destruct l as [|t l]; cbn [join rest_of].
  - induction s as [|a s IH]; [done|]. rewrite append_cons. by rewrite <- IH.
  - done.
Qed.

Lemma rest_of_tail_ok l : tail_ok (rest_of l).
Proof. destruct l; [by left|right]. cbn. by eexists. Qed.

Lemma join_inj l1 l2 :
  Forall token l1 -> Forall token l2 ->
  join ", " l1 = join ", " l2 -> l1 = l2.
Proof.
  revert l2. induction l1 as [|s l1 IH]; intros l2 H1 H2 Heq.
  - destruct l2 as [|t l2]; [done|]. rewrite join_cons in Heq.
    apply Forall_cons in H2 as [[Ht _] _]. destruct t; [done|]. done.
  - destruct l2 as [|t l2].
    { rewrite join_cons in Heq. apply Forall_cons in H1 as [[Hs _] _].
      destruct s; [done|]. done. }
    rewrite !join_cons in Heq.
    apply Forall_cons in H1 as [[_ Hs] H1]. apply Forall_cons in H2 as [[_ Ht] H2].
    destruct (token_split _ _ _ _ Hs Ht (rest_of_tail_ok _) (rest_of_tail_ok _) Heq)
      as [-> Hrest].
    f_equal. destruct l1 as [|s1 l1], l2 as [|t2 l2]; cbn [rest_of] in Hrest;
      [done|done|done|].
    apply IH; [done|done|]. rewrite !append_cons, !append_nil in Hrest.
    by simplify_eq.
Qed.

(** The tokens that the generators write. *)
Lemma token_direction d : is_Some (DIR_VECTORS d) -> token d.
Proof.
  unfold DIR_VECTORS. intros [v Hv].
  repeat case_decide; simplify_eq; by split.
Qed.

Lemma token_dir_name d : d ∈ Spatial.all_dir_names -> token d.
Proof.
  unfold Spatial.all_dir_names. rewrite !elem_of_cons, elem_of_nil.
  intros [->|[->|[->|[->|[]]]]]; by split.
Qed.

Lemma token_prefixed p color :
  p ≠ "" -> comma_free p = true -> comma_free color = true ->
  token (p +:+ color).
Proof.
  intros Hp Hfree Hc. split.
  - destruct p; [done|]. done.
  - by rewrite comma_free_app, Hfree, Hc.
Qed.

End JoinFacts.

(** ** The candidates of the distractor generators are lists of tokens *)
Module TokenPool.
Import RngFacts JoinFacts.

Lemma replicateM_Forall {A} (P : A -> Prop) n (m : Rng.M A) r :
  (∀ r', P (m r').1) -> Forall P (Rng.replicateM n m r).1.
Proof.
  intros Hm. revert r. induction n as [|n IH]; intros r; cbn [Rng.replicateM].
  - apply Forall_nil_2.
  - rewrite !bind_run. apply Forall_cons. split; [apply Hm|apply IH].
Qed.

Lemma Forall_filter_keep {A} (P Q : A -> Prop) `{!∀ x, Decision (Q x)} l :
  Forall P l -> Forall P (filter Q l).
Proof.
  rewrite !Forall_forall. intros Hl x Hx.
  apply list_elem_of_filter in Hx as [_ Hx]. by apply Hl.
Qed.

Lemma choice_dir_name r : token (Rng.choice "" Spatial.all_dir_names r).1.
Proof. apply token_dir_name, RangeFacts.choice_elem. done. Qed.

Section Spatial.
Import Spatial.
Variable sc : GridScenario.

(** A string that renders a list of tokens that the validator refuses. *)
Definition refused (s : string) : Prop :=
  ∃ dirs, Forall token dirs ∧ s = join ", " dirs
          ∧ is_path_physically_invalid (start sc) (end_ sc) (obstacles sc)
              dirs GRID_SIZE = true.

Lemma spatial_try_add_refused st dirs :
  Forall token dirs -> Forall refused st.1 ->
  Forall refused (try_add sc st dirs).1.
Proof.
  intros Htok Hall. unfold try_add.
  destruct (decide (join ", " dirs ∈ st.2)); [done|].
  destruct (is_path_physically_invalid _ _ _ dirs _) eqn:Hinv; cbn [negb fst];
    [|done].
  apply Forall_app. split; [done|]. apply Forall_singleton. by exists dirs.
Qed.

Lemma spatial_random_walks_refused n k correct st r :
  Forall refused st.1 -> Forall refused (random_walks n sc k correct st r).1.1.
Proof.
  revert st r. induction n as [|n IH]; intros st r Hst; [done|].
  cbn [random_walks]. case_bool_decide; [done|].
  rewrite bind_run. apply IH. apply spatial_try_add_refused; [|done].
  apply replicateM_Forall. intros r'. apply choice_dir_name.
Qed.

Lemma spatial_mutations_refused n k correct st r :
  Forall token correct ->
  Forall refused st.1 -> Forall refused (mutations n sc k correct st r).1.1.
Proof.
  intros Hcorrect. revert st r. induction n as [|n IH]; intros st r Hst; [done|].
  cbn [mutations]. case_bool_decide; [done|].
  rewrite !bind_run. apply IH. apply spatial_try_add_refused; [|done].
  apply Forall_insert; [done|]. apply choice_dir_name.
Qed.

Lemma naive_dirs_tokens : Forall token (naive_dirs sc).
Proof.
  unfold naive_dirs. destruct (start sc) as [sr sc_], (end_ sc) as [er ec].
  apply Forall_app. split; apply Forall_replicate; case_bool_decide; by split.
Qed.

Lemma opposite_token d : token d -> token (opposite d).
Proof. unfold opposite. intros Hd. repeat case_decide; try done; by split. Qed.

Lemma spatial_distractors_refused k r :
  spatial_tokens sc -> Forall refused (generate_distractors sc k r).1.
Proof.
  intros Htok. unfold generate_distractors.
  destruct (path_directions sc) as [[|d correct]|] eqn:Hpath;
    [apply Forall_nil_2| |apply Forall_nil_2].
  specialize (Htok _ Hpath).
  set (dirs := d :: correct) in *.
  set (st0 := ([], {[join ", " dirs]}) : pool).
  assert (Forall refused st0.1) as H0 by apply Forall_nil_2.
  rewrite bind_run.
  set (st2 := (random_walks 50 sc k dirs (try_add sc st0 (naive_dirs sc)) r)).
  assert (Forall refused st2.1.1) as H2.
  { apply spatial_random_walks_refused, spatial_try_add_refused; [|done].
    apply naive_dirs_tokens. }
  set (st3 := if bool_decide (length st2.1.1 < k)%nat
              then try_add sc st2.1 (opposite <$> reverse dirs) else st2.1).
  assert (Forall refused st3.1) as H3.
  { unfold st3. case_bool_decide; [|done].
    apply spatial_try_add_refused; [|done].
    apply Forall_fmap, Forall_reverse.
    eapply Forall_impl; [exact Htok|]. intros x. apply opposite_token. }
  rewrite bind_run.
  match goal with |- Forall _ (mret (take k ?x.1.1) _).1 =>
    assert (Forall refused x.1.1) as H4 end.
  { destruct (_ && _); [by apply spatial_mutations_refused|done]. }
  unfold mret, Rng.M_ret. cbn [fst]. by apply Forall_take.
Qed.

End Spatial.

Section SpatialDocs.
Import Spatial.
Variable sha256_hex : string -> string.

(** A choice that is not the gold one is one of the distractors. *)
Lemma spatial_doc_distractor sc id r i c :
  let doc := (scenario_to_eval_doc sha256_hex sc id r).1 in
  choices doc !! i = Some c -> i ≠ gold doc ->
  c ∈ (generate_distractors sc 3 r).1.
Proof.
  intros doc Hi Hne.
  destruct (SpatialAssembly.spatial_doc_shape sha256_hex sc id r)
    as (ds & ps & Hds & Hp & Hc & Hg).
  fold doc in Hc, Hg. rewrite Hc in Hi. rewrite Hg in Hne.
  destruct (ListFacts.gold_position _ _ _ Hp) as (g & Hfind & Hlk).
  rewrite Hfind in Hne. cbn [from_option fst] in Hne.
  rewrite list_lookup_fmap in Hi.
  destruct (ps !! i) as [[j c']|] eqn:Hpi; [|done]. cbn in Hi.
  injection Hi as ->.
  pose proof (ListFacts.numbered_lookup _ _ _ _ _ Hp Hpi) as Hj.
  destruct j as [|j].
  { exfalso. apply Hne. eapply ListFacts.numbered_index_unique; eauto. }
  cbn in Hj. apply list_elem_of_lookup_2 in Hj. by subst ds.
Qed.

End SpatialDocs.

Section KeyLock.
Import KeyLock.
Variable sc : KeyLockScenario.

Definition kl_refused (s : string) : Prop :=
  ∃ acts, Forall token acts ∧ s = join ", " acts
          ∧ is_action_seq_invalid (start sc) (end_ sc) (obstacles sc)
              (keys sc) (doors sc) acts GRID_SIZE = true.

Lemma keylock_try_add_refused st acts :
  Forall token acts -> Forall kl_refused st.1 ->
  Forall kl_refused (try_add sc st acts).1.
Proof.
  intros Htok Hall. unfold try_add.
  destruct (decide (join ", " acts ∈ st.2)); [done|].
  destruct (is_action_seq_invalid _ _ _ _ _ acts _) eqn:Hinv; cbn [negb fst];
    [|done].
  apply Forall_app. split; [done|]. apply Forall_singleton. by exists acts.
Qed.

Lemma remove_first_names x :
  let directions := remove_first x ["up"; "down"; "left"; "right"] in
  directions ≠ [] ∧ directions ⊆ Spatial.all_dir_names.
Proof.
  cbn [remove_first]. unfold Spatial.all_dir_names.
  repeat case_decide; (split; [done|]); intros y Hy;
    rewrite !elem_of_cons in Hy; rewrite !elem_of_cons; tauto.
Qed.

Lemma keylock_mutations_refused n k correct st r :
  Forall token correct ->
  Forall kl_refused st.1 ->
  Forall kl_refused (mutations n sc k correct st r).1.1.
Proof.
  intros Hcorrect. revert st r. induction n as [|n IH]; intros st r Hst; [done|].
  cbn [mutations]. case_bool_decide; [done|].
  destruct (move_indices correct) as [|i0 indices]; [by apply IH|].
  rewrite !bind_run. apply IH. apply keylock_try_add_refused; [|done].
  apply Forall_insert; [done|].
  match goal with |- token (Rng.choice "" (remove_first ?x _) ?r').1 =>
    destruct (remove_first_names x) as [Hne Hsub];
    apply token_dir_name, Hsub, (RangeFacts.choice_elem "" _ r' Hne)
  end.
Qed.

Lemma choice_colour (m : gmap Coord string) r :
  m ≠ ∅ -> ∃ p, m !! p = Some (Rng.choice "" (snd <$> map_to_list m) r).1.
Proof.
  intros Hm.
  assert (snd <$> map_to_list m ≠ []) as Hne.
  { intros Heq. apply fmap_nil_inv in Heq. by apply map_to_list_empty_iff in Heq. }
  pose proof (RangeFacts.choice_elem "" _ r Hne) as Hin.
  apply list_elem_of_fmap in Hin as ([p c] & -> & Hpc).
  exists p. by apply elem_of_map_to_list in Hpc.
Qed.

Lemma random_action_token r :
  keylock_tokens sc -> token (random_action sc r).1.
Proof.
  intros (_ & Hkeys & Hdoors). unfold random_action. rewrite bind_run.
  destruct (_ && bool_decide (keys sc ≠ ∅)) eqn:Hk.
  - rewrite bind_run. change ((mret ?x : Rng.M string) ?r').1 with x.
    apply andb_true_iff in Hk as [_ Hk]. apply bool_decide_eq_true in Hk.
    match goal with |- token (_ +:+ (Rng.choice "" _ ?r').1) =>
      destruct (choice_colour (keys sc) r' Hk) as [p Hp] end.
    apply token_prefixed; [done|done|]. by eapply Hkeys.
  - rewrite bind_run.
    destruct (_ && bool_decide (doors sc ≠ ∅)) eqn:Hd.
    + rewrite bind_run. change ((mret ?x : Rng.M string) ?r').1 with x.
      apply andb_true_iff in Hd as [_ Hd]. apply bool_decide_eq_true in Hd.
      match goal with |- token (_ +:+ (Rng.choice "" _ ?r').1) =>
        destruct (choice_colour (doors sc) r' Hd) as [p Hp] end.
      apply token_prefixed; [done|done|]. by eapply Hdoors.
    + apply choice_dir_name.
Qed.

Lemma keylock_random_walks_refused n k correct st r :
  keylock_tokens sc ->
  Forall kl_refused st.1 ->
  Forall kl_refused (random_walks n sc k correct st r).1.1.
Proof.
  intros Htok. revert st r. induction n as [|n IH]; intros st r Hst; [done|].
  cbn [random_walks]. case_bool_decide; [done|].
  rewrite !bind_run. apply IH. apply keylock_try_add_refused; [|done].
  apply replicateM_Forall. intros r'. by apply random_action_token.
Qed.

Lemma other_color_free color : comma_free (other_color color) = true.
Proof. unfold other_color. by case_decide. Qed.

Lemma swap_color_token a : token a -> token (swap_color a).
Proof.
  intros Ha. unfold swap_color.
  destruct (String.prefix "pick_up_" a);
    [apply token_prefixed; [done|done|apply other_color_free]|].
  destruct (String.prefix "unlock_" a);
    [apply token_prefixed; [done|done|apply other_color_free]|done].
Qed.

Lemma keylock_distractors_refused k r :
  keylock_tokens sc -> Forall kl_refused (generate_distractors sc k r).1.
Proof.
  intros Htok. pose proof Htok as (Hcorrect & _ & _).
  unfold generate_distractors.
  destruct (solution_actions sc) as [[|a correct]|] eqn:Hsol;
    [apply Forall_nil_2| |apply Forall_nil_2].
  specialize (Hcorrect _ eq_refl).
  set (acts := a :: correct) in *.
  set (st0 := ([], {[join ", " acts]}) : pool).
  assert (Forall kl_refused st0.1) as H0 by apply Forall_nil_2.
  set (st1 := try_add sc st0 _).
  assert (Forall kl_refused st1.1) as H1.
  { apply keylock_try_add_refused; [|done]. by apply Forall_filter_keep. }
  set (st2 := try_add sc st1 _).
  assert (Forall kl_refused st2.1) as H2.
  { apply keylock_try_add_refused; [|done]. by apply Forall_filter_keep. }
  set (st3 := if bool_decide (keys sc ≠ ∅) then _ else st2).
  assert (Forall kl_refused st3.1) as H3.
  { unfold st3. case_bool_decide; [|done].
    apply keylock_try_add_refused; [|done]. apply Forall_fmap.
    eapply Forall_impl; [exact Hcorrect|]. intros x. apply swap_color_token. }
  rewrite !bind_run. unfold mret, Rng.M_ret. cbn [fst].
  apply Forall_take. apply keylock_random_walks_refused; [done|].
  by apply keylock_mutations_refused.
Qed.

End KeyLock.

Section KeyLockDocs.
Import KeyLock.
Variable render_prompt : KeyLockScenario -> string.

Lemma keylock_doc_distractor sc id r doc i c :
  (scenario_to_eval_doc render_prompt sc id r).1 = Some doc ->
  choices doc !! i = Some c -> i ≠ gold doc ->
  c ∈ (generate_distractors sc 3 r).1.
Proof.
  intros Hdoc Hi Hne.
  destruct (KeyLockAssembly.keylock_doc_shape _ _ _ _ _ Hdoc)
    as (d1 & d2 & d3 & order & Hds & Hp & Hc & Hg).
  rewrite Hc in Hi. rewrite Hg in Hne.
  destruct (KeyLockAssembly.order_gold _ Hp) as (g & Hfind & Hlk).
  rewrite Hfind in Hne. cbn [from_option fst] in Hne.
  rewrite list_lookup_fmap in Hi.
  destruct (order !! i) as [j|] eqn:Hj; [|done]. cbn in Hi.
  injection Hi as <-.
  assert (j ≠ 3%nat) as Hj3.
  { intros ->. apply Hne.
    eapply NoDup_lookup; [|exact Hj|exact Hlk]. rewrite Hp. apply NoDup_seq. }
  assert (j ∈ seq 0 4) as Hin.
  { rewrite <-Hp. by eapply list_elem_of_lookup_2. }
  assert (nth j [d1; d2; d3; correct_str sc] "" ∈ [d1; d2; d3]) as Hmem.
  { apply elem_of_seq in Hin.
    destruct j as [|[|[|j]]]; cbn; [rewrite !elem_of_cons; tauto..|lia]. }
  rewrite <- Hds in Hmem.
  eapply elem_of_sublist; [exact Hmem|apply sublist_take].
Qed.

End KeyLockDocs.

(** *** The answers of the samplers are lists of tokens *)

Lemma path_to_directions_tokens path dirs :
  Spatial.path_to_directions path = Some dirs -> Forall token dirs.
Proof.
  revert dirs. induction path as [|p [|q rest] IH]; intros dirs H.
  - simplify_eq/=. apply Forall_nil_2.
  - simplify_eq/=. apply Forall_nil_2.
  - change (Spatial.path_to_directions (p :: q :: rest)) with
      (d ← DIR_NAMES (q.1 - p.1, q.2 - p.2);
       l ← Spatial.path_to_directions (q :: rest); Some (d :: l)) in H.
    destruct (DIR_NAMES _) as [d|] eqn:Hd; [|done].
    destruct (Spatial.path_to_directions (q :: rest)) as [l|] eqn:Hl; [|done].
    cbn [mbind option_bind] in H. simplify_eq.
    apply Forall_cons. split; [|by apply IH].
    apply token_direction. apply FollowFacts.dir_names_vectors in Hd. by eexists.
Qed.

Lemma spatial_generated_tokens r sc :
  (Spatial.generate_scenario r).1 = Some sc -> spatial_tokens sc.
Proof.
  unfold Spatial.generate_scenario. rewrite bind_run.
  destruct ((Rng.sample _ _ r).1) as [|start [|end_ rest]]; [done|done|].
  destruct (Spatial.a_star _ _ _ _) as [path|]; [|done].
  intros [= <-] correct. cbn [Spatial.path_directions].
  apply path_to_directions_tokens.
Qed.

Section Search.
Import KeyLock.
Variables (end_ : Coord) (obstacles : gset Coord)
          (keys doors : gmap Coord string) (grid_size : Z).
Hypothesis Hkeys : ∀ p color, keys !! p = Some color -> comma_free color = true.
Hypothesis Hdoors : ∀ p color, doors !! p = Some color -> comma_free color = true.

Definition item_tokens (it : Item) : Prop := Forall token it.2.

Lemma enqueue_tokens fr s path actions :
  Forall item_tokens fr.2 -> Forall token actions ->
  Forall item_tokens (enqueue fr s path actions).2.
Proof.
  intros Hq Ha. unfold enqueue. destruct (decide _); [done|].
  cbn [snd]. apply Forall_app. split; [done|]. by apply Forall_singleton.
Qed.

Lemma try_pickup_tokens it fr :
  item_tokens it -> Forall item_tokens fr.2 ->
  Forall item_tokens (try_pickup keys it fr).2.
Proof.
  destruct it as [[[pos inv] path] actions]. intros Hit Hq. unfold try_pickup.
  destruct (keys !! pos) as [color|] eqn:Hk; [|done].
  destruct (decide _); [done|]. apply enqueue_tokens; [done|].
  apply Forall_app. split; [done|]. apply Forall_singleton.
  apply token_prefixed; [done|done|]. by eapply Hkeys.
Qed.

Lemma try_move_tokens it fr d :
  item_tokens it -> Forall item_tokens fr.2 ->
  Forall item_tokens (try_move obstacles doors grid_size it fr d).2.
Proof.
  destruct it as [[[pos inv] path] actions]. intros Hit Hq. unfold try_move.
  destruct (negb _); [done|]. destruct (decide _); [done|].
  destruct (DIR_NAMES d) as [dir_name|] eqn:Hd; [|done].
  assert (token dir_name) as Hname.
  { apply token_direction. apply FollowFacts.dir_names_vectors in Hd. by eexists. }
  destruct (doors !! move pos d) as [door_color|] eqn:Hdoor.
  - destruct (decide _); [|done]. apply enqueue_tokens; [done|].
    apply Forall_app. split; [done|].
    apply Forall_cons. split; [|by apply Forall_singleton].
    apply token_prefixed; [done|done|]. by eapply Hdoors.
  - apply enqueue_tokens; [done|].
    apply Forall_app. split; [done|]. by apply Forall_singleton.
Qed.

Lemma try_move_fold_tokens it ds fr :
  item_tokens it -> Forall item_tokens fr.2 ->
  Forall item_tokens
    (fold_left (try_move obstacles doors grid_size it) ds fr).2.
Proof.
  intros Hit. revert fr. induction ds as [|d ds IH]; intros fr Hq; [done|].
  cbn [fold_left]. apply IH. by apply try_move_tokens.
Qed.

Lemma bfs_loop_tokens fuel fr path actions :
  Forall item_tokens fr.2 ->
  bfs_loop fuel end_ obstacles keys doors grid_size fr = Found (path, actions) ->
  Forall token actions.
Proof.
  revert fr. induction fuel as [|fuel IH]; intros fr Hq; [done|].
  cbn [bfs_loop]. destruct fr as [visited [|it queue]]; [done|].
  cbn [fst snd]. apply Forall_cons in Hq as [Hit Hq].
  destruct (decide _); [by intros [= <- <-]|].
  apply IH. apply try_move_fold_tokens; [done|]. by apply try_pickup_tokens.
Qed.

Lemma bfs_with_keys_tokens start path actions :
  bfs_with_keys start end_ obstacles keys doors grid_size = Some (path, actions) ->
  Forall token actions.
Proof.
  unfold bfs_with_keys.
  destruct (bfs_loop _ _ _ _ _ _ _) as [[p a]| |] eqn:Hloop; [|done|done].
  intros [= <- <-]. eapply bfs_loop_tokens; [|exact Hloop].
  apply Forall_singleton. apply Forall_nil_2.
Qed.

End Search.

Lemma keylock_generated_tokens r sc :
  (KeyLock.generate_scenario r).1 = Some sc -> keylock_tokens sc.
Proof.
  intros Hgen.
  destruct (KeyLockSampler.generate_scenario_layout r sc Hgen)
    as (c0 & c1 & c2 & c3 & c4 & c5 & c6 & c7 & rest & _ & Hcheck).
  assert (∀ c : Coord, ∀ p color,
            ({[ c := "red" ]} : gmap Coord string) !! p = Some color ->
            comma_free color = true) as Hone.
  { intros c p color Hp. by apply lookup_singleton_Some in Hp as [_ <-]. }
  assert (∀ c c' : Coord, ∀ p color,
            (<[ c' := "blue" ]> {[ c := "red" ]} : gmap Coord string) !! p
            = Some color -> comma_free color = true) as Htwo.
  { intros c c' p color Hp. apply lookup_insert_Some in Hp as [[_ <-]|[_ Hp]];
      [done|]. by apply lookup_singleton_Some in Hp as [_ <-]. }
  destruct Hcheck as [Hcheck|Hcheck].
  - destruct (KeyLockSampler.check_scenario_Some _ _ _ _ _ _ Hcheck)
      as (path & actions & Hbfs & ->).
    split; [|split];
      cbn [KeyLock.solution_actions KeyLock.keys KeyLock.doors].
    + intros correct [= <-].
      eapply bfs_with_keys_tokens; [apply Hone|apply Hone|exact Hbfs].
    + apply Hone.
    + apply Hone.
  - destruct (KeyLockSampler.check_scenario_Some _ _ _ _ _ _ Hcheck)
      as (path & actions & Hbfs & ->).
    split; [|split];
      cbn [KeyLock.solution_actions KeyLock.keys KeyLock.doors].
    + intros correct [= <-].
      eapply bfs_with_keys_tokens; [apply Htwo|apply Htwo|exact Hbfs].
    + apply Htwo.
    + apply Htwo.
Qed.

End TokenPool.

(** * The claims of the specification *)

(** C8: the container simulation applies each action deterministically.
    For an action whose words are [Pour src into dst], the step moves
    [min (current src) (capacity dst - current dst)] from the source to the
    destination (two different containers), a pour of a container into
    itself leaves its level as it was; [Fill tgt] sets the level of the
    target to its capacity; [Empty tgt] sets it to zero.  No other container
    and no capacity changes.  From A (capacity 10, level 0) and B (capacity 5,
    level 5), the action "Pour B into A" yields A = 5 and B = 0. *)
Theorem simulate_step_applies_action
    (containers : gmap string Container.Container) (action a b : string)
    (rest : list string) (ca cb : Container.Container) :
  containers !! a = Some ca ->
  containers !! b = Some cb ->
  let level := level_of in
  let cap := capacity_of in
  let untouched (containers' : gmap string Container.Container) (touched : list string) :=
    (∀ k, k ∉ touched -> containers' !! k = containers !! k)
    ∧ (∀ k, cap containers' k = cap containers k) in
  (String.words action = "Pour" :: a :: "into" :: b :: rest ->
   let amount :=
     Z.min (Container.current ca) (Container.capacity cb - Container.current cb) in
   ∃ containers',
     Container.simulate_step containers action = Some containers'
     ∧ (a ≠ b ->
        level containers' a = Some (Container.current ca - amount)
        ∧ level containers' b = Some (Container.current cb + amount))
     ∧ (a = b -> level containers' a = Some (Container.current ca))
     ∧ untouched containers' [a; b])
  ∧ (String.words action = "Fill" :: a :: rest ->
     ∃ containers',
       Container.simulate_step containers action = Some containers'
       ∧ level containers' a = Some (Container.capacity ca)
       ∧ untouched containers' [a])
  ∧ (String.words action = "Empty" :: a :: rest ->
     ∃ containers',
       Container.simulate_step containers action = Some containers'
       ∧ level containers' a = Some 0
       ∧ untouched containers' [a])
  ∧ (fun m => (level m "A", level m "B"))
      <$> Container.simulate_step Examples.example_containers "Pour B into A"
    = Some (Some 5, Some 0).
Proof.
  intros Ha Hb level cap untouched. split; [|split; [|split]].
  - intros Hw amount.
    destruct (ContainerFacts.simulate_step_pour _ _ _ _ _ _ _ Hw Ha Hb)
      as (containers' & Hstep & Hne & Heq & Hother & Hcap).
    exists containers'. split; [done|]. split; [done|]. split; [done|].
    split; [|done]. intros k Hk. apply Hother; intros ->; apply Hk;
      rewrite !elem_of_cons; tauto.
  - intros Hw.
    destruct (ContainerFacts.simulate_step_fill _ _ _ _ _ Hw Ha)
      as (containers' & Hstep & Hl & Hother & Hcap).
    exists containers'. split; [done|]. split; [done|]. split; [|done].
    intros k Hk. apply Hother. intros ->. apply Hk. rewrite !elem_of_cons; tauto.
  - intros Hw.
    destruct (ContainerFacts.simulate_step_empty _ _ _ _ _ Hw Ha)
      as (containers' & Hstep & Hl & Hother & Hcap).
    exists containers'. split; [done|]. split; [done|]. split; [|done].
    intros k Hk. apply Hother. intros ->. apply Hk. rewrite !elem_of_cons; tauto.
  - apply ContainerFacts.example_pour.
Qed.

(** The pour of the example, through the general statement. *)
Lemma simulate_step_applies_action_witness :
  Examples.example_containers !! "B" = Some (Container.mkContainer "B" 5 5)
  ∧ Examples.example_containers !! "A" = Some (Container.mkContainer "A" 10 0)
  ∧ String.words "Pour B into A" = ["Pour"; "B"; "into"; "A"]
  ∧ ∃ containers',
      Container.simulate_step Examples.example_containers "Pour B into A"
      = Some containers'
      ∧ level_of containers' "B" = Some 0
      ∧ level_of containers' "A" = Some 5.
Proof.
  assert (Examples.example_containers !! "B"
          = Some (Container.mkContainer "B" 5 5)) as HB by (vm_compute; reflexivity).
  assert (Examples.example_containers !! "A"
          = Some (Container.mkContainer "A" 10 0)) as HA by (vm_compute; reflexivity).
  assert (String.words "Pour B into A" = ["Pour"; "B"; "into"; "A"]) as Hw
    by (vm_compute; reflexivity).
  split; [exact HB|]. split; [exact HA|]. split; [exact Hw|].
  destruct (simulate_step_applies_action Examples.example_containers
              "Pour B into A" "B" "A" [] _ _ HB HA) as [Hpour _].
  destruct (Hpour Hw) as (containers' & Hstep & Hne & _).
  exists containers'. split; [exact Hstep|].
  destruct Hne as [H1 H2]; [discriminate|]. split; [exact H1|exact H2].
Defined.

(** Proves a decidable proposition by evaluation. *)
Ltac by_evaluation :=
  match goal with
  | |- ?P => apply (bool_decide_unpack P); vm_compute; exact I
  end.

(** C10: throughout the replay of any action sequence the tracked position
    of the agent is a legal cell, inside the grid, not an obstacle and, for
    key-lock, not a door whose key is not held; at the first action that
    would break this the replay stops, the flag of that violation (and no
    other) is set, and [final_position] is the last legal cell reached.
    The position after [k] actions of a replay is the final position of the
    replay of the first [k] actions.  The actions before the first violation
    are described by the rules alone: for navigation the directions,
    followed from the start, visit legal cells only ([follow]); for key-lock
    the actions are all permitted ([performs]).  A sequence without a
    violation is replayed to its end, with no flag set. *)
Theorem replay_position_always_legal
    (obstacles : gset Coord) (keys doors : gmap Coord string) (grid_size : Z)
    (start end_ : Coord) :
  ((legal_cell grid_size obstacles start ->
    ∀ directions k,
      legal_cell grid_size obstacles
        (Spatial.final_position
           (Spatial.simulate_path start end_ obstacles (take k directions)
              grid_size)))
   ∧ (∀ pre cells pos d vec post,
        follow start pre = Some (start :: cells) ->
        Forall (legal_cell grid_size obstacles) cells ->
        last (start :: cells) = Some pos ->
        DIR_VECTORS d = Some vec ->
        ¬ legal_cell grid_size obstacles (move pos vec) ->
        let r := Spatial.simulate_path start end_ obstacles (pre ++ d :: post)
                   grid_size in
        Spatial.final_position r = pos
        ∧ (Spatial.hit_wall r, Spatial.out_of_bounds r)
          = (if in_bounds grid_size (move pos vec) then (true, false)
             else (false, true)))
   ∧ (∀ directions cells pos,
        follow start directions = Some (start :: cells) ->
        Forall (legal_cell grid_size obstacles) cells ->
        last (start :: cells) = Some pos ->
        let r := Spatial.simulate_path start end_ obstacles directions
                   grid_size in
        Spatial.final_position r = pos
        ∧ Spatial.hit_wall r = false ∧ Spatial.out_of_bounds r = false))
  ∧ ((ReplayFacts.legal_state obstacles doors grid_size start ∅ ->
      ∀ actions k,
        let r := KeyLock.simulate_actions start end_ obstacles keys doors
                   (take k actions) grid_size in
        ReplayFacts.legal_state obstacles doors grid_size
          (KeyLock.final_position r) (KeyLock.inventory r))
     ∧ (∀ pre pos inv a d post,
          performs obstacles keys doors grid_size pre (start, ∅) (pos, inv) ->
          DIR_VECTORS a = Some d ->
          ¬ ReplayFacts.legal_state obstacles doors grid_size (move pos d) inv ->
          let r := KeyLock.simulate_actions start end_ obstacles keys doors
                     (pre ++ a :: post) grid_size in
          KeyLock.final_position r = pos
          ∧ KeyLock.inventory r = inv
          ∧ (KeyLock.hit_wall r, KeyLock.out_of_bounds r,
             KeyLock.locked_door_blocked r)
            = (if negb (in_bounds grid_size (move pos d)) then (false, true, false)
               else if bool_decide (move pos d ∈ obstacles) then (true, false, false)
               else (false, false, true))
          ∧ KeyLock.invalid_pickup r = false
          ∧ KeyLock.invalid_unlock r = false)
     ∧ (∀ actions pos inv,
          performs obstacles keys doors grid_size actions (start, ∅) (pos, inv) ->
          let r := KeyLock.simulate_actions start end_ obstacles keys doors
                     actions grid_size in
          KeyLock.final_position r = pos
          ∧ KeyLock.inventory r = inv
          ∧ violations r = 0%nat)).
Proof.
  split; [split; [|split]|split; [|split]].
  - intros Hstart directions k. rewrite ReplayFacts.simulate_path_final.
    by apply ReplayFacts.simulate_loop_legal.
  - intros pre cells pos d vec post Hfollow Hcells Hlast Hd Hbad r.
    assert (ReplayFacts.completes obstacles grid_size pre start pos) as Hpre.
    { apply FollowFacts.simulate_loop_follow. by exists cells. }
    pose proof (ReplayFacts.simulate_loop_stops obstacles grid_size
                  pre d post start pos Hpre) as Hrun.
    rewrite Hd in Hrun.
    unfold r. rewrite ReplayFacts.simulate_path_final.
    destruct (ReplayFacts.simulate_path_flags obstacles grid_size start end_
                (pre ++ d :: post)) as [-> ->].
    destruct (in_bounds grid_size (move pos vec)) eqn:Hb; simpl in Hrun.
    + destruct (decide (move pos vec ∈ obstacles)) as [Ho|Ho].
      * by rewrite Hrun.
      * exfalso. apply Hbad. by split.
    + by rewrite Hrun.
  - intros directions cells pos Hfollow Hcells Hlast r.
    assert (ReplayFacts.completes obstacles grid_size directions start pos)
      as Hrun.
    { apply FollowFacts.simulate_loop_follow. by exists cells. }
    unfold r. rewrite ReplayFacts.simulate_path_final.
    destruct (ReplayFacts.simulate_path_flags obstacles grid_size start end_
                directions) as [-> ->].
    unfold ReplayFacts.completes in Hrun. by rewrite Hrun.
  - intros Hstart actions k. simpl.
    by apply ReplayFacts.kl_simulate_loop_legal.
  - intros pre pos inv a d post Hperf Hd Hbad r.
    pose proof (RuleFacts.performs_completes _ _ _ _ _ _ _ Hperf) as Hpre.
    cbn [fst snd] in Hpre.
    pose proof (ReplayFacts.kl_simulate_loop_move obstacles keys doors
                  grid_size pre a d post start ∅ pos inv Hpre Hd) as Hrun.
    unfold r, KeyLock.simulate_actions. simpl. rewrite Hrun. clear Hrun r.
    destruct (in_bounds grid_size (move pos d)) eqn:Hb; simpl; [|done].
    destruct (decide (move pos d ∈ obstacles)) as [Ho|Ho].
    { by rewrite bool_decide_eq_true_2. }
    rewrite bool_decide_eq_false_2 by done.
    destruct (doors !! move pos d) as [door_color|] eqn:Hdoor.
    + destruct (decide (door_color ∈ inv)) as [Hin|Hin]; [|done].
      exfalso. apply Hbad. split; [by split|]. intros c Hc. congruence.
    + exfalso. apply Hbad. split; [by split|]. intros c Hc. congruence.
  - intros actions pos inv Hperf r.
    pose proof (RuleFacts.performs_completes _ _ _ _ _ _ _ Hperf) as Hrun.
    cbn [fst snd] in Hrun.
    destruct Hrun as ((Hw & Ho & Hl & Hp & Hu) & Hpos & Hinv).
    unfold r, KeyLock.simulate_actions, violations.
    cbn [KeyLock.final_position KeyLock.inventory KeyLock.hit_wall
         KeyLock.out_of_bounds KeyLock.locked_door_blocked
         KeyLock.invalid_pickup KeyLock.invalid_unlock].
    rewrite Hw, Ho, Hl, Hp, Hu. done.
Qed.

(** Two replays on a 5×5 grid with an obstacle at C3, the red key at A2 and
    the red door at B2.  The navigation replay of down, down, right, right,
    up stops before the obstacle, at C2, with [hit_wall]; the key-lock replay
    of down, right, up stops before the door, at B1, with
    [locked_door_blocked]. *)
Lemma replay_position_always_legal_witness :
  let obstacles : gset Coord := {[ (2, 2) ]} in
  let keys : gmap Coord string := {[ (0, 1) := "red" ]} in
  let doors : gmap Coord string := {[ (1, 1) := "red" ]} in
  let nav := Spatial.simulate_path (0, 0) (4, 4) obstacles
               (["down"; "down"; "right"] ++ "right" :: ["up"]) 5 in
  let kl := KeyLock.simulate_actions (0, 0) (4, 4) obstacles keys doors
              (["down"] ++ "right" :: ["up"]) 5 in
  legal_cell 5 obstacles (0, 0)
  ∧ follow (0, 0) ["down"; "down"; "right"]
    = Some ((0, 0) :: [(1, 0); (2, 0); (2, 1)])
  ∧ Forall (legal_cell 5 obstacles) [(1, 0); (2, 0); (2, 1)]
  ∧ ¬ legal_cell 5 obstacles (move (2, 1) (0, 1))
  ∧ performs obstacles keys doors 5 ["down"] ((0, 0), ∅) ((1, 0), ∅)
  ∧ ¬ ReplayFacts.legal_state obstacles doors 5 (move (1, 0) (0, 1)) ∅
  ∧ legal_cell 5 obstacles
      (Spatial.final_position
         (Spatial.simulate_path (0, 0) (4, 4) obstacles
            (take 2 ["down"; "down"; "right"; "right"]) 5))
  ∧ Spatial.final_position nav = (2, 1)
  ∧ (Spatial.hit_wall nav, Spatial.out_of_bounds nav) = (true, false)
  ∧ KeyLock.final_position kl = (1, 0)
  ∧ (KeyLock.hit_wall kl, KeyLock.out_of_bounds kl,
     KeyLock.locked_door_blocked kl) = (false, false, true).
Proof.
  intros obstacles keys doors nav kl.
  assert (legal_cell 5 obstacles (0, 0)) as Hcell by by_evaluation.
  assert (follow (0, 0) ["down"; "down"; "right"]
          = Some ((0, 0) :: [(1, 0); (2, 0); (2, 1)])) as Hfollow
    by reflexivity.
  assert (Forall (legal_cell 5 obstacles) [(1, 0); (2, 0); (2, 1)]) as Hcells
    by (repeat constructor; by_evaluation).
  assert (¬ legal_cell 5 obstacles (move (2, 1) (0, 1))) as Hwall
    by by_evaluation.
  assert (performs obstacles keys doors 5 ["down"] ((0, 0), ∅) ((1, 0), ∅))
    as Hperf.
  { apply (performs_move _ _ _ _ "down" (1, 0)); [reflexivity|by_evaluation| |].
    - intros color Hc. vm_compute in Hc. discriminate Hc.
    - apply performs_nil. }
  assert (¬ ReplayFacts.legal_state obstacles doors 5 (move (1, 0) (0, 1)) ∅)
    as Hdoor.
  { intros [_ Hheld]. specialize (Hheld "red"). 
    apply (not_elem_of_empty (C := gset string) "red"), Hheld.
    vm_compute. reflexivity. }
  destruct (replay_position_always_legal obstacles keys doors 5 (0, 0) (4, 4))
    as [(Hlegal & Hstop & _) (_ & Hklstop & _)].
  destruct (Hstop ["down"; "down"; "right"] [(1, 0); (2, 0); (2, 1)] (2, 1)
              "right" (0, 1) ["up"] Hfollow Hcells eq_refl eq_refl Hwall)
    as [Hpos Hflags].
  destruct (Hklstop ["down"] (1, 0) ∅ "right" (0, 1) ["up"] Hperf eq_refl Hdoor)
    as (Hklpos & _ & Hklflags & _).
  split; [exact Hcell|]. split; [exact Hfollow|]. split; [exact Hcells|].
  split; [exact Hwall|]. split; [exact Hperf|]. split; [exact Hdoor|].
  split; [exact (Hlegal Hcell _ 2%nat)|].
  split; [exact Hpos|]. split; [exact Hflags|].
  split; [exact Hklpos|exact Hklflags].
Defined.

(** The ways in which the validator finds a sequence invalid. *)
Lemma spatial_invalid_flags start end_ obstacles dirs grid_size :
  Spatial.is_path_physically_invalid start end_ obstacles dirs grid_size = true ->
  let res := Spatial.simulate_path start end_ obstacles dirs grid_size in
  Spatial.hit_wall res = true ∨ Spatial.out_of_bounds res = true
  ∨ Spatial.reached_goal res = false.
Proof.
  intros H. cbv zeta. unfold Spatial.is_path_physically_invalid in H.
  set (res := Spatial.simulate_path _ _ _ _ _) in *.
  destruct (Spatial.hit_wall res), (Spatial.out_of_bounds res),
    (Spatial.reached_goal res); simpl in H; try done; tauto.
Qed.

Lemma keylock_invalid_flags start end_ obstacles keys doors acts grid_size :
  KeyLock.is_action_seq_invalid start end_ obstacles keys doors acts grid_size
  = true ->
  let res := KeyLock.simulate_actions start end_ obstacles keys doors acts
               grid_size in
  KeyLock.hit_wall res = true ∨ KeyLock.out_of_bounds res = true
  ∨ KeyLock.locked_door_blocked res = true
  ∨ KeyLock.invalid_pickup res = true
  ∨ KeyLock.invalid_unlock res = true
  ∨ KeyLock.reached_goal res = false.
Proof.
  intros H. cbv zeta. unfold KeyLock.is_action_seq_invalid in H.
  set (res := KeyLock.simulate_actions _ _ _ _ _ _ _) in *.
  destruct (KeyLock.hit_wall res), (KeyLock.out_of_bounds res),
    (KeyLock.locked_door_blocked res), (KeyLock.invalid_pickup res),
    (KeyLock.invalid_unlock res), (KeyLock.reached_goal res);
    simpl in H; try done; tauto.
Qed.

(** C1: every distractor among the choices of an assembled record is the
    rendering of a list of action tokens, and every list of tokens that it
    renders is found invalid by the rule validator replaying it on the
    instance of the record: it hits a wall, leaves the grid, (key-lock) is
    blocked by a locked door, picks up or uses a key that is not there, or
    does not end on the goal.  A token is a non-empty string without a comma;
    the answers of the generated instances are lists of tokens, so this holds
    of every emitted record.  A candidate that replays as a valid alternate
    solution leaves the list of distractors as it was. *)
Theorem distractors_replay_invalid
    (sha256_hex : string -> string)
    (render_prompt : KeyLock.KeyLockScenario -> string) :
  (∀ sc id r i c,
     spatial_tokens sc ->
     let doc := (Spatial.scenario_to_eval_doc sha256_hex sc id r).1 in
     Spatial.choices doc !! i = Some c -> i ≠ Spatial.gold doc ->
     (∃ dirs, Forall token dirs ∧ c = join ", " dirs)
     ∧ ∀ dirs,
         Forall token dirs -> c = join ", " dirs ->
         let res := Spatial.simulate_path (Spatial.start sc) (Spatial.end_ sc)
                      (Spatial.obstacles sc) dirs GRID_SIZE in
         Spatial.hit_wall res = true ∨ Spatial.out_of_bounds res = true
         ∨ Spatial.reached_goal res = false)
  ∧ (∀ r sc, (Spatial.generate_scenario r).1 = Some sc -> spatial_tokens sc)
  ∧ (∀ sc id r doc i c,
       keylock_tokens sc ->
       (KeyLock.scenario_to_eval_doc render_prompt sc id r).1 = Some doc ->
       KeyLock.choices doc !! i = Some c -> i ≠ KeyLock.gold doc ->
       (∃ acts, Forall token acts ∧ c = join ", " acts)
       ∧ ∀ acts,
           Forall token acts -> c = join ", " acts ->
           let res := KeyLock.simulate_actions (KeyLock.start sc)
                        (KeyLock.end_ sc) (KeyLock.obstacles sc)
                        (KeyLock.keys sc) (KeyLock.doors sc) acts GRID_SIZE in
           KeyLock.hit_wall res = true ∨ KeyLock.out_of_bounds res = true
           ∨ KeyLock.locked_door_blocked res = true
           ∨ KeyLock.invalid_pickup res = true
           ∨ KeyLock.invalid_unlock res = true
           ∨ KeyLock.reached_goal res = false)
  ∧ (∀ r sc, (KeyLock.generate_scenario r).1 = Some sc -> keylock_tokens sc)
  ∧ (∀ sc st dirs,
       Spatial.is_path_physically_invalid (Spatial.start sc) (Spatial.end_ sc)
         (Spatial.obstacles sc) dirs GRID_SIZE = false ->
       Spatial.try_add sc st dirs = st)
  ∧ (∀ sc st acts,
       KeyLock.is_action_seq_invalid (KeyLock.start sc) (KeyLock.end_ sc)
         (KeyLock.obstacles sc) (KeyLock.keys sc) (KeyLock.doors sc) acts
         GRID_SIZE = false ->
       KeyLock.try_add sc st acts = st).
Proof.
  split; [|split; [|split; [|split; [|split]]]].
  - intros sc id r i c Htok doc Hi Hne.
    pose proof (TokenPool.spatial_doc_distractor sha256_hex sc id r i c Hi Hne)
      as Hin.
    pose proof (TokenPool.spatial_distractors_refused sc 3 r Htok) as Hall.
    rewrite Forall_forall in Hall.
    destruct (Hall _ Hin) as (dirs0 & Htok0 & Hc & Hinv).
    split; [by exists dirs0|].
    intros dirs Hdirs Hrender.
    assert (dirs = dirs0) as ->
      by (apply JoinFacts.join_inj; [done|done|congruence]).
    by apply spatial_invalid_flags.
  - apply TokenPool.spatial_generated_tokens.
  - intros sc id r doc i c Htok Hdoc Hi Hne.
    pose proof (TokenPool.keylock_doc_distractor render_prompt sc id r doc i c
                  Hdoc Hi Hne) as Hin.
    pose proof (TokenPool.keylock_distractors_refused sc 3 r Htok) as Hall.
    rewrite Forall_forall in Hall.
    destruct (Hall _ Hin) as (acts0 & Htok0 & Hc & Hinv).
    split; [by exists acts0|].
    intros acts Hacts Hrender.
    assert (acts = acts0) as ->
      by (apply JoinFacts.join_inj; [done|done|congruence]).
    by apply keylock_invalid_flags.
  - apply TokenPool.keylock_generated_tokens.
  - intros sc st dirs. apply SpatialAssembly.spatial_try_add_discards.
  - intros sc st acts. apply KeyLockAssembly.keylock_try_add_discards.
Qed.

(** The second choice of a navigation record and the third choice of a
    key-lock record, neither of them the gold choice, with the lists of
    tokens that they render. *)
Lemma distractors_replay_invalid_witness :
  let doc := (Spatial.scenario_to_eval_doc (fun s => s) Examples.nav_scenario 0
                Examples.some_draws).1 in
  let dirs := ["down"; "left"; "right"; "up"; "left"; "down"; "right"; "down"] in
  let acts := ["down"; "down"; "unlock_red"; "down"; "unlock_blue"; "down";
               "right"] in
  (spatial_tokens Examples.nav_scenario
   ∧ Spatial.choices doc !! 1%nat
     = Some "down, left, right, up, left, down, right, down"
   ∧ 1%nat ≠ Spatial.gold doc
   ∧ Forall token dirs
   ∧ "down, left, right, up, left, down, right, down" = join ", " dirs
   ∧ let res := Spatial.simulate_path (0, 0) (4, 4) Examples.nav_obstacles
                  dirs GRID_SIZE in
     Spatial.hit_wall res = true ∨ Spatial.out_of_bounds res = true
     ∨ Spatial.reached_goal res = false)
  ∧ ∃ kdoc,
      (KeyLock.scenario_to_eval_doc (fun _ => "") Examples.kl_scenario 0
         Examples.some_draws).1 = Some kdoc
      ∧ keylock_tokens Examples.kl_scenario
      ∧ KeyLock.choices kdoc !! 2%nat
        = Some "down, down, unlock_red, down, unlock_blue, down, right"
      ∧ 2%nat ≠ KeyLock.gold kdoc
      ∧ Forall token acts
      ∧ "down, down, unlock_red, down, unlock_blue, down, right"
        = join ", " acts
      ∧ let res := KeyLock.simulate_actions (0, 0) (4, 1) Examples.kl_obstacles
                     Examples.kl_keys Examples.kl_doors acts GRID_SIZE in
        KeyLock.hit_wall res = true ∨ KeyLock.out_of_bounds res = true
        ∨ KeyLock.locked_door_blocked res = true
        ∨ KeyLock.invalid_pickup res = true
        ∨ KeyLock.invalid_unlock res = true
        ∨ KeyLock.reached_goal res = false.
Proof.
  intros doc dirs acts.
  destruct (distractors_replay_invalid (fun s => s) (fun _ => ""))
    as (Hnav & _ & Hkl & _).
  split.
  - assert (spatial_tokens Examples.nav_scenario) as Htok.
    { intros correct Hcorrect. vm_compute in Hcorrect.
      injection Hcorrect as <-.
      repeat (apply Forall_cons; split; [split; [discriminate|reflexivity]|]).
      apply Forall_nil_2. }
    assert (Spatial.choices doc !! 1%nat
            = Some "down, left, right, up, left, down, right, down") as Hc
      by (vm_compute; reflexivity).
    assert (1%nat ≠ Spatial.gold doc) as Hg by (vm_compute; discriminate).
    assert (Forall token dirs) as Hdirs.
    { repeat (apply Forall_cons; split; [split; [discriminate|reflexivity]|]).
      apply Forall_nil_2. }
    assert ("down, left, right, up, left, down, right, down" = join ", " dirs)
      as Hrender by (vm_compute; reflexivity).
    split; [exact Htok|]. split; [exact Hc|]. split; [exact Hg|].
    split; [exact Hdirs|]. split; [exact Hrender|].
    destruct (Hnav Examples.nav_scenario 0%nat Examples.some_draws 1%nat _
                Htok Hc Hg) as [_ Hall].
    exact (Hall dirs Hdirs Hrender).
  - assert (is_Some (KeyLock.scenario_to_eval_doc (fun _ => "")
                       Examples.kl_scenario 0 Examples.some_draws).1)
      as [kdoc Hdoc] by (vm_compute; eexists; reflexivity).
    exists kdoc.
    assert (keylock_tokens Examples.kl_scenario) as Htok.
    { split; [|split].
      - intros correct Hcorrect. vm_compute in Hcorrect.
        injection Hcorrect as <-.
        repeat (apply Forall_cons; split; [split; [discriminate|reflexivity]|]).
        apply Forall_nil_2.
      - intros p color Hp. unfold Examples.kl_scenario, Examples.kl_keys in Hp.
        cbn [KeyLock.keys] in Hp.
        apply lookup_insert_Some in Hp as [[_ <-]|[_ Hp]]; [reflexivity|].
        apply lookup_singleton_Some in Hp as [_ <-]. reflexivity.
      - intros p color Hp. unfold Examples.kl_scenario, Examples.kl_doors in Hp.
        cbn [KeyLock.doors] in Hp.
        apply lookup_insert_Some in Hp as [[_ <-]|[_ Hp]]; [reflexivity|].
        apply lookup_singleton_Some in Hp as [_ <-]. reflexivity. }
    assert (KeyLock.choices kdoc !! 2%nat
            = Some "down, down, unlock_red, down, unlock_blue, down, right")
      as Hc.
    { vm_compute in Hdoc. injection Hdoc as <-. reflexivity. }
    assert (2%nat ≠ KeyLock.gold kdoc) as Hg.
    { vm_compute in Hdoc. injection Hdoc as <-. discriminate. }
    assert (Forall token acts) as Hacts.
    { repeat (apply Forall_cons; split; [split; [discriminate|reflexivity]|]).
      apply Forall_nil_2. }
    assert ("down, down, unlock_red, down, unlock_blue, down, right"
            = join ", " acts) as Hrender by (vm_compute; reflexivity).
    split; [exact Hdoc|]. split; [exact Htok|]. split; [exact Hc|].
    split; [exact Hg|]. split; [exact Hacts|]. split; [exact Hrender|].
    destruct (Hkl Examples.kl_scenario 0%nat Examples.some_draws kdoc 2%nat _
                Htok Hdoc Hc Hg) as [_ Hall].
    exact (Hall acts Hacts Hrender).
Defined.

(** C2: the choices of every assembled record hold the canonical answer
    string exactly once, and the recorded gold index is its position after
    the shuffle: [choices[gold]] is the canonical answer. *)
Theorem gold_index_points_to_answer
    (sha256_hex : string -> string)
    (render_prompt : KeyLock.KeyLockScenario -> string) :
  (∀ sc id r,
     let doc := (Spatial.scenario_to_eval_doc sha256_hex sc id r).1 in
     Spatial.choices doc !! Spatial.gold doc = Some (Spatial.correct_answer sc)
     ∧ occurrences (Spatial.correct_answer sc) (Spatial.choices doc)
       = 1%nat)
  ∧ (∀ sc id r doc,
       (KeyLock.scenario_to_eval_doc render_prompt sc id r).1 = Some doc ->
       KeyLock.choices doc !! KeyLock.gold doc = Some (KeyLock.correct_str sc)
       ∧ occurrences (KeyLock.correct_str sc) (KeyLock.choices doc)
         = 1%nat)
  ∧ (∀ r sc sample,
       (Container.main_body r).1 = Some (sc, sample) ->
       let correct := Container.dict_to_str (Container.final_state sc) in
       Container.choices sample !! Container.gold sample = Some correct
       ∧ occurrences correct (Container.choices sample) = 1%nat).
Proof.
  split; [|split].
  - intros sc id r doc. split.
    + apply SpatialAssembly.spatial_doc_gold.
    + apply SpatialAssembly.spatial_doc_once.
  - intros sc id r doc Hdoc. split.
    + by eapply KeyLockAssembly.keylock_doc_gold.
    + by eapply KeyLockAssembly.keylock_doc_once.
  - intros r sc sample Hbody correct. split.
    + by apply (ContainerAssembly.sample_gold_is_correct r).
    + by apply (ContainerAssembly.sample_correct_once r).
Qed.

(** The record assembled for the key-lock layout of the examples. *)
Lemma gold_index_points_to_answer_witness :
  ∃ doc,
    (KeyLock.scenario_to_eval_doc (fun _ => "") Examples.kl_scenario 0
       Examples.some_draws).1 = Some doc
    ∧ KeyLock.choices doc !! KeyLock.gold doc
      = Some (KeyLock.correct_str Examples.kl_scenario)
    ∧ occurrences (KeyLock.correct_str Examples.kl_scenario)
        (KeyLock.choices doc) = 1%nat.
Proof.
  eexists. split; [vm_compute; reflexivity|].
  destruct (gold_index_points_to_answer (fun s => s) (fun _ => ""))
    as (_ & Hkl & _).
  apply (Hkl Examples.kl_scenario 0%nat Examples.some_draws).
  vm_compute. reflexivity.
Defined.

(** C4: when an in-bounds, obstacle-avoiding path from [start] to [end_]
    exists, [a_star] returns such a path and no such path is shorter; when
    none exists (for a start cell that is a free cell of the grid, as every
    sampled instance has it) it returns [None]; on the 5×5 grid with start
    A1, goal E5 and an obstacle at C3 it returns a path of 8 moves, the
    Manhattan distance, that avoids C3. *)
Theorem a_star_shortest_path
    (start end_ : Coord) (obstacles : gset Coord) (grid_size : Z) :
  (∀ path,
     Paths.valid_path grid_size obstacles start end_ path = true ->
     ∃ found,
       Spatial.a_star start end_ obstacles grid_size = Some found
       ∧ Paths.valid_path grid_size obstacles start end_ found = true
       ∧ (length found ≤ length path)%nat)
  ∧ (legal_cell grid_size obstacles start ->
     (∀ path, Paths.valid_path grid_size obstacles start end_ path = false) ->
     Spatial.a_star start end_ obstacles grid_size = None)
  ∧ (Spatial.a_star (0, 0) (4, 4) Examples.nav_obstacles 5
     = Some Examples.nav_path
     ∧ Paths.valid_path 5 Examples.nav_obstacles (0, 0) (4, 4)
         Examples.nav_path = true
     ∧ Z.of_nat (length Examples.nav_path) - 1 = 8
     ∧ Spatial.heuristic (0, 0) (4, 4) = 8
     ∧ (2, 2) ∉ Examples.nav_path).
Proof.
  pose proof (AStarFacts.a_star_correct start end_ obstacles grid_size) as H.
  split; [|split].
  - intros path Hpath.
    pose proof (AStarFacts.valid_walk _ _ _ _ _ Hpath) as Hwalk.
    pose proof (AStarFacts.valid_start_legal _ _ _ _ _ Hpath) as Hstart.
    destruct (Spatial.a_star start end_ obstacles grid_size) as [found|].
    + destruct H as [Hfound Hmin]. exists found. split; [done|].
      split; [by apply AStarFacts.walk_valid|by apply Hmin].
    + by apply H in Hwalk.
  - intros Hstart Hnone.
    destruct (Spatial.a_star start end_ obstacles grid_size) as [found|]; [|done].
    destruct H as [Hfound _].
    apply (AStarFacts.walk_valid _ _ _ _ _ Hfound) in Hstart.
    by rewrite Hnone in Hstart.
  - split; [vm_compute; reflexivity|]. split; [vm_compute; reflexivity|].
    split; [done|]. split; [done|].
    unfold Examples.nav_path. rewrite !elem_of_cons, elem_of_nil.
    intros Hin. repeat destruct Hin as [[=]|Hin]. done.
Qed.

(** The example grid, through the general statement. *)
Lemma a_star_shortest_path_witness :
  Paths.valid_path 5 Examples.nav_obstacles (0, 0) (4, 4)
    [(0, 0); (0, 1); (0, 2); (0, 3); (0, 4); (1, 4); (2, 4); (3, 4); (4, 4)]
  = true
  ∧ ∃ found,
      Spatial.a_star (0, 0) (4, 4) Examples.nav_obstacles 5 = Some found
      ∧ Paths.valid_path 5 Examples.nav_obstacles (0, 0) (4, 4) found = true
      ∧ (length found ≤ 9)%nat.
Proof.
  assert (Paths.valid_path 5 Examples.nav_obstacles (0, 0) (4, 4)
            [(0, 0); (0, 1); (0, 2); (0, 3); (0, 4); (1, 4); (2, 4); (3, 4);
             (4, 4)] = true) as Hpath by (vm_compute; reflexivity).
  split; [exact Hpath|].
  destruct (a_star_shortest_path (0, 0) (4, 4) Examples.nav_obstacles 5)
    as [Hfound _].
  exact (Hfound _ Hpath).
Defined.

(** C3, as stated, fails: on the key-lock layout of the examples, which the
    sampler draws and accepts, the search returns nine actions, while seven
    moves round the doors are a valid action sequence from the start to the
    goal; so the returned list is not the shortest valid one. *)
Lemma bfs_with_keys_not_fewest_actions :
  (KeyLock.generate_scenario Examples.kl_draws).1 = Some Examples.kl_scenario
  ∧ KeyLock.bfs_with_keys (0, 0) (4, 1) Examples.kl_obstacles Examples.kl_keys
      Examples.kl_doors 5 = Some (Examples.kl_path, Examples.kl_actions)
  ∧ KeyLock.is_action_seq_invalid (0, 0) (4, 1) Examples.kl_obstacles
      Examples.kl_keys Examples.kl_doors Examples.kl_detour 5 = false
  ∧ length Examples.kl_actions = 9%nat
  ∧ length Examples.kl_detour = 7%nat
  ∧ ¬ (∀ valid : list string,
         KeyLock.is_action_seq_invalid (0, 0) (4, 1) Examples.kl_obstacles
           Examples.kl_keys Examples.kl_doors valid 5 = false ->
         (length Examples.kl_actions <= length valid)%nat).
Proof.
  assert (KeyLock.is_action_seq_invalid (0, 0) (4, 1) Examples.kl_obstacles
            Examples.kl_keys Examples.kl_doors Examples.kl_detour 5 = false)
    as Hdetour by (vm_compute; reflexivity).
  split; [vm_compute; reflexivity|]. split; [vm_compute; reflexivity|].
  split; [exact Hdetour|]. split; [done|]. split; [done|].
  intros Hleast. specialize (Hleast _ Hdetour).
  change (length Examples.kl_actions) with 9%nat in Hleast.
  change (length Examples.kl_detour) with 7%nat in Hleast. lia.
Qed.

(** C3, amended: for every solvable key-lock instance the search returns an
    action list that the validator accepts and whose number of transitions,
    the moves and the pick-ups, an unlock token not being counted, is the
    least among all valid action sequences from the start to the goal. *)
Theorem bfs_with_keys_fewest_transitions
    (start end_ : Coord) (obstacles : gset Coord)
    (keys doors : gmap Coord string) (grid_size : Z) (valid : list string) :
  KeyLock.is_action_seq_invalid start end_ obstacles keys doors valid grid_size
  = false ->
  ∃ path actions,
    KeyLock.bfs_with_keys start end_ obstacles keys doors grid_size
    = Some (path, actions)
    ∧ KeyLock.is_action_seq_invalid start end_ obstacles keys doors actions
        grid_size = false
    ∧ (transitions actions ≤ transitions valid)%nat
    ∧ ∀ actions',
        KeyLock.is_action_seq_invalid start end_ obstacles keys doors actions'
          grid_size = false ->
        (transitions actions ≤ transitions actions')%nat.
Proof.
  intros Hvalid.
  pose proof (BfsFacts.bfs_with_keys_correct start end_ obstacles keys doors
                grid_size) as H.
  destruct (KeyLock.bfs_with_keys start end_ obstacles keys doors grid_size)
    as [[path actions]|].
  - destruct H as (Hacc & _ & Hmin). exists path, actions.
    split; [done|]. split; [done|]. split; [by apply Hmin|done].
  - by rewrite H in Hvalid.
Qed.

(** The layout of the examples: the detour has seven transitions, and so
    has the returned solution. *)
Lemma bfs_with_keys_fewest_transitions_witness :
  KeyLock.is_action_seq_invalid (0, 0) (4, 1) Examples.kl_obstacles
    Examples.kl_keys Examples.kl_doors Examples.kl_detour 5 = false
  ∧ ∃ path actions,
      KeyLock.bfs_with_keys (0, 0) (4, 1) Examples.kl_obstacles Examples.kl_keys
        Examples.kl_doors 5 = Some (path, actions)
      ∧ (transitions actions
         ≤ transitions Examples.kl_detour)%nat.
Proof.
  assert (KeyLock.is_action_seq_invalid (0, 0) (4, 1) Examples.kl_obstacles
            Examples.kl_keys Examples.kl_doors Examples.kl_detour 5 = false)
    as Hvalid by (vm_compute; reflexivity).
  split; [exact Hvalid|].
  destruct (bfs_with_keys_fewest_transitions (0, 0) (4, 1)
              Examples.kl_obstacles Examples.kl_keys Examples.kl_doors 5
              Examples.kl_detour Hvalid)
    as (path & actions & Hbfs & _ & Hle & _).
  exists path, actions. split; [exact Hbfs|exact Hle].
Defined.

(** C9: once the layout is solvable, the non-triviality check of the
    key-lock sampler rejects it (returns [None]) exactly when the search run
    with no keys and no doors finds a path that is no longer than the path
    of the solution and that touches no door cell.  A strictly longer
    keyless path that avoids the doors does not make it reject: the layout
    with a door on the straight line from A1 to A4 is accepted although a
    way of six cells round the door exists, longer than the five cells of
    its solution path. *)
Theorem nontriviality_check_rejects
    (start end_ : Coord) (obstacles : gset Coord)
    (keys doors : gmap Coord string)
    (path : list Coord) (actions : list string) :
  KeyLock.bfs_with_keys start end_ obstacles keys doors GRID_SIZE
  = Some (path, actions) ->
  (KeyLock.check_scenario start end_ obstacles keys doors = None
   ↔ ∃ no_key_path no_key_actions,
       KeyLock.bfs_with_keys start end_ obstacles ∅ ∅ GRID_SIZE
       = Some (no_key_path, no_key_actions)
       ∧ (length no_key_path ≤ length path)%nat
       ∧ ∀ d, d ∈ dom doors -> d ∉ no_key_path)
  ∧ ((∃ sc, KeyLock.check_scenario (0, 0) (0, 3) Examples.line_obstacles
              Examples.line_keys Examples.line_doors = Some sc
            ∧ KeyLock.solution_path sc = Some Examples.line_path)
     ∧ Paths.valid_path GRID_SIZE
         (Examples.line_obstacles ∪ dom Examples.line_doors) (0, 0) (0, 3)
         Examples.line_detour = true
     ∧ (length Examples.line_path < length Examples.line_detour)%nat).
Proof.
  intros Hbfs. split.
  - unfold KeyLock.check_scenario. rewrite Hbfs.
    destruct (KeyLock.bfs_with_keys start end_ obstacles ∅ ∅ GRID_SIZE)
      as [[no_key_path no_key_actions]|].
    + case_bool_decide as Hlen.
      * case_bool_decide as Hdoor.
        -- split; [done|]. intros (p & a & [= <- <-] & _ & Hfree).
           destruct Hdoor as (d & Hd & Hin). exfalso. by apply (Hfree d).
        -- split; [|done]. intros _. exists no_key_path, no_key_actions.
           split; [done|]. split; [done|]. intros d Hd Hin. apply Hdoor. eauto.
      * split; [done|]. intros (p & a & [= <- <-] & Hle & _). exfalso. lia.
    + split; [done|]. by intros (p & a & [=] & _).
  - split; [|split].
    + eexists. split; [vm_compute; reflexivity|]. reflexivity.
    + vm_compute. reflexivity.
    + simpl. lia.
Qed.

(** The layout of the examples, on which the check does not reject. *)
Lemma nontriviality_check_rejects_witness :
  KeyLock.bfs_with_keys (0, 0) (4, 1) Examples.kl_obstacles Examples.kl_keys
    Examples.kl_doors GRID_SIZE = Some (Examples.kl_path, Examples.kl_actions)
  ∧ (KeyLock.check_scenario (0, 0) (4, 1) Examples.kl_obstacles
       Examples.kl_keys Examples.kl_doors = None
     ↔ ∃ no_key_path no_key_actions,
         KeyLock.bfs_with_keys (0, 0) (4, 1) Examples.kl_obstacles ∅ ∅ GRID_SIZE
         = Some (no_key_path, no_key_actions)
         ∧ (length no_key_path ≤ length Examples.kl_path)%nat
         ∧ ∀ d, d ∈ dom Examples.kl_doors -> d ∉ no_key_path).
Proof.
  assert (KeyLock.bfs_with_keys (0, 0) (4, 1) Examples.kl_obstacles
            Examples.kl_keys Examples.kl_doors GRID_SIZE
          = Some (Examples.kl_path, Examples.kl_actions)) as Hbfs
    by (vm_compute; reflexivity).
  split; [exact Hbfs|].
  destruct (nontriviality_check_rejects (0, 0) (4, 1) Examples.kl_obstacles
              Examples.kl_keys Examples.kl_doors _ _ Hbfs) as [Hiff _].
  exact Hiff.
Defined.

(** C5, on the code: the loop of the key-lock [main] has no attempt ceiling.
    With a generator whose every pass draws a layout that the sampler
    rejects, no number of passes brings the run, asked for one sample, to
    its end. *)
Theorem keylock_main_never_ends
    (render_prompt : KeyLock.KeyLockScenario -> string)
    (fingerprint : Coord * Coord * gset Coord * gmap Coord string
                   * gmap Coord string -> string)
    (fuel : nat) :
  (KeyLock.main render_prompt fingerprint fuel 1 Examples.zero_draws).1 = None.
Proof. unfold KeyLock.main. by apply KeyLockRun.main_loop_zero_draws. Qed.

(** C6, on the code: the container [main] keeps no ledger.  With a generator
    whose raw draws repeat after the 24 draws of one pass, all 1000 written
    records are built from one and the same scenario. *)
Theorem container_main_repeats_instance :
  ∃ sample,
    (Container.main 1000 Examples.counting_draws).1
    = Some (replicate 1000 (Examples.counting_scenario, sample)).
Proof.
  destruct ContainerRun.main_body_counting_draws as [sample Hbody].
  exists sample. unfold Container.main.
  by rewrite (ContainerRun.main_loop_repeats _ _ _ _ _ Hbody).
Qed.

(** C7, on the code: the navigation [scenario_to_eval_doc] has no test on the
    number of distractors.  With a generator whose raw draws are all zero,
    the run asked for one sample emits a record with two distractors. *)
Theorem spatial_main_emits_two_distractors (sha256_hex : string -> string) :
  ∃ st doc,
    (Spatial.main sha256_hex 1 Examples.zero_draws).1 = Some st
    ∧ Spatial.samples st = [doc]
    ∧ Spatial.choices doc = ["up"; "left"; "right"]
    ∧ Spatial.gold doc = 2%nat.
Proof.
  eexists _, _. split; [vm_compute; reflexivity|]. done.
Qed.
(** * Further properties of the generators *)

(** ** Grid navigation *)

(** X1: [path_to_directions] succeeds exactly on the paths whose consecutive
    cells are one move apart (on any other step the lookup in [DIR_NAMES]
    raises).  It returns one direction per step, and following these
    directions from the first cell gives the path back; conversely the cells
    visited along a list of directions are turned back into that list. *)
Theorem path_to_directions_round_trip :
  (∀ path, is_Some (Spatial.path_to_directions path) ↔ Paths.chain path = true)
  ∧ (∀ path dirs start,
       Spatial.path_to_directions path = Some dirs ->
       head path = Some start ->
       length path = S (length dirs) ∧ follow start dirs = Some path)
  ∧ (∀ start dirs path,
       follow start dirs = Some path ->
       Spatial.path_to_directions path = Some dirs).
Proof.
  split; [exact FollowFacts.path_to_directions_chain|]. split.
  - intros path dirs start Hd Hh. split.
    + pose proof (FollowFacts.path_to_directions_length _ _ Hd).
      destruct path; [done|]. cbn [length] in *. lia.
    + by apply FollowFacts.path_to_directions_follow.
  - exact FollowFacts.follow_path_to_directions.
Qed.

(** The path of the navigation example and its eight directions. *)
Lemma path_to_directions_round_trip_witness :
  let dirs := ["down"; "down"; "down"; "down"; "right"; "right"; "right"; "right"] in
  Spatial.path_to_directions Examples.nav_path = Some dirs
  ∧ head Examples.nav_path = Some (0, 0)
  ∧ length Examples.nav_path = 9%nat
  ∧ follow (0, 0) dirs = Some Examples.nav_path.
Proof.
  intros dirs.
  assert (Spatial.path_to_directions Examples.nav_path = Some dirs) as Hd
    by (vm_compute; reflexivity).
  assert (head Examples.nav_path = Some (0, 0)) as Hh by reflexivity.
  destruct path_to_directions_round_trip as (_ & Hround & _).
  destruct (Hround _ _ _ Hd Hh) as [Hlen Hf].
  split; [exact Hd|]. split; [exact Hh|]. split; [exact Hlen|exact Hf].
Defined.

(** X2: from a legal start cell, the validator accepts a direction list (it
    is not "physically invalid") exactly when the list is the rendering of a
    path from the start to the goal that stays on the grid and off the
    obstacles. *)
Theorem validator_accepts_valid_paths
    (start end_ : Coord) (obstacles : gset Coord) (grid_size : Z)
    (dirs : list string) :
  legal_cell grid_size obstacles start ->
  Spatial.is_path_physically_invalid start end_ obstacles dirs grid_size = false
  ↔ ∃ path, Paths.valid_path grid_size obstacles start end_ path = true
            ∧ Spatial.path_to_directions path = Some dirs.
Proof. apply FollowFacts.accepted_valid_path. Qed.

(** A way round the obstacle of the navigation example. *)
Lemma validator_accepts_valid_paths_witness :
  let dirs := ["right"; "right"; "right"; "right"; "down"; "down"; "down"; "down"] in
  legal_cell 5 Examples.nav_obstacles (0, 0)
  ∧ Spatial.is_path_physically_invalid (0, 0) (4, 4) Examples.nav_obstacles dirs 5
    = false
  ∧ ∃ path, Paths.valid_path 5 Examples.nav_obstacles (0, 0) (4, 4) path = true
            ∧ Spatial.path_to_directions path = Some dirs.
Proof.
  intros dirs.
  assert (legal_cell 5 Examples.nav_obstacles (0, 0)) as Hs by by_evaluation.
  assert (Spatial.is_path_physically_invalid (0, 0) (4, 4)
            Examples.nav_obstacles dirs 5 = false) as Hv
    by (vm_compute; reflexivity).
  split; [exact Hs|]. split; [exact Hv|].
  exact (proj1 (validator_accepts_valid_paths (0, 0) (4, 4)
                  Examples.nav_obstacles 5 dirs Hs) Hv).
Defined.

(** X3: the solver and the validator agree.  From a legal start cell, when
    [a_star] finds a path its direction list is accepted by the validator
    and no accepted direction list is shorter; when [a_star] finds none,
    the validator rejects every direction list. *)
Theorem a_star_answer_is_shortest_accepted
    (start end_ : Coord) (obstacles : gset Coord) (grid_size : Z) :
  legal_cell grid_size obstacles start ->
  match Spatial.a_star start end_ obstacles grid_size with
  | Some path =>
      ∃ dirs,
        Spatial.path_to_directions path = Some dirs
        ∧ Spatial.is_path_physically_invalid start end_ obstacles dirs grid_size
          = false
        ∧ ∀ dirs',
            Spatial.is_path_physically_invalid start end_ obstacles dirs'
              grid_size = false ->
            (length dirs ≤ length dirs')%nat
  | None =>
      ∀ dirs,
        Spatial.is_path_physically_invalid start end_ obstacles dirs grid_size
        = true
  end.
Proof.
  intros Hstart.
  pose proof (AStarFacts.a_star_correct start end_ obstacles grid_size) as Hstar.
  destruct (Spatial.a_star start end_ obstacles grid_size) as [path|].
  - destruct Hstar as [Hwalk Hmin].
    pose proof (AStarFacts.walk_valid _ _ _ _ _ Hwalk Hstart) as Hvalid.
    assert (Paths.chain path = true) as Hchain.
    { unfold Paths.valid_path in Hvalid. by apply andb_true_iff in Hvalid as [_ ?]. }
    apply FollowFacts.path_to_directions_chain in Hchain as [dirs Hdirs].
    exists dirs. split; [done|]. split.
    { apply FollowFacts.accepted_valid_path; [done|]. by exists path. }
    intros dirs' Hacc.
    apply FollowFacts.accepted_valid_path in Hacc as (path' & Hvalid' & Hdirs');
      [|done].
    apply AStarFacts.valid_walk, Hmin in Hvalid'.
    apply FollowFacts.path_to_directions_length in Hdirs, Hdirs'. lia.
  - intros dirs.
    destruct (Spatial.is_path_physically_invalid _ _ _ dirs _) eqn:Hacc; [done|].
    apply FollowFacts.accepted_valid_path in Hacc as (path' & Hvalid' & _);
      [|done].
    by apply AStarFacts.valid_walk, Hstar in Hvalid'.
Qed.

(** The navigation example: the eight directions of the solver's path. *)
Lemma a_star_answer_is_shortest_accepted_witness :
  legal_cell 5 Examples.nav_obstacles (0, 0)
  ∧ match Spatial.a_star (0, 0) (4, 4) Examples.nav_obstacles 5 with
    | Some path =>
        ∃ dirs,
          Spatial.path_to_directions path = Some dirs
          ∧ Spatial.is_path_physically_invalid (0, 0) (4, 4)
              Examples.nav_obstacles dirs 5 = false
          ∧ ∀ dirs',
              Spatial.is_path_physically_invalid (0, 0) (4, 4)
                Examples.nav_obstacles dirs' 5 = false ->
              (length dirs ≤ length dirs')%nat
    | None =>
        ∀ dirs,
          Spatial.is_path_physically_invalid (0, 0) (4, 4)
            Examples.nav_obstacles dirs 5 = true
    end.
Proof.
  assert (legal_cell 5 Examples.nav_obstacles (0, 0)) as Hs by by_evaluation.
  split; [exact Hs|].
  exact (a_star_answer_is_shortest_accepted (0, 0) (4, 4)
           Examples.nav_obstacles 5 Hs).
Defined.

(** X4: every scenario that the navigation sampler returns is well formed:
    the start and the goal are different free cells of the 5×5 grid, there
    are exactly three obstacles, all on the grid, the stored path is a valid
    path from the start to the goal, and the stored directions are its
    rendering: a non-empty list that the validator accepts. *)
Theorem spatial_scenario_well_formed (r : Rng.t) (sc : Spatial.GridScenario) :
  (Spatial.generate_scenario r).1 = Some sc ->
  Spatial.grid_size sc = GRID_SIZE
  ∧ Spatial.start sc ≠ Spatial.end_ sc
  ∧ legal_cell GRID_SIZE (Spatial.obstacles sc) (Spatial.start sc)
  ∧ legal_cell GRID_SIZE (Spatial.obstacles sc) (Spatial.end_ sc)
  ∧ size (Spatial.obstacles sc) = 3%nat
  ∧ (∀ o, o ∈ Spatial.obstacles sc -> in_bounds GRID_SIZE o = true)
  ∧ ∃ path dirs,
      Spatial.shortest_path sc = Some path
      ∧ Spatial.path_directions sc = Some dirs
      ∧ Paths.valid_path GRID_SIZE (Spatial.obstacles sc) (Spatial.start sc)
          (Spatial.end_ sc) path = true
      ∧ Spatial.path_to_directions path = Some dirs
      ∧ dirs ≠ []
      ∧ Spatial.is_path_physically_invalid (Spatial.start sc) (Spatial.end_ sc)
          (Spatial.obstacles sc) dirs GRID_SIZE = false.
Proof.
  unfold Spatial.generate_scenario. rewrite RngFacts.bind_run.
  destruct (SamplerFacts.sample_spec (all_coords GRID_SIZE)
              (2 + Spatial.NUM_OBSTACLES) r) as (Hlen & Hnd & Hsub).
  specialize (Hnd SamplerFacts.all_coords_NoDup).
  destruct ((Rng.sample (all_coords GRID_SIZE) (2 + Spatial.NUM_OBSTACLES) r).1)
    as [|start [|end_ [|o1 [|o2 [|o3 [|? ?]]]]]]; try done.
  clear Hlen.
  pose proof (AStarFacts.a_star_correct start end_ (list_to_set [o1; o2; o3])
                GRID_SIZE) as Hstar.
  destruct (Spatial.a_star start end_ (list_to_set [o1; o2; o3]) GRID_SIZE)
    as [path|]; [|done].
  intros [= <-]. cbn [Spatial.grid_size Spatial.start Spatial.end_
    Spatial.obstacles Spatial.shortest_path Spatial.path_directions].
  apply NoDup_cons in Hnd as [Hs Hnd]. apply NoDup_cons in Hnd as [He Hnd].
  assert (∀ p, p ∈ [start; end_; o1; o2; o3] -> in_bounds GRID_SIZE p = true)
    as Hin.
  { intros p Hp. apply SamplerFacts.all_coords_in_bounds. by apply Hsub. }
  assert (legal_cell GRID_SIZE (list_to_set [o1; o2; o3]) start) as Hstart.
  { split; [apply Hin, list_elem_of_here|]. rewrite elem_of_list_to_set.
    intros Ho. apply Hs. by apply list_elem_of_further. }
  assert (legal_cell GRID_SIZE (list_to_set [o1; o2; o3]) end_) as Hend.
  { split; [apply Hin, list_elem_of_further, list_elem_of_here|].
    by rewrite elem_of_list_to_set. }
  assert (start ≠ end_) as Hne.
  { intros ->. apply Hs. by apply list_elem_of_here. }
  split; [done|]. split; [done|]. split; [done|]. split; [done|].
  split.
  { change (size (list_to_set [o1; o2; o3] : gset Coord) = 3%nat).
    by rewrite size_list_to_set. }
  split.
  { intros o Ho. apply Hin.
    change (o ∈ (list_to_set [o1; o2; o3] : gset Coord)) in Ho.
    rewrite elem_of_list_to_set in Ho.
    by do 2 apply list_elem_of_further. }
  destruct Hstar as [Hwalk _].
  pose proof (AStarFacts.walk_valid _ _ _ _ _ Hwalk Hstart) as Hvalid.
  assert (Paths.chain path = true) as Hchain.
  { unfold Paths.valid_path in Hvalid. by apply andb_true_iff in Hvalid as [_ ?]. }
  apply FollowFacts.path_to_directions_chain in Hchain as [dirs Hdirs].
  exists path, dirs. split; [done|]. split; [done|]. split; [done|].
  split; [done|]. split.
  - pose proof (SamplerFacts.valid_path_ends _ _ _ _ _ Hvalid Hne).
    pose proof (FollowFacts.path_to_directions_length _ _ Hdirs).
    intros ->. cbn [length] in *. lia.
  - apply FollowFacts.accepted_valid_path; [done|]. by exists path.
Qed.

(** The scenario drawn with the all-zero generator: start A2, goal A3. *)
Lemma spatial_scenario_well_formed_witness :
  ∃ sc,
    (Spatial.generate_scenario Examples.zero_draws).1 = Some sc
    ∧ Spatial.start sc = (0, 1) ∧ Spatial.end_ sc = (0, 2)
    ∧ Spatial.start sc ≠ Spatial.end_ sc
    ∧ size (Spatial.obstacles sc) = 3%nat.
Proof.
  eexists. split; [vm_compute; reflexivity|].
  split; [reflexivity|]. split; [reflexivity|].
  match goal with
  | |- Spatial.start ?sc ≠ _ ∧ _ =>
      destruct (spatial_scenario_well_formed Examples.zero_draws sc)
        as (_ & Hne & _ & _ & Hsize & _); [vm_compute; reflexivity|]
  end.
  split; [exact Hne|exact Hsize].
Defined.

(** X5: the choices of a record are pairwise different strings.  Every
    distractor generator returns at most the requested number of candidates,
    none of them twice, so a navigation record has between one and four
    choices, and the key-lock and container records have their four choices
    all different. *)
Theorem choices_pairwise_distinct
    (sha256_hex : string -> string)
    (render_prompt : KeyLock.KeyLockScenario -> string) :
  (∀ sc id r,
     let doc := (Spatial.scenario_to_eval_doc sha256_hex sc id r).1 in
     NoDup (Spatial.choices doc)
     ∧ (1 ≤ length (Spatial.choices doc) ≤ 4)%nat)
  ∧ (∀ sc id r doc,
       (KeyLock.scenario_to_eval_doc render_prompt sc id r).1 = Some doc ->
       NoDup (KeyLock.choices doc))
  ∧ (∀ r sc sample,
       (Container.main_body r).1 = Some (sc, sample) ->
       NoDup (Container.choices sample)).
Proof.
  split; [|split].
  - intros sc id r doc.
    destruct (SpatialAssembly.spatial_doc_shape sha256_hex sc id r)
      as (ds & pairs & Hds & Hperm & Hch & _).
    fold doc in Hch. rewrite Hch.
    assert (pairs.*2 ≡ₚ Spatial.correct_answer sc :: ds) as Hperm'.
    { rewrite Hperm. by rewrite ListFacts.imap_pair_snd. }
    destruct (ChoiceFacts.spatial_distractors_distinct sc 3 r) as [Hnd Hlen].
    pose proof (SpatialAssembly.spatial_distractors_ok sc 3 r) as Hok.
    rewrite <- Hds in Hnd, Hlen, Hok. rewrite Hperm'. split.
    + apply NoDup_cons. split; [|done]. intros Hin.
      rewrite Forall_forall in Hok. by destruct (Hok _ Hin).
    + cbn [length]. lia.
  - intros sc id r doc Hdoc.
    destruct (KeyLockAssembly.keylock_doc_shape render_prompt sc id r doc Hdoc)
      as (d1 & d2 & d3 & order & Htake & Hperm & Hch & _).
    rewrite Hch, Hperm. cbn [seq fmap list_fmap nth].
    destruct (ChoiceFacts.keylock_distractors_distinct sc 3 r) as [Hnd _].
    pose proof (KeyLockAssembly.keylock_doc_distractors sc r d1 d2 d3 Htake)
      as Hok.
    assert (NoDup [d1; d2; d3]) as Hnd3.
    { rewrite <- Htake. eapply sublist_NoDup; [exact Hnd|apply sublist_take]. }
    apply (NoDup_Permutation_proper _ _
             (Permutation_app_comm [d1; d2; d3] [KeyLock.correct_str sc])).
    apply NoDup_cons. split; [|done]. intros Hin.
    rewrite Forall_forall in Hok. by destruct (Hok _ Hin).
  - intros r sc sample Hbody.
    destruct (ChoiceFacts.container_sample_choices r sc sample Hbody)
      as [r' Hperm].
    rewrite Hperm. cbn [fmap list_fmap].
    destruct (ChoiceFacts.container_distractors_distinct sc r') as [Hnd _].
    pose proof (ContainerAssembly.container_distractors_ok sc r') as Hok.
    apply NoDup_cons. split; [|done]. intros Hin.
    apply list_elem_of_fmap in Hin as (d & Heq & Hd).
    rewrite Forall_forall in Hok. by apply (Hok _ Hd).
Qed.

(** The record that the container generator writes with the draws 0, 1, ... *)
Lemma choices_pairwise_distinct_witness :
  ∃ sample,
    (Container.main_body Examples.counting_draws).1
    = Some (Examples.counting_scenario, sample)
    ∧ NoDup (Container.choices sample).
Proof.
  destruct ContainerRun.main_body_counting_draws as [sample Hbody].
  exists sample.
  assert ((Container.main_body Examples.counting_draws).1
          = Some (Examples.counting_scenario, sample)) as H by by rewrite Hbody.
  split; [exact H|].
  destruct (choices_pairwise_distinct (fun s => s) (fun _ => "")) as (_ & _ & Hc).
  exact (Hc _ _ _ H).
Defined.

(** X6: in the navigation replay a token that is not one of the four
    directions is never skipped: every direction list that contains such a
    token is physically invalid, whatever the grid. *)
Theorem unknown_direction_is_invalid
    (start end_ : Coord) (obstacles : gset Coord) (grid_size : Z)
    (dirs : list string) (d : string) :
  d ∈ dirs -> DIR_VECTORS d = None ->
  Spatial.is_path_physically_invalid start end_ obstacles dirs grid_size = true.
Proof.
  intros Hin Hd.
  destruct (Spatial.is_path_physically_invalid _ _ _ dirs _) eqn:Hacc; [done|].
  apply FollowFacts.invalid_false_completes, FollowFacts.simulate_loop_follow
    in Hacc as (cells & Hf & _).
  apply TokenFacts.follow_tokens in Hf. rewrite Forall_forall in Hf.
  destruct (Hf _ Hin) as [vec Hvec]. congruence.
Qed.

(** A token in the middle of a walk that stays on the grid. *)
Lemma unknown_direction_is_invalid_witness :
  "jump" ∈ ["right"; "jump"; "left"]
  ∧ DIR_VECTORS "jump" = None
  ∧ Spatial.is_path_physically_invalid (0, 0) (0, 0) Examples.nav_obstacles
      ["right"; "jump"; "left"] 5 = true.
Proof.
  assert ("jump" ∈ ["right"; "jump"; "left"]) as Hin by by_evaluation.
  assert (DIR_VECTORS "jump" = None) as Hd by reflexivity.
  split; [exact Hin|]. split; [exact Hd|].
  exact (unknown_direction_is_invalid (0, 0) (0, 0) Examples.nav_obstacles 5
           _ _ Hin Hd).
Defined.

(** ** Key-lock puzzles *)

(** X7: the key-lock replay, unlike the navigation replay, skips every token
    that is neither a pick-up, an unlock nor a direction: removing these
    tokens from an action sequence changes neither the result of the replay
    nor the verdict of the validator. *)
Theorem unknown_actions_are_skipped
    (start end_ : Coord) (obstacles : gset Coord)
    (keys doors : gmap Coord string) (grid_size : Z) (actions : list string) :
  let known := filter (fun a => Is_true (known_action a)) actions in
  KeyLock.simulate_actions start end_ obstacles keys doors known grid_size
  = KeyLock.simulate_actions start end_ obstacles keys doors actions grid_size
  ∧ KeyLock.is_action_seq_invalid start end_ obstacles keys doors known grid_size
    = KeyLock.is_action_seq_invalid start end_ obstacles keys doors actions
        grid_size.
Proof.
  intros known.
  assert (KeyLock.simulate_actions start end_ obstacles keys doors known grid_size
          = KeyLock.simulate_actions start end_ obstacles keys doors actions
              grid_size) as Heq.
  { unfold KeyLock.simulate_actions, known.
    by rewrite TokenFacts.simulate_loop_known. }
  split; [exact Heq|]. unfold KeyLock.is_action_seq_invalid. by rewrite Heq.
Qed.

(** X8: an unlock token only tests the inventory, and a move into a door
    cell needs the key but no unlock token.  Hence a sequence that the
    validator accepts is still accepted when all its unlock tokens are
    removed, and the second strategy of the distractor generator (the
    solution without its unlock tokens) never adds a candidate for a
    scenario whose solution is valid. *)
Theorem unlock_tokens_are_optional :
  (∀ start end_ obstacles keys doors grid_size actions,
     KeyLock.is_action_seq_invalid start end_ obstacles keys doors actions
       grid_size = false ->
     KeyLock.is_action_seq_invalid start end_ obstacles keys doors
       (filter (fun a => ¬ Is_true (String.prefix "unlock_" a)) actions)
       grid_size = false)
  ∧ (∀ sc st correct,
       KeyLock.is_action_seq_invalid (KeyLock.start sc) (KeyLock.end_ sc)
         (KeyLock.obstacles sc) (KeyLock.keys sc) (KeyLock.doors sc) correct
         GRID_SIZE = false ->
       KeyLock.try_add sc st
         (filter (fun a => ¬ Is_true (String.prefix "unlock_" a)) correct)
       = st).
Proof.
  assert (∀ start end_ obstacles keys doors grid_size actions,
     KeyLock.is_action_seq_invalid start end_ obstacles keys doors actions
       grid_size = false ->
     KeyLock.is_action_seq_invalid start end_ obstacles keys doors
       (filter (fun a => ¬ Is_true (String.prefix "unlock_" a)) actions)
       grid_size = false) as Hdrop.
  { intros start end_ obstacles keys doors grid_size actions Hacc.
    apply BfsFacts.accepted_completes in Hacc as [inv Hrun].
    apply BfsFacts.accepted_completes. exists inv.
    by apply TokenFacts.completes_without_unlock. }
  split; [exact Hdrop|].
  intros sc st correct Hacc.
  apply KeyLockAssembly.keylock_try_add_discards. by apply Hdrop.
Qed.

(** The solution of the key-lock example without its two unlock tokens. *)
Lemma unlock_tokens_are_optional_witness :
  KeyLock.is_action_seq_invalid (0, 0) (4, 1) Examples.kl_obstacles
    Examples.kl_keys Examples.kl_doors Examples.kl_actions 5 = false
  ∧ KeyLock.is_action_seq_invalid (0, 0) (4, 1) Examples.kl_obstacles
      Examples.kl_keys Examples.kl_doors
      (filter (fun a => ¬ Is_true (String.prefix "unlock_" a)) Examples.kl_actions)
      5 = false.
Proof.
  assert (KeyLock.is_action_seq_invalid (0, 0) (4, 1) Examples.kl_obstacles
            Examples.kl_keys Examples.kl_doors Examples.kl_actions 5 = false)
    as Hacc by (vm_compute; reflexivity).
  split; [exact Hacc|].
  exact (proj1 unlock_tokens_are_optional _ _ _ _ _ _ _ Hacc).
Defined.

(** X9: a replay reports at most one violation.  The navigation replay
    never sets both of its flags, the key-lock replay sets at most one of
    its five, and the inventory it returns holds only colours of keys that
    lie on the grid. *)
Theorem replay_reports_one_violation :
  (∀ start end_ obstacles dirs grid_size,
     let res := Spatial.simulate_path start end_ obstacles dirs grid_size in
     ¬ (Spatial.hit_wall res = true ∧ Spatial.out_of_bounds res = true))
  ∧ (∀ start end_ obstacles keys doors actions grid_size,
       let res := KeyLock.simulate_actions start end_ obstacles keys doors
                    actions grid_size in
       (violations res ≤ 1)%nat
       ∧ ∀ color, color ∈ KeyLock.inventory res ->
           ∃ p, keys !! p = Some color).
Proof.
  split.
  - intros start end_ obstacles dirs grid_size res.
    destruct (ReplayFacts.simulate_path_flags obstacles grid_size start end_ dirs)
      as [Hw Ho].
    fold res in Hw, Ho. rewrite Hw, Ho. apply FlagFacts.spatial_one_flag.
  - intros start end_ obstacles keys doors actions grid_size res.
    destruct (TokenFacts.simulate_loop_one_flag obstacles keys doors grid_size
                actions start ∅) as [Hone Hinv].
    split; [exact Hone|].
    intros color Hc. destruct (Hinv color Hc) as [Hin|?]; [|done].
    by apply elem_of_empty in Hin.
Qed.

(** The inventory at the end of the key-lock example. *)
Lemma replay_reports_one_violation_witness :
  let res := KeyLock.simulate_actions (0, 0) (4, 1) Examples.kl_obstacles
               Examples.kl_keys Examples.kl_doors Examples.kl_actions 5 in
  "blue" ∈ KeyLock.inventory res
  ∧ ∃ p, Examples.kl_keys !! p = Some "blue".
Proof.
  intros res.
  assert ("blue" ∈ KeyLock.inventory res) as Hin by by_evaluation.
  split; [exact Hin|].
  destruct replay_reports_one_violation as [_ Hkl].
  exact (proj2 (Hkl (0, 0) (4, 1) Examples.kl_obstacles Examples.kl_keys
                  Examples.kl_doors Examples.kl_actions 5) "blue" Hin).
Defined.

(** X10: the third strategy of the key-lock distractor generator always
    produces an invalid sequence when the solution names a key.  If a
    sequence is accepted by the validator and contains a pick-up or an unlock
    token, the sequence with the colours swapped stops at its first pick-up
    with [invalid_pickup], so the validator rejects it. *)
Theorem swapped_colours_are_invalid
    (start end_ : Coord) (obstacles : gset Coord)
    (keys doors : gmap Coord string) (grid_size : Z) (correct : list string) :
  KeyLock.is_action_seq_invalid start end_ obstacles keys doors correct grid_size
  = false ->
  Exists (fun a => Is_true (key_action a)) correct ->
  KeyLock.invalid_pickup
    (KeyLock.simulate_actions start end_ obstacles keys doors
       (KeyLock.swap_color <$> correct) grid_size) = true
  ∧ KeyLock.is_action_seq_invalid start end_ obstacles keys doors
      (KeyLock.swap_color <$> correct) grid_size = true.
Proof.
  intros Hacc Hex.
  apply BfsFacts.accepted_completes in Hacc as [inv Hrun].
  pose proof (TokenFacts.swapped_pickup_invalid obstacles keys doors grid_size
                correct start end_ inv Hrun Hex) as Hflag.
  assert (KeyLock.invalid_pickup
            (KeyLock.simulate_actions start end_ obstacles keys doors
               (KeyLock.swap_color <$> correct) grid_size) = true) as Hres
    by exact Hflag.
  split; [exact Hres|].
  unfold KeyLock.is_action_seq_invalid. rewrite Hres.
  destruct (KeyLock.hit_wall _ || KeyLock.out_of_bounds _); [done|].
  by destruct (KeyLock.locked_door_blocked _).
Qed.

(** The solution of the key-lock example with red and blue exchanged. *)
Lemma swapped_colours_are_invalid_witness :
  KeyLock.is_action_seq_invalid (0, 0) (4, 1) Examples.kl_obstacles
    Examples.kl_keys Examples.kl_doors Examples.kl_actions 5 = false
  ∧ Exists (fun a => Is_true (key_action a)) Examples.kl_actions
  ∧ KeyLock.is_action_seq_invalid (0, 0) (4, 1) Examples.kl_obstacles
      Examples.kl_keys Examples.kl_doors
      (KeyLock.swap_color <$> Examples.kl_actions) 5 = true.
Proof.
  assert (KeyLock.is_action_seq_invalid (0, 0) (4, 1) Examples.kl_obstacles
            Examples.kl_keys Examples.kl_doors Examples.kl_actions 5 = false)
    as Hacc by (vm_compute; reflexivity).
  assert (Exists (fun a => Is_true (key_action a)) Examples.kl_actions) as Hex.
  { apply Exists_cons_tl, Exists_cons_hd. exact I. }
  split; [exact Hacc|]. split; [exact Hex|].
  exact (proj2 (swapped_colours_are_invalid _ _ _ _ _ _ _ Hacc Hex)).
Defined.

(** ** Container pouring *)

(** X11: the simulation never overfills a container and never takes out
    more than it holds.  If every level lies between zero and the capacity,
    then after any action that does not raise, and after any list of such
    actions, every level still does; the set of containers and their
    capacities are what they were. *)
Theorem simulate_step_keeps_levels_within_capacity
    (containers containers' : gmap string Container.Container)
    (actions : list string) :
  within_capacity containers ->
  replay_actions actions containers = Some containers' ->
  within_capacity containers'
  ∧ dom containers' = dom containers
  ∧ ∀ k, capacity_of containers' k = capacity_of containers k.
Proof. apply LevelFacts.replay_actions_within. Qed.

(** Two pours and a fill on the containers of the example. *)
Lemma simulate_step_keeps_levels_within_capacity_witness :
  ∃ containers',
    within_capacity Examples.example_containers
    ∧ replay_actions ["Pour B into A"; "Fill B"; "Pour A into B"]
        Examples.example_containers = Some containers'
    ∧ within_capacity containers'
    ∧ dom containers' = dom Examples.example_containers.
Proof.
  assert (within_capacity Examples.example_containers) as Hw.
  { unfold within_capacity. apply map_Forall_lookup. intros k c Hk.
    unfold Examples.example_containers in Hk.
    apply lookup_insert_Some in Hk as [[_ <-]|[_ Hk]]; [cbn; lia|].
    apply lookup_singleton_Some in Hk as [_ <-]. cbn. lia. }
  eexists. split; [exact Hw|].
  assert (∀ c, replay_actions ["Pour B into A"; "Fill B"; "Pour A into B"]
                 Examples.example_containers = Some c ->
               replay_actions ["Pour B into A"; "Fill B"; "Pour A into B"]
                 Examples.example_containers = Some c
               ∧ within_capacity c
               ∧ dom c = dom Examples.example_containers) as Hstep.
  { intros c Hc. split; [exact Hc|].
    destruct (simulate_step_keeps_levels_within_capacity _ _ _ Hw Hc)
      as (Hw' & Hdom & _).
    split; [exact Hw'|exact Hdom]. }
  apply Hstep. vm_compute. reflexivity.
Defined.

(** X12: a container scenario can be replayed.  The recorded final state is
    the state that the recorded actions produce from the recorded initial
    containers (the copy taken before the simulation), no action raises,
    and all levels, initial and final, lie within the capacities.  There
    are two or three containers, named A, B (and C), with capacities from 2
    to 10, and three to five actions. *)
Theorem container_scenario_is_reproducible (r : Rng.t) :
  let sc := (Container.generate_scenario r).1 in
  (∃ containers',
     replay_actions (Container.actions sc) (Container.containers sc)
     = Some containers'
     ∧ Container.final_state sc = Container.current <$> containers'
     ∧ within_capacity containers')
  ∧ within_capacity (Container.containers sc)
  ∧ (dom (Container.containers sc) = list_to_set ["A"; "B"]
     ∨ dom (Container.containers sc) = list_to_set ["A"; "B"; "C"])
  ∧ dom (Container.final_state sc) = dom (Container.containers sc)
  ∧ (∀ k c, Container.containers sc !! k = Some c ->
       Container.name c = k ∧ 2 ≤ Container.capacity c ≤ 10)
  ∧ (3 ≤ length (Container.actions sc) ≤ 5)%nat.
Proof.
  unfold Container.generate_scenario. rewrite !RngFacts.bind_run.
  pose proof (RangeFacts.choice_elem 2%nat [2%nat; 3%nat] r ltac:(done)) as Hk.
  set (k := (Rng.choice 2%nat [2%nat; 3%nat] r).1) in *.
  set (r1 := (Rng.choice 2%nat [2%nat; 3%nat] r).2).
  set (names := take k ["A"; "B"; "C"]).
  assert ((2 ≤ k)%nat ∧ (2 ≤ length names)%nat
          ∧ names ⊆ ContainerSampler.names3
          ∧ (names = ["A"; "B"] ∨ names = ["A"; "B"; "C"]))
    as (Hk2 & Hlen & Hsub & Hnames).
  { unfold names. rewrite !elem_of_cons, elem_of_nil in Hk.
    destruct Hk as [->|[->|[]]]; cbn; (split; [lia|]); (split; [lia|]);
      (split; [|tauto]); intros x Hx;
      unfold ContainerSampler.names3; rewrite !elem_of_cons in Hx;
      rewrite !elem_of_cons; tauto. }
  destruct (ContainerSampler.fill_containers_spec names ∅ r1)
    as (Hw & Hdom & Hcaps); [apply map_Forall_empty|done|].
  cbv zeta in Hw, Hdom, Hcaps.
  set (containers := (Container.fill_containers names ∅ r1).1) in *.
  set (r2 := (Container.fill_containers names ∅ r1).2).
  rewrite dom_empty_L, (right_id_L ∅ (∪)) in Hdom.
  pose proof (RangeFacts.randint_range 3 5 r2 ltac:(lia)) as Hn.
  set (n := (Rng.randint 3 5 r2).1) in *.
  set (r3 := (Rng.randint 3 5 r2).2).
  destruct (ContainerSampler.draw_actions_spec (Z.to_nat n) names k containers
              [] r3 Hsub Hk2 Hlen Hdom Hw) as (new & Hacts & Hnew & Hrun).
  cbv zeta in Hacts, Hrun.
  destruct ((Container.draw_actions (Z.to_nat n) names k containers [] r3).1)
    as [containers' acts] eqn:Hdraw.
  cbn [fst snd] in Hacts, Hrun. cbn [app] in Hacts. subst acts.
  change ((mret ?x : Rng.M Container.Scenario) ?r').1 with x.
  cbn [Container.actions Container.containers Container.final_state].
  destruct (LevelFacts.replay_actions_within _ _ _ Hw Hrun) as (Hw' & Hdom' & _).
  split; [by exists containers'|]. split; [done|]. split.
  { rewrite Hdom. destruct Hnames as [->| ->]; [by left|by right]. }
  split; [by rewrite dom_fmap_L|]. split; [done|]. lia.
Qed.

(** The scenario drawn with the raw draws 0, 1, 2, ... *)
Lemma container_scenario_is_reproducible_witness :
  (Container.generate_scenario Examples.counting_draws).1
  = Examples.counting_scenario
  ∧ ∃ containers',
      replay_actions (Container.actions Examples.counting_scenario)
        (Container.containers Examples.counting_scenario) = Some containers'
      ∧ Container.final_state Examples.counting_scenario
        = Container.current <$> containers'.
Proof.
  assert ((Container.generate_scenario Examples.counting_draws).1
          = Examples.counting_scenario) as Hsc by (vm_compute; reflexivity).
  split; [exact Hsc|].
  destruct (container_scenario_is_reproducible Examples.counting_draws)
    as [(containers' & Hrun & Hfinal & _) _].
  rewrite Hsc in Hrun, Hfinal. exists containers'.
  split; [exact Hrun|exact Hfinal].
Defined.

(** ** The generation loops *)

(** X13: the navigation [main] always leaves its loop.  It makes at most
    [20 * num_samples] attempts; the documents it has collected are numbered
    0, 1, 2, ... in their order, carry pairwise different fingerprints and
    are at most [num_samples]; when they are fewer, all attempts have been
    used. *)
Theorem spatial_main_always_ends
    (sha256_hex : string -> string) (num_samples : Z) (r : Rng.t) :
  ∃ st,
    (Spatial.main sha256_hex num_samples r).1 = Some st
    ∧ Spatial.doc_id <$> Spatial.samples st
      = seq 0 (length (Spatial.samples st))
    ∧ NoDup ((fun doc => Spatial.md_fingerprint (Spatial.metadata doc))
               <$> Spatial.samples st)
    ∧ 0 ≤ Spatial.attempts st ≤ Z.max 0 (num_samples * 20)
    ∧ Z.of_nat (length (Spatial.samples st)) ≤ Z.max 0 num_samples
    ∧ (Z.of_nat (length (Spatial.samples st)) < num_samples ->
       Spatial.attempts st = num_samples * 20).
Proof.
  destruct (SpatialRun.main_ends sha256_hex num_samples r)
    as (st & Hrun & Hnd & Hatt & Hlen & Hshort).
  exists st. split; [exact Hrun|]. split; [|done].
  eapply LoopFacts.spatial_main_loop_numbered; [exact Hrun|]. done.
Qed.

(** A run that falls short: every attempt draws a start cell that is walled
    in, and the run asked for one sample stops after twenty attempts. *)
Lemma spatial_main_always_ends_witness :
  ∃ st,
    (Spatial.main (fun s => s) 1 blocked_draws).1 = Some st
    ∧ Spatial.samples st = []
    ∧ Z.of_nat (length (Spatial.samples st)) < 1
    ∧ Spatial.attempts st = 1 * 20.
Proof.
  destruct (spatial_main_always_ends (fun s => s) 1 blocked_draws)
    as (st & Hrun & _ & _ & _ & _ & Hshort).
  exists st. split; [exact Hrun|].
  assert (Spatial.samples st = []) as Hnone.
  { assert (Spatial.samples
              <$> (Spatial.main (fun s => s) 1 blocked_draws).1 = Some [])
      as Hs by (vm_compute; reflexivity).
    rewrite Hrun in Hs. by injection Hs. }
  split; [exact Hnone|].
  assert (Z.of_nat (length (Spatial.samples st)) < 1) as Hlt
    by (rewrite Hnone; cbn; lia).
  split; [exact Hlt|exact (Hshort Hlt)].
Defined.

(** X14: the key-lock [main] has no attempt ceiling, but when its loop ends
    it has collected exactly the requested number of documents (none for a
    request below one), numbered 0, 1, 2, ... in their order, each with four
    choices and a gold index among them, and it has made at least one
    attempt per document. *)
Theorem keylock_main_result
    (render_prompt : KeyLock.KeyLockScenario -> string)
    (fingerprint : Coord * Coord * gset Coord * gmap Coord string
                   * gmap Coord string -> string)
    (fuel : nat) (num_samples : Z) (r : Rng.t) (st : KeyLock.run) :
  (KeyLock.main render_prompt fingerprint fuel num_samples r).1 = Some st ->
  Z.of_nat (length (KeyLock.docs st)) = Z.max 0 num_samples
  ∧ KeyLock.doc_id <$> KeyLock.docs st = seq 0 (length (KeyLock.docs st))
  ∧ Forall (fun doc => length (KeyLock.choices doc) = 4%nat
                       ∧ (KeyLock.gold doc < 4)%nat) (KeyLock.docs st)
  ∧ Z.of_nat (length (KeyLock.docs st)) ≤ KeyLock.attempts st ≤ Z.of_nat fuel.
Proof.
  unfold KeyLock.main. intros Hrun.
  destruct (LoopFacts.keylock_main_loop_result _ _ _ _ _ _ _ Hrun)
    as ([Hids Hshape Hcount Hatt] & Hexit & Hfuel).
  { split; cbn; [done|done|lia|lia]. }
  cbn in Hfuel. split; [lia|]. split; [done|]. split; [done|lia].
Qed.

(** The run asked for one sample with the draws of the key-lock example:
    one attempt, one document. *)
Lemma keylock_main_result_witness :
  ∃ st,
    (KeyLock.main (fun _ => "") (fun _ => "") 1 1 Examples.kl_draws).1 = Some st
    ∧ Z.of_nat (length (KeyLock.docs st)) = 1
    ∧ KeyLock.attempts st = 1.
Proof.
  assert (is_Some (KeyLock.main (fun _ => "") (fun _ => "") 1 1
                     Examples.kl_draws).1) as [st Hrun]
    by (vm_compute; eexists; reflexivity).
  exists st. split; [exact Hrun|].
  destruct (keylock_main_result _ _ _ _ _ _ Hrun) as (Hlen & _ & _ & Hatt).
  split; [exact Hlen|]. cbn in Hatt. lia.
Defined.

(** X15: the container [main] has no attempt ceiling either; when its loop
    ends it has written exactly [NUM_SAMPLES] = 1000 records, each with four
    pairwise different choices, the gold index pointing at the rendering of
    the final state of its scenario. *)
Theorem container_main_result
    (fuel : nat) (r : Rng.t)
    (written : list (Container.Scenario * Container.Sample)) :
  (Container.main fuel r).1 = Some written ->
  length written = 1000%nat
  ∧ Forall (fun w =>
              length (Container.choices w.2) = 4%nat
              ∧ NoDup (Container.choices w.2)
              ∧ Container.choices w.2 !! Container.gold w.2
                = Some (Container.dict_to_str (Container.final_state w.1)))
      written.
Proof.
  unfold Container.main. intros Hrun.
  destruct (LoopFacts.container_main_loop_result _ _ _ _ _ Hrun)
    as [Hok Hlen]; [done|cbn; lia|].
  split; [|exact Hok]. unfold Container.NUM_SAMPLES in Hlen. lia.
Qed.

(** The run with the raw draws 0, 1, 2, ..., which ends after 1000 passes. *)
Lemma container_main_result_witness :
  ∃ written,
    (Container.main 1000 Examples.counting_draws).1 = Some written
    ∧ length written = 1000%nat.
Proof.
  destruct ContainerRun.main_body_counting_draws as [sample Hbody].
  assert ((Container.main 1000 Examples.counting_draws).1
          = Some (replicate 1000 (Examples.counting_scenario, sample))) as Hrun.
  { unfold Container.main.
    by rewrite (ContainerRun.main_loop_repeats _ _ _ _ _ Hbody). }
  eexists. split; [exact Hrun|].
  exact (proj1 (container_main_result _ _ _ Hrun)).
Defined.

(** X16: every scenario that the key-lock sampler returns is well formed.
    The start, the goal, the keys, the doors and the two obstacles lie on
    pairwise different cells of the 5×5 grid; there are one or two keys and
    as many doors, in the colours red and blue, each colour of a door being
    the colour of a key and conversely; and the stored solution is a
    non-empty action list that the validator accepts. *)
Theorem keylock_scenario_well_formed (r : Rng.t) (sc : KeyLock.KeyLockScenario) :
  (KeyLock.generate_scenario r).1 = Some sc ->
  let cells : gset Coord :=
    {[ KeyLock.start sc; KeyLock.end_ sc ]} ∪ dom (KeyLock.keys sc)
    ∪ dom (KeyLock.doors sc) ∪ KeyLock.obstacles sc in
  KeyLock.grid_size sc = GRID_SIZE
  ∧ KeyLock.start sc ≠ KeyLock.end_ sc
  ∧ size (KeyLock.obstacles sc) = 2%nat
  ∧ size (dom (KeyLock.keys sc)) = size (dom (KeyLock.doors sc))
  ∧ (1 ≤ size (dom (KeyLock.keys sc)) ≤ 2)%nat
  ∧ size cells = (4 + 2 * size (dom (KeyLock.keys sc)))%nat
  ∧ (∀ p, p ∈ cells -> in_bounds GRID_SIZE p = true)
  ∧ (∀ color, (∃ p, KeyLock.keys sc !! p = Some color)
              ↔ (∃ p, KeyLock.doors sc !! p = Some color))
  ∧ (∀ p color, KeyLock.keys sc !! p = Some color -> color ∈ KeyLock.COLORS)
  ∧ ∃ path actions,
      KeyLock.solution_path sc = Some path
      ∧ KeyLock.solution_actions sc = Some actions
      ∧ actions ≠ []
      ∧ KeyLock.is_action_seq_invalid (KeyLock.start sc) (KeyLock.end_ sc)
          (KeyLock.obstacles sc) (KeyLock.keys sc) (KeyLock.doors sc) actions
          GRID_SIZE = false.
Proof.
  intros Hgen.
  destruct (KeyLockSampler.generate_scenario_layout r sc Hgen)
    as (c0 & c1 & c2 & c3 & c4 & c5 & c6 & c7 & rest & Hperm & Hcheck).
  assert (NoDup (c0 :: c1 :: c2 :: c3 :: c4 :: c5 :: c6 :: c7 :: rest)) as Hnd.
  { rewrite Hperm. apply SamplerFacts.all_coords_NoDup. }
  assert (∀ p, p ∈ [c0; c1; c2; c3; c4; c5; c6; c7] ->
               in_bounds GRID_SIZE p = true) as Hin.
  { intros p Hp. apply SamplerFacts.all_coords_in_bounds. rewrite <- Hperm.
    rewrite !elem_of_cons, elem_of_nil in Hp. rewrite !elem_of_cons. tauto. }
  assert (NoDup [c0; c1; c2; c3; c4; c5; c6; c7]) as Hnd8.
  { apply (sublist_NoDup _ _ Hnd (sublist_take _ 8)). }
  assert (NoDup [c0; c1; c2; c3; c4; c5]) as Hnd6.
  { apply (sublist_NoDup _ _ Hnd (sublist_take _ 6)). }
  assert (c0 ≠ c1) as Hne.
  { apply NoDup_cons in Hnd as [Hc0 _]. intros ->. apply Hc0, list_elem_of_here. }
  destruct Hcheck as [Hcheck|Hcheck];
    destruct (KeyLockSampler.check_scenario_Some _ _ _ _ _ _ Hcheck)
      as (path & actions & Hbfs & ->);
    cbn [KeyLock.grid_size KeyLock.start KeyLock.end_ KeyLock.obstacles
         KeyLock.keys KeyLock.doors KeyLock.solution_actions
         KeyLock.solution_path];
    (split; [done|]); (split; [done|]).
  - (* one pair *)
    rewrite !dom_singleton_L, !size_singleton.
    split.
    { apply size_list_to_set.
      exact (sublist_NoDup _ _ Hnd6 (sublist_drop [c0; c1; c2; c3; c4; c5] 4)). }
    split; [done|]. split; [lia|].
    assert (({[c0; c1]} ∪ {[c2]} ∪ {[c3]} ∪ list_to_set [c4; c5] : gset Coord)
            = list_to_set [c0; c1; c2; c3; c4; c5]) as ->.
    { apply set_eq. intros x. cbn [list_to_set].
      rewrite !elem_of_union, !elem_of_singleton, elem_of_empty. tauto. }
    split; [by rewrite size_list_to_set|]. split.
    { intros p Hp. apply Hin. rewrite elem_of_list_to_set in Hp.
      rewrite !elem_of_cons, elem_of_nil in Hp.
      rewrite !elem_of_cons, elem_of_nil. tauto. }
    split.
    { intros color. split; intros [p Hp];
        apply lookup_singleton_Some in Hp as [_ <-];
        eexists; apply lookup_singleton_eq. }
    split.
    { intros p color Hp. apply lookup_singleton_Some in Hp as [_ <-].
      apply list_elem_of_here. }
    pose proof (BfsFacts.bfs_with_keys_correct c0 c1 (list_to_set [c4; c5])
                  {[c2 := "red"]} {[c3 := "red"]} GRID_SIZE) as Hcorrect.
    rewrite Hbfs in Hcorrect. destruct Hcorrect as (Hvalid & _).
    exists path, actions. split; [done|]. split; [done|]. split; [|done].
    intros ->. revert Hvalid. unfold KeyLock.is_action_seq_invalid.
    cbn. by rewrite bool_decide_eq_false_2.
  - (* two pairs *)
    assert (c2 ≠ c4 ∧ c3 ≠ c5) as [H24 H35].
    { apply NoDup_cons in Hnd6 as [_ Hnd6]. apply NoDup_cons in Hnd6 as [_ Hnd6].
      apply NoDup_cons in Hnd6 as [H2 Hnd6]. apply NoDup_cons in Hnd6 as [H3 _].
      rewrite !not_elem_of_cons in H2, H3. split; [tauto|tauto]. }
    rewrite !dom_insert_L, !dom_singleton_L.
    rewrite !size_union by (apply disjoint_singleton_l, not_elem_of_singleton; done).
    rewrite !size_singleton.
    split.
    { apply size_list_to_set.
      exact (sublist_NoDup _ _ Hnd8
               (sublist_drop [c0; c1; c2; c3; c4; c5; c6; c7] 6)). }
    split; [done|]. split; [lia|].
    assert (({[c0; c1]} ∪ ({[c4]} ∪ {[c2]}) ∪ ({[c5]} ∪ {[c3]})
             ∪ list_to_set [c6; c7] : gset Coord)
            = list_to_set [c0; c1; c2; c3; c4; c5; c6; c7]) as ->.
    { apply set_eq. intros x. cbn [list_to_set].
      rewrite !elem_of_union, !elem_of_singleton, elem_of_empty. tauto. }
    split; [by rewrite size_list_to_set|]. split.
    { intros p Hp. apply Hin. by rewrite elem_of_list_to_set in Hp. }
    split.
    { intros color. split; intros [p Hp].
      - apply lookup_insert_Some in Hp as [[_ <-]|[_ Hp]].
        + exists c5. apply lookup_insert_eq.
        + apply lookup_singleton_Some in Hp as [_ <-]. exists c3.
          rewrite lookup_insert_ne by done. apply lookup_singleton_eq.
      - apply lookup_insert_Some in Hp as [[_ <-]|[_ Hp]].
        + exists c4. apply lookup_insert_eq.
        + apply lookup_singleton_Some in Hp as [_ <-]. exists c2.
          rewrite lookup_insert_ne by done. apply lookup_singleton_eq. }
    split.
    { intros p color Hp. apply lookup_insert_Some in Hp as [[_ <-]|[_ Hp]].
      - apply list_elem_of_further, list_elem_of_here.
      - apply lookup_singleton_Some in Hp as [_ <-]. apply list_elem_of_here. }
    pose proof (BfsFacts.bfs_with_keys_correct c0 c1 (list_to_set [c6; c7])
                  (<[c4 := "blue"]> {[c2 := "red"]})
                  (<[c5 := "blue"]> {[c3 := "red"]}) GRID_SIZE) as Hcorrect.
    rewrite Hbfs in Hcorrect. destruct Hcorrect as (Hvalid & _).
    exists path, actions. split; [done|]. split; [done|]. split; [|done].
    intros ->. revert Hvalid. unfold KeyLock.is_action_seq_invalid.
    cbn. by rewrite bool_decide_eq_false_2.
Qed.

(** The key-lock layout of the examples, as the sampler draws it. *)
Lemma keylock_scenario_well_formed_witness :
  (KeyLock.generate_scenario Examples.kl_draws).1 = Some Examples.kl_scenario
  ∧ KeyLock.start Examples.kl_scenario ≠ KeyLock.end_ Examples.kl_scenario
  ∧ size (KeyLock.obstacles Examples.kl_scenario) = 2%nat
  ∧ size (dom (KeyLock.keys Examples.kl_scenario))
    = size (dom (KeyLock.doors Examples.kl_scenario)).
Proof.
  assert ((KeyLock.generate_scenario Examples.kl_draws).1
          = Some Examples.kl_scenario) as Hgen by (vm_compute; reflexivity).
  split; [exact Hgen|].
  destruct (keylock_scenario_well_formed _ _ Hgen)
    as (_ & Hne & Hobs & Hpairs & _).
  split; [exact Hne|]. split; [exact Hobs|exact Hpairs].
Defined.

(** X17: the first candidate of the navigation distractor generator, the
    straight line from the start to the goal (rows first, then columns),
    has exactly as many steps as the Manhattan distance and never leaves
    the grid; it either runs into an obstacle or reaches the goal.  So it
    is kept as a distractor exactly when it hits an obstacle. *)
Theorem straight_line_candidate_needs_a_wall (sc : Spatial.GridScenario) :
  in_bounds GRID_SIZE (Spatial.start sc) = true ->
  in_bounds GRID_SIZE (Spatial.end_ sc) = true ->
  let dirs := Spatial.naive_dirs sc in
  let res := Spatial.simulate_path (Spatial.start sc) (Spatial.end_ sc)
               (Spatial.obstacles sc) dirs GRID_SIZE in
  Z.of_nat (length dirs) = Spatial.heuristic (Spatial.start sc) (Spatial.end_ sc)
  ∧ Spatial.out_of_bounds res = false
  ∧ Spatial.is_path_physically_invalid (Spatial.start sc) (Spatial.end_ sc)
      (Spatial.obstacles sc) dirs GRID_SIZE = Spatial.hit_wall res.
Proof.
  intros Hs He. cbv zeta.
  destruct (StraightFacts.naive_dirs_replay sc Hs He) as (Hlen & Hob & Hres).
  split; [exact Hlen|].
  unfold Spatial.is_path_physically_invalid, Spatial.simulate_path.
  destruct (Spatial.simulate_loop (Spatial.obstacles sc) GRID_SIZE
              (Spatial.naive_dirs sc) (Spatial.start sc)) as [[pos hw] ob].
  cbn [fst snd] in Hob, Hres. subst ob.
  cbn [Spatial.hit_wall Spatial.out_of_bounds Spatial.reached_goal].
  split; [reflexivity|].
  destruct Hres as [->|[= -> ->]]; [reflexivity|]. cbn [orb negb].
  by rewrite bool_decide_eq_true_2.
Qed.

(** On the navigation example the straight line passes the obstacle by and
    reaches the goal in eight steps: it is no distractor. *)
Lemma straight_line_candidate_needs_a_wall_witness :
  in_bounds GRID_SIZE (Spatial.start Examples.nav_scenario) = true
  ∧ in_bounds GRID_SIZE (Spatial.end_ Examples.nav_scenario) = true
  ∧ Z.of_nat (length (Spatial.naive_dirs Examples.nav_scenario)) = 8
  ∧ Spatial.is_path_physically_invalid (0, 0) (4, 4) Examples.nav_obstacles
      (Spatial.naive_dirs Examples.nav_scenario) GRID_SIZE
    = Spatial.hit_wall
        (Spatial.simulate_path (0, 0) (4, 4) Examples.nav_obstacles
           (Spatial.naive_dirs Examples.nav_scenario) GRID_SIZE).
Proof.
  assert (in_bounds GRID_SIZE (Spatial.start Examples.nav_scenario) = true)
    as Hs by reflexivity.
  assert (in_bounds GRID_SIZE (Spatial.end_ Examples.nav_scenario) = true)
    as He by reflexivity.
  split; [exact Hs|]. split; [exact He|].
  destruct (straight_line_candidate_needs_a_wall Examples.nav_scenario Hs He)
    as (Hlen & _ & Hinv).
  split; [exact Hlen|exact Hinv].
Defined.

